(** * yottsu: the [Life] model of Conway's game on a torus

    A shallow embedding of the class [Life.Model] and of its statics:
    the two generation buffers [_data] and [_swap], the interval callback
    installed by [start], and the default step function
    [Life.Model.tick]. Line numbers are those of the source text.

    JavaScript arrays are objects with identity, and the model swaps and
    overwrites them in place, so generations live in a store and the
    model holds references into it. *)

From Stdlib Require Import ZArith QArith Lia.
From stdpp Require Import base option list.

Local Open Scope Z_scope.

(** ** Values *)

(** [type Bit = 1 | 0]. *)
Inductive Bit := b0 | b1.

Definition bit_num (b : Bit) : Z :=
  match b with b0 => 0 | b1 => 1 end.

(** [1 - cell as Bit] *)
Definition flip (b : Bit) : Bit :=
  match b with b0 => b1 | b1 => b0 end.

(** What an element read [a[x][y]] evaluates to: a bit, or [undefined]
    when [y] is not an index of the row. *)
Inductive value := undefined | VBit (b : Bit).

(** The numbers that [tick] computes with: integers, and [NaN] (the sum
    of anything with [undefined]). *)
Inductive number := NaN | Num (z : Z).

Definition to_number (v : value) : number :=
  match v with undefined => NaN | VBit b => Num (bit_num b) end.

Definition truthy (v : value) : bool :=
  match v with VBit b1 => true | _ => false end.

Definition nadd (a b : number) : number :=
  match a, b with Num x, Num y => Num (x + y) | _, _ => NaN end.

(** [a < k], [a === k], [a > k]: every comparison with [NaN] is false. *)
Definition nlt (a : number) (k : Z) : bool :=
  match a with Num x => x <? k | NaN => false end.
Definition neq (a : number) (k : Z) : bool :=
  match a with Num x => x =? k | NaN => false end.
Definition ngt (a : number) (k : Z) : bool :=
  match a with Num x => x >? k | NaN => false end.

(** Truthiness of the number [fluctuation]: every number but zero. *)
Definition qtruthy (q : Q) : bool := negb (Qeq_bool q 0).

(** [a < b] on the rationals standing for finite floats. *)
Definition Qltb (a b : Q) : bool := negb (Qle_bool b a).

(** ** The store *)

(** References: an object's index in its part of the store. *)
Abbreviation loc := nat (only parsing).

(** Two kinds of array objects, as the types [Bit[]] and [Bit[][]] keep
    them apart: rows of bits, and grids whose elements are references to
    rows. A reference is the object's index in its part of the store;
    allocation appends. *)
Record heap := Heap { h_rows : list (list Bit); h_grids : list (list loc) }.

Definition set_rows (h : heap) (rs : list (list Bit)) : heap :=
  Heap rs (h_grids h).

Definition alloc_row (h : heap) (cells : list Bit) : heap * loc :=
  (Heap (h_rows h ++ [cells]) (h_grids h), length (h_rows h)).

Definition alloc_grid (h : heap) (rows : list loc) : heap * loc :=
  (Heap (h_rows h) (h_grids h ++ [rows]), length (h_grids h)).

(** Array indexing by a number: negative indices name no element. *)
Definition zlookup {A} (l : list A) (i : Z) : option A :=
  if 0 <=? i then l !! Z.to_nat i else None.

Definition zlength {A} (l : list A) : Z := Z.of_nat (length l).

(** ** Outcomes

    A call returns, or throws (the only exception the modelled code can
    raise is the [TypeError] of indexing [undefined]), or is [Stuck]:
    the store is outside what the model covers, that is, a reference
    that names no object, or an element write that would leave a hole in
    an array. Neither arises in a run of the model: see
    [reachable_never_stuck]. *)
Inductive exn := TypeError.

Inductive outcome (A : Type) :=
  | Return (a : A)
  | Throw (e : exn)
  | Stuck.
Arguments Return {A} a.
Arguments Throw {A} e.
Arguments Stuck {A}.

(** State and exceptions: the state is kept when a call throws. *)
Definition M (S A : Type) : Type := S → outcome A * S.

Definition ret {S A} (a : A) : M S A := λ s, (Return a, s).

Definition bind {S A B} (m : M S A) (k : A → M S B) : M S B :=
  λ s, match m s with
       | (Return a, s') => k a s'
       | (Throw e, s') => (Throw e, s')
       | (Stuck, s') => (Stuck, s')
       end.

Notation "'let*' x ':=' m 'in' k" := (bind m (λ x, k))
  (at level 10, x name, m at level 100, k at level 200).
Notation "m ';;' k" := (bind m (λ _, k))
  (at level 100, k at level 200, right associativity).

Definition get {S} : M S S := λ s, (Return s, s).

(** A computation that only reads the state. *)
Definition reads {S A} (f : S → outcome A) : M S A := λ s, (f s, s).

(** [for (let k = k0; k < k0 + n; k += 1) body(k)] *)
Fixpoint for_from {S} (k : Z) (n : nat) (body : Z → M S unit) : M S unit :=
  match n with
  | O => ret tt
  | S n' => body k;; for_from (k + 1) n' body
  end.

(** [for (let k = 0; k < bound; k += 1) body(k)], the bound being a
    constant of the loop. *)
Definition for_lt {S} (bound : Z) (body : Z → M S unit) : M S unit :=
  for_from 0 (Z.to_nat bound) body.

(** ** Array expressions over the store *)

(** [a.length] for a grid [a]. *)
Definition grid_length (h : heap) (a : loc) : outcome Z :=
  match h_grids h !! a with
  | Some rs => Return (zlength rs)
  | None => Stuck
  end.

(** [a[x]] for a grid [a], to the row object it refers to;
    [Return None] is [undefined]. *)
Definition grid_row (h : heap) (a : loc) (x : Z)
  : outcome (option (loc * list Bit)) :=
  match h_grids h !! a with
  | None => Stuck
  | Some rs =>
      match zlookup rs x with
      | None => Return None
      | Some r =>
          match h_rows h !! r with
          | Some cells => Return (Some (r, cells))
          | None => Stuck
          end
      end
  end.

(** [a[x].length] *)
Definition row_length (h : heap) (a : loc) (x : Z) : outcome Z :=
  match grid_row h a x with
  | Return (Some (_, cells)) => Return (zlength cells)
  | Return None => Throw TypeError
  | Throw e => Throw e
  | Stuck => Stuck
  end.

(** [a[x][y]] *)
Definition index2 (h : heap) (a : loc) (x y : Z) : outcome value :=
  match grid_row h a x with
  | Return (Some (_, cells)) =>
      Return (match zlookup cells y with
              | Some b => VBit b
              | None => undefined
              end)
  | Return None => Throw TypeError
  | Throw e => Throw e
  | Stuck => Stuck
  end.

(** [cells[y] = v] on a dense array: an index below the length is
    overwritten, the index equal to the length extends the array by one;
    a larger (or negative) index is outside the model. *)
Definition array_set (cells : list Bit) (y : Z) (v : Bit) : option (list Bit) :=
  if (0 <=? y) && (y <? zlength cells) then Some (<[Z.to_nat y := v]> cells)
  else if y =? zlength cells then Some (cells ++ [v])
  else None.

(** [a[x][y] = v] *)
Definition assign2 (a : loc) (x y : Z) (v : Bit) : M heap unit :=
  λ h, match grid_row h a x with
       | Return (Some (r, cells)) =>
           match array_set cells y v with
           | Some cells' => (Return tt, set_rows h (<[r := cells']> (h_rows h)))
           | None => (Stuck, h)
           end
       | Return None => (Throw TypeError, h)
       | Throw e => (Throw e, h)
       | Stuck => (Stuck, h)
       end.

(** ** The default step function *)

(** The store [tick] runs in: the arrays, and how many times
    [Math.random] has been called. *)
Record store := Store { st_heap : heap; st_draws : nat }.

Definition on_heap {A} (m : M heap A) : M store A :=
  λ s, let '(o, h) := m (st_heap s) in (o, Store h (st_draws s)).

Definition read_heap {A} (f : heap → outcome A) : M store A :=
  reads (λ s, f (st_heap s)).

(** [type Tick = (prev: Bit[][], next: Bit[][], fluctuation?: number) => void] *)
Definition Tick : Type := loc → loc → option Q → M store unit.

Section Random.

(** The successive results of [Math.random()]. *)
Variable draws : nat → Q.

Definition Math_random : M store Q :=
  λ s, (Return (draws (st_draws s)), Store (st_heap s) (S (st_draws s))).

(** The rule of lines 254-257. [&&] binds tighter than [||], so the
    second test is [(alive && neighbors === 2) || neighbors === 3];
    [cell] keeps its initial [0] when no test succeeds. *)
Definition rule (alive : value) (neighbors : number) : Bit :=
  if truthy alive && nlt neighbors 2 then b0
  else if truthy alive && neq neighbors 2 || neq neighbors 3 then b1
  else if truthy alive && ngt neighbors 3 then b0
  else if negb (truthy alive) && neq neighbors 3 then b1
  else b0.

(** [if (fluctuation && Math.random() < fluctuation) cell = 1 - cell]:
    no draw is made when [fluctuation] is falsy. *)
Definition fluctuate (fluctuation : Q) (cell : Bit) : M store Bit :=
  if qtruthy fluctuation then
    let* d := Math_random in
    ret (if Qltb d fluctuation then flip cell else cell)
  else ret cell.

(** The body of the inner loop, lines 235-264. *)
Definition tick_cell (input output : loc) (fluctuation : Q)
    (lastRow lastCol i j : Z) : M store unit :=
  let* alive := read_heap (λ h, index2 h input i j) in
  let decX := if i >=? 1 then i - 1 else lastRow in
  let decY := if j >=? 1 then j - 1 else lastCol in
  let incX := if i + 1 <=? lastRow then i + 1 else 0 in
  let incY := if j + 1 <=? lastCol then j + 1 else 0 in
  let* n1 := read_heap (λ h, index2 h input decX decY) in
  let* n2 := read_heap (λ h, index2 h input i decY) in
  let* n3 := read_heap (λ h, index2 h input incX decY) in
  let* n4 := read_heap (λ h, index2 h input decX j) in
  let* n5 := read_heap (λ h, index2 h input incX j) in
  let* n6 := read_heap (λ h, index2 h input decX incY) in
  let* n7 := read_heap (λ h, index2 h input i incY) in
  let* n8 := read_heap (λ h, index2 h input incX incY) in
  let neighbors :=
    nadd (nadd (nadd (nadd (nadd (nadd (nadd
      (to_number n1) (to_number n2)) (to_number n3)) (to_number n4))
      (to_number n5)) (to_number n6)) (to_number n7)) (to_number n8) in
  let* cell := fluctuate fluctuation (rule alive neighbors) in
  on_heap (assign2 output i j cell).

(** [Life.Model.tick], lines 227-267. *)
Definition tick : Tick := λ input output fluctuation,
  let fluctuation := default 0%Q fluctuation in
  let* rows := read_heap (λ h, grid_length h input) in
  let* columns := read_heap (λ h, row_length h input 0) in
  let lastCol := columns - 1 in
  let lastRow := rows - 1 in
  for_lt rows (λ i,
    for_lt columns (λ j,
      tick_cell input output fluctuation lastRow lastCol i j)).

End Random.

(** ** [Life.Model] *)

(** The constants of lines 34-49. *)
Definition LIKELIHOOD : Q := 25 # 100.
Definition ROWS : Z := 40.
Definition COLUMNS : Z := 40.
Definition INTERVAL : Z := 250.

(** The generation a grid reference denotes: the contents of its rows. *)
Abbreviation matrix := (list (list Bit)) (only parsing).

Definition matrix_of (h : heap) (a : loc) : option matrix :=
  rs ← h_grids h !! a; mapM (λ r, h_rows h !! r) rs.

(** [JSON.stringify(state)]: the text is determined by, and determines,
    the matrix of bits. *)
Definition JSON_stringify (h : heap) (state : loc) : outcome matrix :=
  match matrix_of h state with
  | Some m => Return m
  | None => Stuck
  end.

(** [JSON.parse(text)]: a new array object for every row of the text, and
    one for the grid. *)
Fixpoint parse_rows (h : heap) (m : matrix) : heap * list loc :=
  match m with
  | [] => (h, [])
  | cells :: m' =>
      let '(h1, r) := alloc_row h cells in
      let '(h2, rs) := parse_rows h1 m' in
      (h2, r :: rs)
  end.

Definition JSON_parse (m : matrix) : M heap loc :=
  λ h, let '(h1, rs) := parse_rows h m in
       let '(h2, a) := alloc_grid h1 rs in
       (Return a, h2).

(** The argument of [emitChanged]; [type] is always ['cells-changed'] and
    [region] always ['body']. *)
Record event := CellsChanged {
  rowSpan : Z;
  columnSpan : Z;
  rowIndex : Z;
  columnIndex : Z
}.

(** An interval registered with [window.setInterval] by [start]: its
    handle, its delay, and the variable [swap] that its callback
    captured. *)
Record timer := Timer { handle : Z; delay : Z; swap : bool }.

(** The private fields of the model. [_started] is [undefined] ([None])
    until [start] or [stop] first assigns it. *)
Record Model := MkModel {
  _interval : Z;
  _data : loc;
  _swap : loc;
  _started : option Z;
  _tick : Tick
}.

(** The model in its environment: the store, the intervals of [window]
    that are active and the next handle it will hand out, and the
    notifications emitted so far (latest first). *)
Record system := System {
  sys_store : store;
  timers : list timer;
  next_handle : Z;
  this : Model;
  emitted : list event
}.

Definition sys_heap (s : system) : heap := st_heap (sys_store s).

Definition set_store (s : system) (st : store) : system :=
  System st (timers s) (next_handle s) (this s) (emitted s).
Definition set_timers (s : system) (ts : list timer) : system :=
  System (sys_store s) ts (next_handle s) (this s) (emitted s).
Definition set_this (s : system) (m : Model) : system :=
  System (sys_store s) (timers s) (next_handle s) m (emitted s).

Definition with_started (m : Model) (v : option Z) : Model :=
  MkModel (_interval m) (_data m) (_swap m) v (_tick m).
Definition with_buffers (m : Model) (data swap : loc) : Model :=
  MkModel (_interval m) data swap (_started m) (_tick m).

Definition on_store {A} (m : M store A) : M system A :=
  λ s, let '(o, st) := m (sys_store s) in (o, set_store s st).

(** Truthiness of [this._started]. *)
Definition started (m : Model) : bool :=
  match _started m with
  | Some id => negb (id =? 0)
  | None => false
  end.

(** [window.clearInterval(id)]: the interval is no longer active, and
    the event loop runs the callbacks of active intervals only. *)
Definition clearInterval (id : Z) : M system unit :=
  λ s, (Return tt, set_timers s (filter (λ t, handle t ≠ id) (timers s))).

(** [window.setInterval(callback, delay)], the callback being the arrow
    function of [start] closed over a new [swap = false]. As in the HTML
    standard, handles are positive integers, and a handle is not handed
    out twice. *)
Definition setInterval (d : Z) : M system Z :=
  λ s, let id := next_handle s in
       (Return id,
        System (sys_store s) (timers s ++ [Timer id d false]) (id + 1)
               (this s) (emitted s)).

(** [stop()], lines 129-134. *)
Definition stop : M system unit :=
  λ s, match _started (this s) with
       | Some id =>
           if negb (id =? 0) then
             (clearInterval id;;
              λ s', (Return tt, set_this s' (with_started (this s') (Some 0)))) s
           else (Return tt, s)
       | None => (Return tt, s)
       end.

(** [set state(state)], lines 76-82. *)
Definition set_state (state : loc) : M system unit :=
  (let* s := get in if started (this s) then stop else ret tt);;
  let* text := reads (λ s, JSON_stringify (sys_heap s) state) in
  let* copy := on_store (on_heap (JSON_parse text)) in
  λ s, (Return tt, set_this s (with_buffers (this s) state copy)).

(** [rowCount], [columnCount] and [data], lines 84-94. *)
Definition rowCount (s : system) : outcome Z :=
  grid_length (sys_heap s) (_data (this s)).

Definition columnCount (s : system) : outcome Z :=
  row_length (sys_heap s) (_data (this s)) 0.

Definition data (s : system) (row column : Z) : outcome value :=
  index2 (sys_heap s) (_data (this s)) row column.

(** [start()], lines 99-124. *)
Definition start : M system unit :=
  (let* s := get in if started (this s) then stop else ret tt);;
  let* s := get in
  let* id := setInterval (_interval (this s)) in
  λ s', (Return tt, set_this s' (with_started (this s') (Some id))).

(** [swap = !swap] in the closure of the interval [id]; the value of the
    assignment is the new value. *)
Definition toggle_swap (id : Z) : M system bool :=
  λ s, match filter (λ t, handle t = id) (timers s) with
       | t :: _ =>
           (Return (negb (swap t)),
            set_timers s
              (map (λ t', if decide (handle t' = id)
                          then Timer (handle t') (delay t') (negb (swap t'))
                          else t') (timers s)))
       | [] => (Stuck, s)
       end.

Definition emitChanged (e : event) : M system unit :=
  λ s, (Return tt,
        System (sys_store s) (timers s) (next_handle s) (this s)
               (e :: emitted s)).

(** The arrow function passed to [setInterval], lines 106-123. *)
Definition interval_callback (id : Z) : M system unit :=
  let* sw := toggle_swap id in
  (if sw
   then λ s, (Return tt,
              set_this s (with_buffers (this s) (_swap (this s)) (_data (this s))))
   else ret tt);;
  let* s := get in
  on_store (_tick (this s) (_swap (this s)) (_data (this s)) None);;
  let* rs := reads rowCount in
  let* cs := reads columnCount in
  emitChanged (CellsChanged rs cs 0 0).

(** [interface IOptions], lines 165-180. *)
Record IOptions := MkOptions {
  initial : option loc;
  interval : option Z;
  tick_option : option Tick
}.

Section Construction.

Variable draws : nat → Q.

(** [Life.Model.random], lines 194-208. Rows are allocated in order;
    the grid object is its own part of the store, so allocating it last
    yields the same store as allocating it first and pushing each row. *)
Fixpoint random_cells (columns : nat) (likelihood : Q) : M store (list Bit) :=
  match columns with
  | O => ret []
  | S n =>
      let* d := Math_random draws in
      let* rest := random_cells n likelihood in
      ret ((if Qltb d likelihood then b1 else b0) :: rest)
  end.

Fixpoint random_rows (rows columns : nat) (likelihood : Q) : M store (list loc) :=
  match rows with
  | O => ret []
  | S n =>
      let* cells := random_cells columns likelihood in
      let* r := on_heap (λ h, let '(h', r) := alloc_row h cells in (Return r, h')) in
      let* rest := random_rows n columns likelihood in
      ret (r :: rest)
  end.

Definition random (rows columns : Z) (likelihood : Q) : M store loc :=
  let* rs := random_rows (Z.to_nat rows) (Z.to_nat columns) likelihood in
  on_heap (λ h, let '(h', a) := alloc_grid h rs in (Return a, h')).

(** [new Life.Model(options)], lines 63-68, in a window with no interval
    yet. [_data] and [_swap] are [undefined] until the setter assigns
    them; it reads neither, and the [0] standing for them here is never
    looked at. *)
Definition new_Model (options : IOptions) (st : store) : outcome unit * system :=
  let i := match interval options with
           | Some 0 | None => INTERVAL
           | Some i => i
           end in
  let t := default (tick draws) (tick_option options) in
  let s := System st [] 1 (MkModel i 0%nat 0%nat None t) [] in
  (let* state :=
     match initial options with
     | Some a => ret a
     | None => on_store (random ROWS COLUMNS LIKELIHOOD)
     end in
   set_state state) s.

End Construction.

(** ** Runs of the model

    What the page and the event loop can do to a model: call [start],
    [stop] or the [state] setter, build new arrays, and fire an interval
    that is active. An exception thrown by the callback ends that
    callback only. *)
Inductive op :=
  | Start
  | Stop
  | SetState (state : loc)
  | Fire (id : Z)
  | NewRow (cells : list Bit)
  | NewGrid (rows : list loc).

Definition is_row (h : heap) (r : loc) : Prop := (r < length (h_rows h))%nat.
Definition is_grid (h : heap) (a : loc) : Prop := (a < length (h_grids h))%nat.

(** The operation is one a program can perform: the references it passes
    name objects, and the interval it fires is active. *)
Definition enabled (s : system) (o : op) : Prop :=
  match o with
  | SetState a => is_grid (sys_heap s) a
  | Fire id => id ∈ handle <$> timers s
  | NewGrid rows => Forall (is_row (sys_heap s)) rows
  | _ => True
  end.

Definition exec (o : op) (s : system) : system :=
  match o with
  | Start => (start s).2
  | Stop => (stop s).2
  | SetState a => (set_state a s).2
  | Fire id => (interval_callback id s).2
  | NewRow cells =>
      set_store s (Store (alloc_row (sys_heap s) cells).1 (st_draws (sys_store s)))
  | NewGrid rows =>
      set_store s (Store (alloc_grid (sys_heap s) rows).1 (st_draws (sys_store s)))
  end.

(** How the operation ends, beside the state it leaves: the outcome of
    the call, or of the callback. *)
Definition outcome_of (o : op) (s : system) : outcome unit :=
  match o with
  | Start => (start s).1
  | Stop => (stop s).1
  | SetState a => (set_state a s).1
  | Fire id => (interval_callback id s).1
  | NewRow _ | NewGrid _ => Return tt
  end.

(** Every grid's elements name rows. *)
Definition closed (h : heap) : Prop :=
  Forall (Forall (is_row h)) (h_grids h).

(** The store of a running program: closed, with both buffers of the
    model naming grids. *)
Definition well_formed (s : system) : Prop :=
  closed (sys_heap s) ∧
  is_grid (sys_heap s) (_data (this s)) ∧
  is_grid (sys_heap s) (_swap (this s)).

(** Two stores with the same grids and as many rows. *)
Definition same_objects (h0 h : heap) : Prop :=
  h_grids h = h_grids h0 ∧ length (h_rows h) = length (h_rows h0).

(** A generation of [R] rows and [C] columns. *)
Definition rect (R C : nat) (m : matrix) : Prop :=
  length m = R ∧ Forall (λ row, length row = C) m.

(** A non-empty rectangular generation. *)
Definition generation (m : matrix) : Prop :=
  ∃ R C, (1 ≤ R)%nat ∧ (1 ≤ C)%nat ∧ rect R C m.

(** [steps ok s s']: [s'] is reached from [s] by enabled operations,
    every state assigned satisfying [ok]. *)
Inductive steps (ok : heap → loc → Prop) : system → system → Prop :=
  | steps_refl s : steps ok s s
  | steps_step s s' o :
      steps ok s s' →
      enabled s' o →
      (∀ a, o = SetState a → ok (sys_heap s') a) →
      steps ok s (exec o s').

(** [s] is the model that [new Life.Model(options)] builds in the closed
    store [st]; [initial], when given, names a grid of that store. *)
Definition constructed (draws : nat → Q) (st : store) (options : IOptions)
    (s : system) : Prop :=
  closed (st_heap st) ∧
  (∀ a, initial options = Some a → is_grid (st_heap st) a) ∧
  s = (new_Model draws options st).2.

Definition any_state : heap → loc → Prop := λ _ _, True.

Definition reachable (draws : nat → Q) (s : system) : Prop :=
  ∃ st options s0, constructed draws st options s0 ∧ steps any_state s0 s.

(** ** What [tick] computes, as a function of the input generation *)

(** [m[x][y]] on a matrix value. *)
Definition mread (m : matrix) (x y : Z) : value :=
  match zlookup m x with
  | Some row => match zlookup row y with Some b => VBit b | None => undefined end
  | None => undefined
  end.

(** The value of [cell] after the rule, lines 235-257, read off [m]. *)
Definition cell_rule (m : matrix) (lastRow lastCol i j : Z) : Bit :=
  let decX := if i >=? 1 then i - 1 else lastRow in
  let decY := if j >=? 1 then j - 1 else lastCol in
  let incX := if i + 1 <=? lastRow then i + 1 else 0 in
  let incY := if j + 1 <=? lastCol then j + 1 else 0 in
  rule (mread m i j)
    (nadd (nadd (nadd (nadd (nadd (nadd (nadd
      (to_number (mread m decX decY)) (to_number (mread m i decY)))
      (to_number (mread m incX decY))) (to_number (mread m decX j)))
      (to_number (mread m incX j))) (to_number (mread m decX incY)))
      (to_number (mread m i incY))) (to_number (mread m incX incY))).

(** How many draws one cell makes. *)
Definition draws_per_cell (fluctuation : Q) : nat :=
  if qtruthy fluctuation then 1%nat else 0%nat.

(** The value written to [output[i][j]] when [n] draws were made before
    the cell. *)
Definition written (draws : nat → Q) (fluctuation : Q) (n : nat) (cell : Bit) : Bit :=
  if qtruthy fluctuation
  then (if Qltb (draws n) fluctuation then flip cell else cell)
  else cell.

Definition out_cell (draws : nat → Q) (fluctuation : Q) (n0 : nat)
    (m : matrix) (R C i j : nat) : Bit :=
  written draws fluctuation (n0 + draws_per_cell fluctuation * (i * C + j))
    (cell_rule m (Z.of_nat R - 1) (Z.of_nat C - 1) (Z.of_nat i) (Z.of_nat j)).

Definition out_row (draws : nat → Q) (fluctuation : Q) (n0 : nat)
    (m : matrix) (R C i : nat) : list Bit :=
  map (out_cell draws fluctuation n0 m R C i) (seq 0 C).

Definition next_generation (draws : nat → Q) (fluctuation : Q) (n0 : nat)
    (m : matrix) (R C : nat) : matrix :=
  map (out_row draws fluctuation n0 m R C) (seq 0 R).

(** ** The rule as the specification words it

    Neighbours are reached by wrapping indices modulo the dimensions; a
    cell is alive in the next generation when it is alive with two or
    three live neighbours, or dead with exactly three. *)
Definition cell_at (m : matrix) (i j : Z) : Z :=
  match mread m i j with VBit b => bit_num b | undefined => 0 end.

Definition toroidal_neighbors (m : matrix) (R C i j : Z) : Z :=
  cell_at m ((i - 1) mod R) ((j - 1) mod C) +
  cell_at m ((i - 1) mod R) j +
  cell_at m ((i - 1) mod R) ((j + 1) mod C) +
  cell_at m i ((j - 1) mod C) +
  cell_at m i ((j + 1) mod C) +
  cell_at m ((i + 1) mod R) ((j - 1) mod C) +
  cell_at m ((i + 1) mod R) j +
  cell_at m ((i + 1) mod R) ((j + 1) mod C).

Definition conway_alive (m : matrix) (R C i j : Z) : Prop :=
  (cell_at m i j = 1 ∧
   (toroidal_neighbors m R C i j = 2 ∨ toroidal_neighbors m R C i j = 3)) ∨
  (cell_at m i j = 0 ∧ toroidal_neighbors m R C i j = 3).

(** The store while [tick] runs on [input] and [output]: [input] still
    holds the generation [m], and [output] holds rows of [C] cells. *)
Definition ticking (input output : loc) (rin rout : list loc) (m : matrix)
    (C : nat) (h : heap) : Prop :=
  h_grids h !! input = Some rin ∧
  h_grids h !! output = Some rout ∧
  Forall2 (λ r row, h_rows h !! r = Some row) rin m ∧
  Forall (λ r, ∃ cells, h_rows h !! r = Some cells ∧ length cells = C) rout.

(** Two buffers that [tick] can be handed as [input] and [output]:
    both hold [R] rows of [C] cells, the rows of [output] are distinct
    objects, and none of them is a row of [input]. *)
Record buffers (h : heap) (input output : loc) (m : matrix) (R C : nat) : Prop := {
  buf_input : matrix_of h input = Some m;
  buf_rect : rect R C m;
  buf_output : ∃ m', matrix_of h output = Some m' ∧ rect R C m';
  buf_distinct : ∃ rout, h_grids h !! output = Some rout ∧ NoDup rout;
  buf_apart : ∀ rin rout r,
    h_grids h !! input = Some rin → h_grids h !! output = Some rout →
    r ∈ rin → r ∈ rout → False
}.

(** The lengths of a grid's rows. *)
Definition shape (h : heap) (a : loc) : option (list nat) :=
  map length <$> matrix_of h a.

(** The generation that is current, and the one in the scratch buffer. *)
Definition current (s : system) : option matrix :=
  matrix_of (sys_heap s) (_data (this s)).
Definition scratch (s : system) : option matrix :=
  matrix_of (sys_heap s) (_swap (this s)).

(** A computation that never calls [Math.random]. *)
Definition quiet {A} (m : M store A) : Prop :=
  ∀ s, st_draws (m s).2 = st_draws s.

(** The discipline of the interval: handles are positive and below the
    next one to be handed out, and the active intervals are exactly the
    one whose handle [_started] holds, when it holds one. *)
Definition timer_inv (s : system) : Prop :=
  0 < next_handle s ∧
  Forall (λ t, 0 < handle t < next_handle s) (timers s) ∧
  handle <$> timers s =
    (if started (this s) then [default 0 (_started (this s))] else []).

(** A state that the setter is handed in a run of non-empty rectangular
    generations only. *)
Definition valid_state : heap → loc → Prop :=
  λ h a, ∃ m, matrix_of h a = Some m ∧ generation m.

(** Two stores with the same grids and rows of the same lengths. *)
Definition same_shape (h0 h : heap) : Prop :=
  h_grids h = h_grids h0 ∧ map length (h_rows h) = map length (h_rows h0).

(** A step function that keeps the dimensions of its buffers: handed
    two buffers of [R] rows and [C] columns, it leaves both with [R]
    rows and [C] columns. Nothing is asked of what else it does to the
    store. *)
Definition keeps_shape (t : Tick) : Prop :=
  ∀ input output fluctuation R C h n,
    (1 ≤ R)%nat →
    shape h input = Some (replicate R C) →
    shape h output = Some (replicate R C) →
    let h' := st_heap (t input output fluctuation (Store h n)).2 in
    shape h' input = Some (replicate R C) ∧
    shape h' output = Some (replicate R C).

(** The model's step function keeps dimensions, and its two buffers hold
    [R] rows of [C] cells each. *)
Definition dims_inv (R C : nat) (s : system) : Prop :=
  keeps_shape (_tick (this s)) ∧
  shape (sys_heap s) (_data (this s)) = Some (replicate R C) ∧
  shape (sys_heap s) (_swap (this s)) = Some (replicate R C).

(** [post r QR QT]: the run [r] is not stuck; it returned with [QR], or
    threw with [QT]. *)
Definition post {S A} (r : outcome A * S) (QR : A → S → Prop) (QT : S → Prop) : Prop :=
  match r with
  | (Return a, s') => QR a s'
  | (Throw _, s') => QT s'
  | (Stuck, _) => False
  end.

(** ** Sample stores *)

(** A store holding the generation [m] as grid [0] and nothing else. *)
Definition store_of (m : matrix) : store :=
  let '(h1, rs) := parse_rows (Heap [] []) m in
  Store (alloc_grid h1 rs).1 0.

(** A store holding [m] as grid [0] and [m'] as grid [1], no row shared. *)
Definition store_of2 (m m' : matrix) : store :=
  let '(h1, rs) := parse_rows (Heap [] []) m in
  let '(h2, rs') := parse_rows (alloc_grid h1 rs).1 m' in
  Store (alloc_grid h2 rs').1 0.

Definition no_draws : nat → Q := λ _, 0%Q.

Definition diagonal : matrix := [[b1; b0; b0]; [b0; b0; b0]; [b0; b0; b1]].
Definition blank : matrix := [[b0; b0; b0]; [b0; b0; b0]; [b0; b0; b0]].

(** A blinker on a torus of five rows and five columns. *)
Definition blinker : matrix :=
  [[b0; b0; b0; b0; b0];
   [b0; b0; b0; b0; b0];
   [b0; b1; b1; b1; b0];
   [b0; b0; b0; b0; b0];
   [b0; b0; b0; b0; b0]].

Definition jagged : matrix := [[b0; b1]; [b0]].

(** [new Life.Model({ initial })] on a store holding only [initial]. *)
Definition model_of (m : matrix) : system :=
  (new_Model no_draws (MkOptions (Some 0%nat) None None) (store_of m)).2.

(** The page builds the array [[[0, 1], [0]]] next to a model: its rows
    are the row objects [6] and [7], the grid is the grid object [2]. *)
Definition with_jagged : system :=
  exec (NewGrid [6; 7]%nat)
    (exec (NewRow [b0]) (exec (NewRow [b0; b1]) (model_of blank))).

(** ** More of the code: the getter, the next generation, sample data *)

(** [get state()], lines 73-75. *)
Definition get_state (s : system) : loc := _data (this s).

(** The generation that the rule of [tick] assigns to [m], no cell
    flipped. *)
Definition step (R C : nat) (m : matrix) : matrix :=
  map (λ i, map (λ j, cell_rule m (Z.of_nat R - 1) (Z.of_nat C - 1)
                        (Z.of_nat i) (Z.of_nat j)) (seq 0 C)) (seq 0 R).

(** The grid whose cells all hold [b]. *)
Definition uniform (R C : nat) (b : Bit) : matrix := replicate R (replicate C b).

(** What [random] fills a grid of [R] rows and [C] columns with, [n0]
    draws having been made before. *)
Definition random_matrix (draws : nat → Q) (likelihood : Q) (n0 R C : nat) : matrix :=
  map (λ i, map (λ j, if Qltb (draws (n0 + i * C + j)%nat) likelihood then b1 else b0)
              (seq 0 C)) (seq 0 R).

(** The store with no object. *)
Definition empty_store : store := Store (Heap [] []) 0.

(** Two grids that share no row and whose own rows are distinct objects:
    either can be the output of a step from the other. *)
Definition separate (h : heap) (a b : loc) : Prop :=
  ∃ ra rb, h_grids h !! a = Some ra ∧ h_grids h !! b = Some rb ∧
           NoDup ra ∧ NoDup rb ∧ ∀ r, r ∈ ra → r ∈ rb → False.

(** A model that runs the default [tick] on two separate buffers of [R]
    rows and [C] columns, with one active interval [id] whose captured
    [swap] holds [sw]. *)
Definition ticking_model (draws : nat → Q) (id d : Z) (R C : nat) (sw : bool)
    (s : system) : Prop :=
  timers s = [Timer id d sw] ∧
  _tick (this s) = tick draws ∧
  separate (sys_heap s) (_data (this s)) (_swap (this s)) ∧
  shape (sys_heap s) (_data (this s)) = Some (replicate R C) ∧
  shape (sys_heap s) (_swap (this s)) = Some (replicate R C).

(** The delay [new Life.Model(options)] keeps: [options.interval || INTERVAL]. *)
Definition interval_of (options : IOptions) : Z :=
  match interval options with
  | Some 0 | None => INTERVAL
  | Some i => i
  end.

(** * Proofs *)

(** ** Arrays and the store *)

Lemma zlookup_of_nat {A} (l : list A) (x : nat) :
  zlookup l (Z.of_nat x) = l !! x.
Proof.
  unfold zlookup. rewrite Nat2Z.id.
  destruct (Z.leb_spec 0 (Z.of_nat x)); [done | lia].
Qed.

Lemma zlookup_Some {A} (l : list A) (z : Z) (a : A) :
  zlookup l z = Some a ↔ 0 ≤ z ∧ l !! Z.to_nat z = Some a.
Proof.
  unfold zlookup. destruct (Z.leb_spec 0 z); split; intros; try done.
  - destruct H0; done.
  - destruct H0; lia.
Qed.

Lemma zlookup_in_range {A} (l : list A) (z : Z) :
  0 ≤ z < zlength l → ∃ a, zlookup l z = Some a ∧ l !! Z.to_nat z = Some a.
Proof.
  unfold zlength. intros Hz.
  destruct (lookup_lt_is_Some_2 l (Z.to_nat z)) as [a Ha]; [lia |].
  exists a. split; [| done]. apply zlookup_Some. split; [lia | done].
Qed.

Lemma matrix_of_Some (h : heap) (a : loc) (m : matrix) :
  matrix_of h a = Some m ↔
  ∃ rs, h_grids h !! a = Some rs ∧ Forall2 (λ r row, h_rows h !! r = Some row) rs m.
Proof.
  unfold matrix_of. split.
  - intros H. destruct (h_grids h !! a) as [rs |] eqn:E; simpl in H; [| done].
    exists rs. split; [done |]. by apply mapM_Some.
  - intros (rs & -> & H). simpl. by apply mapM_Some.
Qed.

Lemma grid_row_matrix (h : heap) (a : loc) (m : matrix) (x : Z) :
  matrix_of h a = Some m →
  match zlookup m x with
  | Some row => ∃ r, grid_row h a x = Return (Some (r, row))
  | None => grid_row h a x = Return None
  end.
Proof.
  intros (rs & Hg & Hf)%matrix_of_Some. unfold grid_row. rewrite Hg.
  destruct (zlookup rs x) as [r |] eqn:E.
  - apply zlookup_Some in E as [Hx E].
    destruct (Forall2_lookup_l _ _ _ _ _ Hf E) as (row & Hm & Hr).
    replace (zlookup m x) with (Some row)
      by (symmetry; by apply zlookup_Some).
    exists r. by rewrite Hr.
  - replace (zlookup m x) with (@None (list Bit)); [done |].
    unfold zlookup in *. destruct (0 <=? x); [| done].
    apply lookup_ge_None in E. symmetry. apply lookup_ge_None.
    by rewrite <- (Forall2_length _ _ _ Hf).
Qed.

Lemma index2_matrix (h : heap) (a : loc) (m : matrix) (x y : Z) :
  matrix_of h a = Some m → 0 ≤ x < zlength m →
  index2 h a x y = Return (mread m x y).
Proof.
  intros Hm Hx. pose proof (grid_row_matrix h a m x Hm) as G.
  destruct (zlookup_in_range m x Hx) as (row & Hz & _).
  unfold index2, mread. rewrite Hz in *. destruct G as [r ->]. done.
Qed.

Lemma dec_range (i n : Z) :
  0 ≤ i < n → 0 ≤ (if i >=? 1 then i - 1 else n - 1) < n.
Proof. intros. destruct (Z.geb_spec i 1); lia. Qed.

Lemma inc_range (i n : Z) :
  0 ≤ i < n → 0 ≤ (if i + 1 <=? n - 1 then i + 1 else 0) < n.
Proof. intros. destruct (Z.leb_spec (i + 1) (n - 1)); lia. Qed.

Lemma array_set_in_range (cells : list Bit) (y : nat) (v : Bit) :
  (y < length cells)%nat →
  array_set cells (Z.of_nat y) v = Some (<[y := v]> cells).
Proof.
  intros Hy. unfold array_set, zlength. rewrite Nat2Z.id.
  destruct (Z.leb_spec 0 (Z.of_nat y)); [| lia].
  destruct (Z.ltb_spec (Z.of_nat y) (Z.of_nat (length cells))); [done | lia].
Qed.

(** ** One cell of [tick] *)

Section TickCell.

Context (draws : nat → Q) (fl : Q).
Context (input output : loc) (rin rout : list loc) (m : matrix) (R C : nat).
Hypothesis Hrect : rect R C m.

Lemma ticking_matrix (h : heap) :
  ticking input output rin rout m C h → matrix_of h input = Some m.
Proof. intros (Hi & _ & Hf & _). apply matrix_of_Some. eauto. Qed.

Lemma ticking_read (h : heap) (x y : Z) :
  ticking input output rin rout m C h → 0 ≤ x < Z.of_nat R →
  index2 h input x y = Return (mread m x y).
Proof.
  intros Ht Hx. apply index2_matrix; [by eapply ticking_matrix |].
  destruct Hrect as [<- _]. done.
Qed.

Lemma fluctuate_run (cell : Bit) (h : heap) (n : nat) :
  fluctuate draws fl cell (Store h n) =
  (Return (written draws fl n cell), Store h (n + draws_per_cell fl)).
Proof.
  unfold fluctuate, written, draws_per_cell.
  destruct (qtruthy fl); simpl.
  - unfold bind, Math_random, ret. simpl. do 2 f_equal. lia.
  - unfold ret. do 2 f_equal. lia.
Qed.

Lemma tick_cell_run (h : heap) (n x y : nat) (r : loc) (cells : list Bit) :
  ticking input output rin rout m C h →
  (x < R)%nat → (y < C)%nat →
  rout !! x = Some r → h_rows h !! r = Some cells → length cells = C →
  tick_cell draws input output fl (Z.of_nat R - 1) (Z.of_nat C - 1)
    (Z.of_nat x) (Z.of_nat y) (Store h n) =
  (Return tt,
   Store (set_rows h
            (<[r := <[y := written draws fl n
                             (cell_rule m (Z.of_nat R - 1) (Z.of_nat C - 1)
                                (Z.of_nat x) (Z.of_nat y))]> cells]> (h_rows h)))
         (n + draws_per_cell fl)).
Proof.
  intros Ht Hx Hy Hr Hc Hl.
  assert (Hread : ∀ x' y', 0 ≤ x' < Z.of_nat R →
            read_heap (λ h0, index2 h0 input x' y') (Store h n) =
            (Return (mread m x' y'), Store h n)).
  { intros. unfold read_heap, reads. simpl. by rewrite ticking_read. }
  pose proof (dec_range (Z.of_nat x) (Z.of_nat R) ltac:(lia)) as Hd.
  pose proof (inc_range (Z.of_nat x) (Z.of_nat R) ltac:(lia)) as Hi.
  unfold tick_cell. cbv zeta. unfold bind at 1.
  rewrite Hread by lia.
  do 8 (unfold bind at 1; rewrite Hread by (done || lia)).
  unfold bind at 1. rewrite fluctuate_run.
  unfold on_heap, assign2, grid_row. simpl.
  destruct Ht as (_ & -> & _ & _).
  rewrite zlookup_of_nat, Hr, Hc, array_set_in_range by lia. done.
Qed.

End TickCell.

(** ** The loops of [tick] *)

Lemma for_lt_of_nat {S} (n : nat) (body : Z → M S unit) :
  for_lt (Z.of_nat n) body = for_from 0 n body.
Proof. unfold for_lt. by rewrite Nat2Z.id. Qed.

Section TickLoops.

Context (draws : nat → Q) (fl : Q) (n0 : nat).
Context (input output : loc) (rin rout : list loc) (m : matrix) (R C : nat).
Hypothesis Hrect : rect R C m.
Hypothesis Hlen : length rout = R.
Hypothesis Hdistinct : NoDup rout.
Hypothesis Hapart : ∀ r, r ∈ rin → r ∈ rout → False.

Local Abbreviation ticking := (ticking input output rin rout m C).
Local Abbreviation dpc := (draws_per_cell fl).
Local Abbreviation body x :=
  (λ j, tick_cell draws input output fl (Z.of_nat R - 1) (Z.of_nat C - 1) x j).

Lemma ticking_insert (h : heap) (r : loc) (cells : list Bit) :
  ticking h → r ∈ rout → length cells = C →
  ticking (set_rows h (<[r := cells]> (h_rows h))).
Proof.
  intros (Hi & Ho & Hf & Hc) Hr Hl. repeat split; simpl; try done.
  - apply Forall2_same_length_lookup_2; [by eapply Forall2_length |].
    intros i r' row Hr' Hrow.
    rewrite list_lookup_insert_ne.
    + exact (Forall2_lookup_lr _ rin m i r' row Hf Hr' Hrow).
    + intros ->. eapply Hapart; [| done]. by eapply list_elem_of_lookup_2.
  - eapply Forall_impl; [apply Hc |]. simpl. intros r' (cs & Hcs & Hl').
    destruct (decide (r = r')) as [<- |].
    + exists cells. split; [| done]. apply list_lookup_insert_eq.
      by eapply lookup_lt_Some.
    + exists cs. by rewrite list_lookup_insert_ne.
Qed.

Lemma tick_row_run (x : nat) (r : loc) (d : nat) :
  ∀ (k : nat) (h : heap) (cells : list Bit),
  ticking h → (x < R)%nat → rout !! x = Some r →
  h_rows h !! r = Some cells → length cells = C → (k + d = C)%nat →
  ∃ cells',
    for_from (Z.of_nat k) d (body (Z.of_nat x))
      (Store h (n0 + dpc * (x * C + k))) =
    (Return tt,
     Store (set_rows h (<[r := cells']> (h_rows h))) (n0 + dpc * (x * C + C))) ∧
    length cells' = C ∧
    (∀ j, (j < k)%nat → cells' !! j = cells !! j) ∧
    (∀ j, (k ≤ j < C)%nat → cells' !! j = Some (out_cell draws fl n0 m R C x j)).
Proof.
  induction d as [| d IH]; intros k h cells Ht Hx Hr Hc Hl Hk.
  - exists cells. simpl. unfold ret. replace k with C by lia.
    rewrite list_insert_id by done. destruct h.
    repeat split; [done | lia].
  - simpl. unfold bind at 1.
    rewrite (tick_cell_run draws fl input output rin rout m R C Hrect
               h _ x k r cells) by (done || lia).
    set (v := written _ _ _ _).
    set (h1 := set_rows h _).
    assert (Hin : r ∈ rout) by (by eapply list_elem_of_lookup_2).
    assert (Hr1 : h_rows h1 !! r = Some (<[k := v]> cells)).
    { simpl. apply list_lookup_insert_eq. by eapply lookup_lt_Some. }
    destruct (IH (S k) h1 (<[k := v]> cells)) as (cells' & Hrun & Hl' & Hlo & Hhi);
      try done.
    { apply ticking_insert; [done .. |]. by rewrite length_insert. }
    { by rewrite length_insert. }
    { lia. }
    exists cells'. split; [| split; [done | split]].
    + replace (Z.of_nat k + 1) with (Z.of_nat (S k)) by lia.
      replace (n0 + dpc * (x * C + k) + dpc)%nat
        with (n0 + dpc * (x * C + S k))%nat by lia.
      rewrite Hrun. subst h1. unfold set_rows. simpl.
      by rewrite list_insert_insert_eq.
    + intros j Hj. rewrite Hlo by lia. apply list_lookup_insert_ne. lia.
    + intros j Hj. destruct (decide (j = k)) as [-> |].
      * rewrite Hlo by lia. rewrite list_lookup_insert_eq by lia. done.
      * apply Hhi. lia.
Qed.

Lemma tick_rows_run (d : nat) :
  ∀ (i : nat) (h : heap),
  ticking h → (i + d = R)%nat →
  ∃ h',
    for_from (Z.of_nat i) d (λ x, for_lt (Z.of_nat C) (body x))
      (Store h (n0 + dpc * (i * C))) =
    (Return tt, Store h' (n0 + dpc * (R * C))) ∧
    ticking h' ∧
    h_grids h' = h_grids h ∧
    length (h_rows h') = length (h_rows h) ∧
    (∀ r, r ∉ drop i rout → h_rows h' !! r = h_rows h !! r) ∧
    (∀ x r, (i ≤ x)%nat → rout !! x = Some r →
       h_rows h' !! r = Some (out_row draws fl n0 m R C x)).
Proof.
  induction d as [| d IH]; intros i h Ht Hi.
  - exists h. simpl. unfold ret. replace i with R by lia.
    split; [done |]. split; [done |]. repeat split; try done.
    intros x r Hx Hr. apply lookup_lt_Some in Hr. lia.
  - simpl. unfold bind at 1.
    destruct (lookup_lt_is_Some_2 rout i) as [r Hr]; [lia |].
    assert (Hin : r ∈ rout) by (by eapply list_elem_of_lookup_2).
    destruct Ht as (Hgi & Hgo & Hf & Hc).
    destruct (proj1 (Forall_forall _ _) Hc r Hin) as (cells & Hcells & Hl).
    destruct (tick_row_run i r C 0%nat h cells) as (cells' & Hrun & Hl' & _ & Hnew);
      try done; try lia.
    rewrite for_lt_of_nat. change (Z.of_nat 0) with 0 in Hrun.
    replace (i * C + 0)%nat with (i * C)%nat in Hrun by lia.
    rewrite Hrun. set (h1 := set_rows h _).
    destruct (IH (S i) h1) as (h' & Hrun' & Ht' & Hg' & Hlen' & Hout & Hrows).
    { apply ticking_insert; done. }
    { lia. }
    assert (Hcells' : cells' = out_row draws fl n0 m R C i).
    { apply list_eq. intros j. unfold out_row.
      destruct (decide (j < C)%nat).
      - rewrite Hnew by lia. rewrite list_lookup_fmap, lookup_seq_lt by done. done.
      - rewrite !lookup_ge_None_2; [done | |]; rewrite ?length_map, ?length_seq; lia. }
    assert (Hfresh : r ∉ drop (S i) rout).
    { intros (j & Hj)%list_elem_of_lookup_1. rewrite lookup_drop in Hj.
      pose proof (NoDup_lookup _ _ _ _ Hdistinct Hr Hj). lia. }
    exists h'. split; [| split; [done | split; [done | split; [| split]]]].
    + replace (Z.of_nat i + 1) with (Z.of_nat (S i)) by lia.
      replace (n0 + dpc * (i * C + C))%nat with (n0 + dpc * (S i * C))%nat by lia.
      done.
    + rewrite Hlen'. simpl. by rewrite length_insert.
    + intros r' Hr'. rewrite Hout.
      * simpl. apply list_lookup_insert_ne. intros <-. apply Hr'.
        apply list_elem_of_lookup_2 with 0%nat. rewrite lookup_drop.
        by rewrite Nat.add_0_r.
      * intros Hd. apply Hr'. rewrite (drop_S _ r i Hr). by right.
    + intros x r' Hx Hr'. destruct (decide (x = i)) as [-> |].
      * assert (r' = r) as -> by congruence.
        rewrite Hout by done. simpl. rewrite list_lookup_insert_eq; [by subst |].
        by eapply lookup_lt_Some.
      * apply Hrows; [lia | done].
Qed.

End TickLoops.

(** ** [tick] on two separate buffers *)

Lemma rect_lookup (R C : nat) (m : matrix) (x : nat) (row : list Bit) :
  rect R C m → m !! x = Some row → length row = C.
Proof.
  intros [_ Hf] Hx. eapply (proj1 (Forall_forall _ _) Hf).
  by eapply list_elem_of_lookup_2.
Qed.

Lemma tick_run (draws : nat → Q) (fluctuation : option Q) (h : heap) (n0 : nat)
    (input output : loc) (m : matrix) (R C : nat) :
  let fl := default 0%Q fluctuation in
  buffers h input output m R C → (1 ≤ R)%nat →
  ∃ h',
    tick draws input output fluctuation (Store h n0) =
    (Return tt, Store h' (n0 + draws_per_cell fl * (R * C))) ∧
    h_grids h' = h_grids h ∧
    length (h_rows h') = length (h_rows h) ∧
    matrix_of h' input = Some m ∧
    matrix_of h' output = Some (next_generation draws fl n0 m R C) ∧
    (∀ rout r, h_grids h !! output = Some rout → r ∉ rout →
       h_rows h' !! r = h_rows h !! r).
Proof.
  intros fl [Hin Hrect (m' & Hout & Hrect') (rout & Hgo & Hnd) Hapart] HR.
  apply matrix_of_Some in Hin as (rin & Hgi & Hfi).
  apply matrix_of_Some in Hout as (rout' & Hgo' & Hfo).
  assert (rout' = rout) as -> by congruence.
  assert (Hlen : length rout = R).
  { rewrite (Forall2_length _ _ _ Hfo). apply Hrect'. }
  assert (Ht : ticking input output rin rout m C h).
  { repeat split; try done. apply Forall_forall. intros r Hr.
    apply list_elem_of_lookup_1 in Hr as [x Hx].
    destruct (Forall2_lookup_l _ _ _ _ _ Hfo Hx) as (row & Hrow & Hr).
    exists row. split; [done |]. by eapply rect_lookup. }
  destruct (tick_rows_run draws fl n0 input output rin rout m R C
              Hrect Hlen Hnd (λ r Hi Ho, Hapart rin rout r Hgi Hgo Hi Ho)
              R 0%nat h Ht eq_refl)
    as (h' & Hrun & Ht' & Hg & Hl & Hother & Hrows).
  exists h'. split; [| split; [done | split; [done | split; [| split]]]].
  - unfold tick. fold fl. unfold bind at 1, read_heap at 1, reads, grid_length.
    simpl. rewrite Hgi.
    unfold bind at 1, read_heap at 1, reads, row_length, grid_row. simpl.
    rewrite Hgi.
    destruct (lookup_lt_is_Some_2 rin 0%nat) as [r0 Hr0].
    { rewrite (Forall2_length _ _ _ Hfi). destruct Hrect as [-> _]. lia. }
    destruct (Forall2_lookup_l _ _ _ _ _ Hfi Hr0) as (row0 & Hrow0 & Hrr0).
    change (zlookup rin 0) with (rin !! 0%nat). rewrite Hr0, Hrr0.
    replace (zlength rin) with (Z.of_nat R).
    2:{ unfold zlength. rewrite (Forall2_length _ _ _ Hfi).
        by destruct Hrect as [-> _]. }
    replace (zlength row0) with (Z.of_nat C).
    2:{ unfold zlength. by rewrite (rect_lookup R C m 0 row0 Hrect Hrow0). }
    rewrite for_lt_of_nat.
    replace (n0 + draws_per_cell fl * (0 * C))%nat with n0 in Hrun by lia.
    exact Hrun.
  - by eapply ticking_matrix.
  - apply matrix_of_Some. exists rout. split; [by rewrite Hg |].
    apply Forall2_same_length_lookup_2.
    { unfold next_generation. by rewrite length_map, length_seq. }
    intros x r row Hr Hrow. rewrite (Hrows x r ltac:(lia) Hr). f_equal.
    unfold next_generation in Hrow. rewrite list_lookup_fmap in Hrow.
    rewrite lookup_seq_lt in Hrow; [by inversion Hrow |].
    apply lookup_lt_Some in Hr. lia.
  - intros rout' r Hgo'' Hr. assert (rout' = rout) as -> by congruence.
    apply Hother. by rewrite drop_0.
Qed.

(** The separation of the two buffers matters: handed one array as both
    [input] and [output], [tick] reads cells it has already overwritten.
    On the single row [[1, 1, 0]] it leaves [[0, 1, 1]], where the next
    generation is [[0, 0, 0]]. *)
Remark tick_in_place_reads_its_own_writes :
  let st' := (tick no_draws 0%nat 0%nat None (store_of [[b1; b1; b0]])).2 in
  matrix_of (st_heap st') 0%nat = Some [[b0; b1; b1]] ∧
  next_generation no_draws 0 0 [[b1; b1; b0]] 1 3 = [[b0; b0; b0]].
Proof. split; reflexivity. Qed.

Lemma mread_in_range (R C : nat) (m : matrix) (x y : Z) :
  rect R C m → 0 ≤ x < Z.of_nat R → 0 ≤ y < Z.of_nat C →
  ∃ b, mread m x y = VBit b ∧ cell_at m x y = bit_num b.
Proof.
  intros Hrect Hx Hy. unfold cell_at, mread.
  destruct (zlookup_in_range m x) as (row & -> & Hrow).
  { unfold zlength. by destruct Hrect as [-> _]. }
  destruct (zlookup_in_range row y) as (b & -> & _).
  { unfold zlength. by rewrite (rect_lookup R C m _ row Hrect Hrow). }
  by exists b.
Qed.

Lemma mread_next_generation (draws : nat → Q) (fl : Q) (n0 : nat) (m : matrix)
    (R C i j : nat) :
  (i < R)%nat → (j < C)%nat →
  mread (next_generation draws fl n0 m R C) (Z.of_nat i) (Z.of_nat j) =
  VBit (out_cell draws fl n0 m R C i j).
Proof.
  intros Hi Hj. unfold mread, next_generation, out_row.
  rewrite zlookup_of_nat, list_lookup_fmap, lookup_seq_lt by done. simpl.
  by rewrite zlookup_of_nat, list_lookup_fmap, lookup_seq_lt.
Qed.

Lemma next_generation_rect (draws : nat → Q) (fl : Q) (n0 : nat) (m : matrix)
    (R C : nat) :
  rect R C (next_generation draws fl n0 m R C).
Proof.
  split.
  - unfold next_generation. by rewrite length_map, length_seq.
  - apply Forall_forall. intros row (i & -> & _)%list_elem_of_fmap_1.
    unfold out_row. by rewrite length_map, length_seq.
Qed.

Lemma qtruthy_zero (q : Q) : (q == 0)%Q → qtruthy q = false.
Proof. intros H. unfold qtruthy. by rewrite (proj2 (Qeq_bool_iff q 0) H). Qed.

Lemma dec_wraps (i n : Z) :
  0 ≤ i < n → (if i >=? 1 then i - 1 else n - 1) = (i - 1) mod n.
Proof.
  intros. destruct (Z.geb_spec i 1).
  - by rewrite Z.mod_small by lia.
  - replace (i - 1) with (-1) by lia.
    apply (Z.mod_unique_pos _ _ (-1)); lia.
Qed.

Lemma inc_wraps (i n : Z) :
  0 ≤ i < n → (if i + 1 <=? n - 1 then i + 1 else 0) = (i + 1) mod n.
Proof.
  intros. destruct (Z.leb_spec (i + 1) (n - 1)).
  - by rewrite Z.mod_small by lia.
  - replace (i + 1) with n by lia. by rewrite Z.mod_same by lia.
Qed.

(** The tests of lines 254-257 decide the canonical rule. *)
Lemma rule_canonical (b : Bit) (n : Z) :
  rule (VBit b) (Num n) = b1 ↔
  (bit_num b = 1 ∧ (n = 2 ∨ n = 3)) ∨ (bit_num b = 0 ∧ n = 3).
Proof.
  unfold rule, nlt, neq, ngt.
  destruct b; simpl;
    destruct (Z.ltb_spec n 2); destruct (Z.eqb_spec n 2);
    destruct (Z.eqb_spec n 3); destruct (Z.gtb_spec n 3); simpl;
    split; intros; try done; try lia; auto.
Qed.

Lemma cell_rule_conway (m : matrix) (R C i j : nat) :
  rect R C m → (i < R)%nat → (j < C)%nat →
  cell_rule m (Z.of_nat R - 1) (Z.of_nat C - 1) (Z.of_nat i) (Z.of_nat j) = b1 ↔
  conway_alive m (Z.of_nat R) (Z.of_nat C) (Z.of_nat i) (Z.of_nat j).
Proof.
  intros Hrect Hi Hj.
  unfold cell_rule, conway_alive, toroidal_neighbors. cbv zeta.
  rewrite <- !dec_wraps, <- !inc_wraps by lia.
  pose proof (dec_range (Z.of_nat i) (Z.of_nat R) ltac:(lia)) as Hdx.
  pose proof (inc_range (Z.of_nat i) (Z.of_nat R) ltac:(lia)) as Hix.
  pose proof (dec_range (Z.of_nat j) (Z.of_nat C) ltac:(lia)) as Hdy.
  pose proof (inc_range (Z.of_nat j) (Z.of_nat C) ltac:(lia)) as Hiy.
  set (decX := if Z.of_nat i >=? 1 then _ else _) in *.
  set (incX := if Z.of_nat i + 1 <=? _ then _ else _) in *.
  set (decY := if Z.of_nat j >=? 1 then _ else _) in *.
  set (incY := if Z.of_nat j + 1 <=? _ then _ else _) in *.
  destruct (mread_in_range R C m (Z.of_nat i) (Z.of_nat j) Hrect) as (b & -> & ->);
    [lia .. |].
  destruct (mread_in_range R C m decX decY Hrect) as (c1 & -> & ->); [lia .. |].
  destruct (mread_in_range R C m (Z.of_nat i) decY Hrect) as (c2 & -> & ->); [lia .. |].
  destruct (mread_in_range R C m incX decY Hrect) as (c3 & -> & ->); [lia .. |].
  destruct (mread_in_range R C m decX (Z.of_nat j) Hrect) as (c4 & -> & ->); [lia .. |].
  destruct (mread_in_range R C m incX (Z.of_nat j) Hrect) as (c5 & -> & ->); [lia .. |].
  destruct (mread_in_range R C m decX incY Hrect) as (c6 & -> & ->); [lia .. |].
  destruct (mread_in_range R C m (Z.of_nat i) incY Hrect) as (c7 & -> & ->); [lia .. |].
  destruct (mread_in_range R C m incX incY Hrect) as (c8 & -> & ->); [lia .. |].
  simpl to_number. unfold nadd. rewrite rule_canonical. 
  replace (bit_num c1 + bit_num c4 + bit_num c6 + bit_num c2 + bit_num c7 +
           bit_num c3 + bit_num c5 + bit_num c8)
    with (bit_num c1 + bit_num c2 + bit_num c3 + bit_num c4 + bit_num c5 +
          bit_num c6 + bit_num c7 + bit_num c8) by lia.
  done.
Qed.

Lemma buffers_intro (h : heap) (input output : loc) (rin rout : list loc)
    (m m' : matrix) (R C : nat) :
  h_grids h !! input = Some rin → h_grids h !! output = Some rout →
  mapM (λ r, h_rows h !! r) rin = Some m →
  mapM (λ r, h_rows h !! r) rout = Some m' →
  map length m = replicate R C → map length m' = replicate R C →
  NoDup rout → Forall (λ r, r ∉ rout) rin →
  buffers h input output m R C.
Proof.
  intros Hgi Hgo Hm Hm' Hs Hs' Hnd Hap.
  assert (Hrect : ∀ k : matrix, map length k = replicate R C → rect R C k).
  { intros k Hk. split.
    - by rewrite <- (length_map length), Hk, length_replicate.
    - apply Forall_forall. intros row Hrow.
      assert (Hin : length row ∈ map length k) by (by apply list_elem_of_fmap_2).
      rewrite Hk in Hin. by apply elem_of_replicate in Hin as [? _]. }
  split.
  - unfold matrix_of. by rewrite Hgi.
  - by apply Hrect.
  - exists m'. split; [| by apply Hrect]. unfold matrix_of. by rewrite Hgo.
  - by exists rout.
  - intros rin' rout' r Hi Ho Hr Hr'.
    assert (rin' = rin) as -> by congruence.
    assert (rout' = rout) as -> by congruence.
    by apply (proj1 (Forall_forall _ _) Hap r Hr).
Qed.

Lemma cell_at_bit (m : matrix) (i j : Z) : 0 ≤ cell_at m i j ≤ 1.
Proof. unfold cell_at. destruct (mread m i j) as [| []]; simpl; lia. Qed.

Lemma index2_next_generation (draws : nat → Q) (fl : Q) (n0 : nat) (h : heap)
    (a : loc) (m : matrix) (R C i j : nat) :
  matrix_of h a = Some (next_generation draws fl n0 m R C) →
  (i < R)%nat → (j < C)%nat →
  index2 h a (Z.of_nat i) (Z.of_nat j) =
  Return (VBit (out_cell draws fl n0 m R C i j)).
Proof.
  intros Hm Hi Hj. rewrite (index2_matrix _ _ _ _ _ Hm).
  - by rewrite mread_next_generation.
  - unfold zlength, next_generation. rewrite length_map, length_seq. lia.
Qed.

(** ** The step function *)

(** C1. On an input generation of [R] rows and [C] columns ([R], [C] at
    least one) and a separate output buffer of the same dimensions,
    [tick] with fluctuation zero (omitted, or given as zero) returns, and
    the value it has written to [output[i][j]] is alive exactly when the
    canonical rule says so: the input cell is alive with two or three
    live neighbours, or dead with exactly three, neighbours being reached
    by wrapping indices modulo [R] and [C]. In particular a live cell at
    [(R-1, C-1)] is counted among the neighbours of [(0, 0)]. *)
Theorem tick_is_toroidal_conway (draws : nat → Q) (fluctuation : option Q)
    (h : heap) (n0 : nat) (input output : loc) (m : matrix) (R C : nat) :
  (default 0 fluctuation == 0)%Q → (1 ≤ R)%nat → (1 ≤ C)%nat →
  buffers h input output m R C →
  ∃ h',
    tick draws input output fluctuation (Store h n0) = (Return tt, Store h' n0) ∧
    (∀ i j, (i < R)%nat → (j < C)%nat →
       ∃ b, index2 h' output (Z.of_nat i) (Z.of_nat j) = Return (VBit b) ∧
            (b = b1 ↔
             conway_alive m (Z.of_nat R) (Z.of_nat C) (Z.of_nat i) (Z.of_nat j))) ∧
    (cell_at m (Z.of_nat R - 1) (Z.of_nat C - 1) = 1 →
     1 ≤ toroidal_neighbors m (Z.of_nat R) (Z.of_nat C) 0 0).
Proof.
  intros Hfl HR HC Hb.
  destruct (tick_run draws fluctuation h n0 input output m R C Hb HR)
    as (h' & Hrun & _ & _ & _ & Hout & _).
  pose proof (qtruthy_zero _ Hfl) as Hq.
  exists h'. split; [| split].
  - rewrite Hrun. unfold draws_per_cell. rewrite Hq. do 2 f_equal. lia.
  - intros i j Hi Hj. eexists. split.
    + by apply (index2_next_generation _ _ _ _ _ _ _ _ _ _ Hout).
    + unfold out_cell, written. rewrite Hq.
      apply cell_rule_conway; [apply Hb | done | done].
  - intros Hlive. unfold toroidal_neighbors.
    replace ((0 - 1) mod Z.of_nat R) with (Z.of_nat R - 1)
      by (rewrite <- (dec_wraps 0) by lia; done).
    replace ((0 - 1) mod Z.of_nat C) with (Z.of_nat C - 1)
      by (rewrite <- (dec_wraps 0) by lia; done).
    rewrite Hlive.
    pose proof (cell_at_bit m (Z.of_nat R - 1) 0).
    pose proof (cell_at_bit m (Z.of_nat R - 1) ((0 + 1) mod Z.of_nat C)).
    pose proof (cell_at_bit m 0 (Z.of_nat C - 1)).
    pose proof (cell_at_bit m 0 ((0 + 1) mod Z.of_nat C)).
    pose proof (cell_at_bit m ((0 + 1) mod Z.of_nat R) (Z.of_nat C - 1)).
    pose proof (cell_at_bit m ((0 + 1) mod Z.of_nat R) 0).
    pose proof (cell_at_bit m ((0 + 1) mod Z.of_nat R) ((0 + 1) mod Z.of_nat C)).
    lia.
Qed.

Lemma sample_buffers :
  buffers (st_heap (store_of2 diagonal blank)) 0%nat 1%nat diagonal 3 3.
Proof.
  apply (buffers_intro _ 0%nat 1%nat [0; 1; 2]%nat [3; 4; 5]%nat diagonal blank);
    try reflexivity.
  - refine (bool_decide_unpack _ _). vm_compute. exact I.
  - refine (bool_decide_unpack _ _). vm_compute. exact I.
Defined.

Lemma tick_is_toroidal_conway_witness :
  ∃ h',
    tick no_draws 0%nat 1%nat None (store_of2 diagonal blank) =
    (Return tt, Store h' 0) ∧
    (∀ i j, (i < 3)%nat → (j < 3)%nat →
       ∃ b, index2 h' 1%nat (Z.of_nat i) (Z.of_nat j) = Return (VBit b) ∧
            (b = b1 ↔ conway_alive diagonal 3 3 (Z.of_nat i) (Z.of_nat j))) ∧
    (cell_at diagonal (3 - 1) (3 - 1) = 1 →
     1 ≤ toroidal_neighbors diagonal 3 3 0 0).
Proof.
  apply (tick_is_toroidal_conway no_draws None
           (st_heap (store_of2 diagonal blank)) 0 0 1 diagonal 3 3)%nat.
  - reflexivity.
  - lia.
  - lia.
  - exact sample_buffers.
Defined.

Lemma written_full (draws : nat → Q) (n : nat) (cell : Bit) :
  (draws n < 1)%Q → written draws 1 n cell = flip cell.
Proof.
  intros Hd. unfold written, Qltb. simpl.
  destruct (Qle_bool 1 (draws n)) eqn:E; [| done].
  apply Qle_bool_iff in E. by apply Qlt_not_le in Hd.
Qed.

Lemma complement_differs (b : Bit) :
  flip b ≠ b ∧ bit_num (flip b) = 1 - bit_num b.
Proof. by destruct b. Qed.

(** C8. On an input generation and a separate output buffer of the same
    dimensions, when every draw is below one (so that with fluctuation
    [1.0] every draw triggers), the generation [tick] writes with
    fluctuation [1.0] is, cell by cell, the complement of the one it
    writes with fluctuation [0] from the same store: both runs return,
    both outputs hold a generation of the input's dimensions, and at
    every position the two outputs read different bits, the one being
    one minus the other. *)
Theorem full_fluctuation_complements (draws : nat → Q) (h : heap) (n0 : nat)
    (input output : loc) (m : matrix) (R C : nat) :
  (∀ n, (draws n < 1)%Q) → (1 ≤ R)%nat → (1 ≤ C)%nat →
  buffers h input output m R C →
  ∃ h0 h1 n1 g0 g1,
    tick draws input output (Some 0%Q) (Store h n0) = (Return tt, Store h0 n0) ∧
    tick draws input output (Some 1%Q) (Store h n0) = (Return tt, Store h1 n1) ∧
    matrix_of h0 output = Some g0 ∧ rect R C g0 ∧
    matrix_of h1 output = Some g1 ∧ rect R C g1 ∧
    ∀ i j, (i < R)%nat → (j < C)%nat →
      ∃ b b',
        index2 h0 output (Z.of_nat i) (Z.of_nat j) = Return (VBit b) ∧
        index2 h1 output (Z.of_nat i) (Z.of_nat j) = Return (VBit b') ∧
        b' ≠ b ∧ bit_num b' = 1 - bit_num b.
Proof.
  intros Hd HR HC Hb.
  destruct (tick_run draws (Some 0%Q) h n0 input output m R C Hb HR)
    as (h0 & Hrun0 & _ & _ & _ & Hout0 & _).
  destruct (tick_run draws (Some 1%Q) h n0 input output m R C Hb HR)
    as (h1 & Hrun1 & _ & _ & _ & Hout1 & _).
  simpl in *.
  exists h0, h1, (n0 + draws_per_cell 1 * (R * C))%nat,
    (next_generation draws 0 n0 m R C), (next_generation draws 1 n0 m R C).
  split; [| split; [done | split; [done | split; [| split; [done | split]]]]].
  - rewrite Hrun0. do 2 f_equal. change (draws_per_cell 0) with 0%nat. lia.
  - apply next_generation_rect.
  - apply next_generation_rect.
  - intros i j Hi Hj.
    exists (out_cell draws 0 n0 m R C i j), (out_cell draws 1 n0 m R C i j).
    split; [by apply index2_next_generation |].
    split; [by apply index2_next_generation |].
    unfold out_cell. rewrite written_full by done.
    change (written draws 0 ?n ?c) with c. apply complement_differs.
Qed.

Lemma full_fluctuation_complements_witness :
  ∃ h0 h1 n1 g0 g1,
    tick no_draws 0%nat 1%nat (Some 0%Q) (store_of2 diagonal blank) =
    (Return tt, Store h0 0) ∧
    tick no_draws 0%nat 1%nat (Some 1%Q) (store_of2 diagonal blank) =
    (Return tt, Store h1 n1) ∧
    matrix_of h0 1%nat = Some g0 ∧ rect 3 3 g0 ∧
    matrix_of h1 1%nat = Some g1 ∧ rect 3 3 g1 ∧
    ∀ i j, (i < 3)%nat → (j < 3)%nat →
      ∃ b b',
        index2 h0 1%nat (Z.of_nat i) (Z.of_nat j) = Return (VBit b) ∧
        index2 h1 1%nat (Z.of_nat i) (Z.of_nat j) = Return (VBit b') ∧
        b' ≠ b ∧ bit_num b' = 1 - bit_num b.
Proof.
  apply (full_fluctuation_complements no_draws
           (st_heap (store_of2 diagonal blank)) 0 0 1 diagonal 3 3)%nat.
  - intros n. reflexivity.
  - lia.
  - lia.
  - exact sample_buffers.
Defined.

(** C9. On two separate non-empty rectangular buffers of the same
    dimensions, for every fluctuation between zero and one, [tick]
    returns with every cell of the output written (the output holds the
    generation computed from the input and the draws, whatever it held
    before) and every cell of the input as it was: the rows of the input
    are untouched, as is every array object that is not a row of the
    output. *)
Theorem tick_populates_output_and_keeps_input (draws : nat → Q) (fl : Q)
    (h : heap) (n0 : nat) (input output : loc) (m : matrix) (R C : nat) :
  (0 <= fl)%Q → (fl <= 1)%Q → (1 ≤ R)%nat → (1 ≤ C)%nat →
  buffers h input output m R C →
  ∃ h' n',
    tick draws input output (Some fl) (Store h n0) = (Return tt, Store h' n') ∧
    matrix_of h' output = Some (next_generation draws fl n0 m R C) ∧
    (∀ i j, (i < R)%nat → (j < C)%nat →
       index2 h' output (Z.of_nat i) (Z.of_nat j) =
       Return (VBit (out_cell draws fl n0 m R C i j))) ∧
    matrix_of h' input = Some m ∧
    h_grids h' = h_grids h ∧
    (∀ rin r, h_grids h !! input = Some rin → r ∈ rin →
       h_rows h' !! r = h_rows h !! r) ∧
    (∀ rout r, h_grids h !! output = Some rout → r ∉ rout →
       h_rows h' !! r = h_rows h !! r).
Proof.
  intros _ _ HR HC Hb.
  destruct (tick_run draws (Some fl) h n0 input output m R C Hb HR)
    as (h' & Hrun & Hg & _ & Hin & Hout & Hother).
  simpl in *. eexists h', _. split; [exact Hrun |].
  split; [done |]. split; [| split; [done | split; [done | split; [| done]]]].
  - intros i j Hi Hj. by apply (index2_next_generation _ _ _ _ _ _ _ _ _ _ Hout).
  - intros rin r Hgi Hr.
    destruct (buf_distinct _ _ _ _ _ _ Hb) as (rout & Hgo & _).
    apply (Hother rout r Hgo). intros Hr'.
    exact (buf_apart _ _ _ _ _ _ Hb rin rout r Hgi Hgo Hr Hr').
Qed.

Lemma tick_populates_output_and_keeps_input_witness :
  ∃ h' n',
    tick no_draws 0%nat 1%nat (Some (1 # 2)) (store_of2 diagonal blank) =
    (Return tt, Store h' n') ∧
    matrix_of h' 1%nat = Some (next_generation no_draws (1 # 2) 0 diagonal 3 3) ∧
    (∀ i j, (i < 3)%nat → (j < 3)%nat →
       index2 h' 1%nat (Z.of_nat i) (Z.of_nat j) =
       Return (VBit (out_cell no_draws (1 # 2) 0 diagonal 3 3 i j))) ∧
    matrix_of h' 0%nat = Some diagonal ∧
    h_grids h' = h_grids (st_heap (store_of2 diagonal blank)) ∧
    (∀ rin r, h_grids (st_heap (store_of2 diagonal blank)) !! 0%nat = Some rin →
       r ∈ rin →
       h_rows h' !! r = h_rows (st_heap (store_of2 diagonal blank)) !! r) ∧
    (∀ rout r, h_grids (st_heap (store_of2 diagonal blank)) !! 1%nat = Some rout →
       r ∉ rout →
       h_rows h' !! r = h_rows (st_heap (store_of2 diagonal blank)) !! r).
Proof.
  apply (tick_populates_output_and_keeps_input no_draws (1 # 2)
           (st_heap (store_of2 diagonal blank)) 0 0 1 diagonal 3 3)%nat.
  - vm_compute. discriminate.
  - vm_compute. discriminate.
  - lia.
  - lia.
  - exact sample_buffers.
Defined.

(** ** No fluctuation, no randomness *)

Lemma bind_ext {S A B} (m : M S A) (k1 k2 : A → M S B) (s : S) :
  (∀ a s', k1 a s' = k2 a s') → bind m k1 s = bind m k2 s.
Proof. intros H. unfold bind. destruct (m s) as [[a | e |] s']; auto. Qed.

Lemma for_from_ext {S} (body1 body2 : Z → M S unit) (n : nat) :
  (∀ k s, body1 k s = body2 k s) →
  ∀ k s, for_from k n body1 s = for_from k n body2 s.
Proof.
  intros H. induction n as [| n IH]; intros k s; simpl; [done |].
  unfold bind. rewrite H. destruct (body2 k s) as [[a | e |] s']; auto.
Qed.

Lemma quiet_ret {A} (a : A) : quiet (ret a).
Proof. done. Qed.

Lemma quiet_read_heap {A} (f : heap → outcome A) : quiet (read_heap f).
Proof. done. Qed.

Lemma quiet_on_heap {A} (m : M heap A) : quiet (on_heap m).
Proof. intros s. unfold on_heap. by destruct (m (st_heap s)). Qed.

Lemma quiet_bind {A B} (m : M store A) (k : A → M store B) :
  quiet m → (∀ a, quiet (k a)) → quiet (bind m k).
Proof.
  intros Hm Hk s. unfold bind. specialize (Hm s).
  destruct (m s) as [[a | e |] s']; simpl in *; try done.
  by rewrite Hk.
Qed.

Lemma quiet_for_from (body : Z → M store unit) (n : nat) :
  (∀ k, quiet (body k)) → ∀ k, quiet (for_from k n body).
Proof.
  intros H. induction n as [| n IH]; intros k; simpl.
  - apply quiet_ret.
  - apply quiet_bind; auto.
Qed.

Lemma fluctuate_off (draws : nat → Q) (fl : Q) (cell : Bit) :
  qtruthy fl = false → fluctuate draws fl cell = ret cell.
Proof. intros H. unfold fluctuate. by rewrite H. Qed.

Lemma tick_cell_quiet (draws : nat → Q) (fl : Q) (input output : loc)
    (lastRow lastCol i j : Z) :
  qtruthy fl = false →
  quiet (tick_cell draws input output fl lastRow lastCol i j).
Proof.
  intros H. unfold tick_cell.
  repeat (apply quiet_bind; [apply quiet_read_heap | intros ?]).
  apply quiet_bind; [| intros ?; apply quiet_on_heap].
  rewrite fluctuate_off by done. apply quiet_ret.
Qed.

Lemma tick_cell_same (d1 d2 : nat → Q) (fl : Q) (input output : loc)
    (lastRow lastCol i j : Z) (s : store) :
  qtruthy fl = false →
  tick_cell d1 input output fl lastRow lastCol i j s =
  tick_cell d2 input output fl lastRow lastCol i j s.
Proof.
  intros H. unfold tick_cell.
  do 9 (apply bind_ext; intros ? ?).
  by rewrite !fluctuate_off.
Qed.

Lemma next_generation_quiet (d1 d2 : nat → Q) (fl : Q) (n1 n2 : nat)
    (m : list (list Bit)) (R C : nat) :
  qtruthy fl = false →
  next_generation d1 fl n1 m R C = next_generation d2 fl n2 m R C.
Proof.
  intros H. unfold next_generation, out_row, out_cell, written. by rewrite H.
Qed.

(** C10. With fluctuation zero, or omitted as the interval callback
    omits it, [tick] makes no draw: the count of calls to [Math.random]
    is what it was, and whatever the random source would have produced,
    the run from a given store has the same outcome and leaves the same
    store, output buffer included. And two runs on input buffers that
    hold the same generation write the same generation to their output
    buffers. *)
Theorem tick_without_fluctuation_is_deterministic (d1 d2 : nat → Q)
    (fluctuation : option Q) :
  (default 0 fluctuation == 0)%Q →
  (∀ input output s,
     tick d1 input output fluctuation s = tick d2 input output fluctuation s ∧
     st_draws (tick d1 input output fluctuation s).2 = st_draws s) ∧
  (∀ h1 h2 n1 n2 input1 output1 input2 output2 m R C,
     (1 ≤ R)%nat →
     buffers h1 input1 output1 m R C → buffers h2 input2 output2 m R C →
     matrix_of (st_heap (tick d1 input1 output1 fluctuation (Store h1 n1)).2) output1 =
     matrix_of (st_heap (tick d2 input2 output2 fluctuation (Store h2 n2)).2) output2).
Proof.
  intros Hfl. apply qtruthy_zero in Hfl. split.
  - intros input output s. split.
    + unfold tick. do 2 (apply bind_ext; intros ? ?).
      unfold for_lt. apply for_from_ext. intros k s1.
      apply for_from_ext. intros k' s2. by apply tick_cell_same.
    + revert s. change (quiet (tick d1 input output fluctuation)).
      unfold tick.
      do 2 (apply quiet_bind; [apply quiet_read_heap | intros ?]).
      unfold for_lt. apply quiet_for_from. intros k.
      apply quiet_for_from. intros k'. by apply tick_cell_quiet.
  - intros h1 h2 n1 n2 input1 output1 input2 output2 m R C HR Hb1 Hb2.
    destruct (tick_run d1 fluctuation h1 n1 input1 output1 m R C Hb1 HR)
      as (h1' & -> & _ & _ & _ & Hout1 & _).
    destruct (tick_run d2 fluctuation h2 n2 input2 output2 m R C Hb2 HR)
      as (h2' & -> & _ & _ & _ & Hout2 & _).
    simpl. rewrite Hout1, Hout2. f_equal. by apply next_generation_quiet.
Qed.

Lemma tick_without_fluctuation_is_deterministic_witness :
  (∀ input output s,
     tick no_draws input output None s = tick (λ n, 1 # 3) input output None s ∧
     st_draws (tick no_draws input output None s).2 = st_draws s) ∧
  (∀ h1 h2 n1 n2 input1 output1 input2 output2 m R C,
     (1 ≤ R)%nat →
     buffers h1 input1 output1 m R C → buffers h2 input2 output2 m R C →
     matrix_of (st_heap (tick no_draws input1 output1 None (Store h1 n1)).2) output1 =
     matrix_of (st_heap (tick (λ n, 1 # 3) input2 output2 None (Store h2 n2)).2) output2).
Proof.
  apply (tick_without_fluctuation_is_deterministic no_draws (λ n, 1 # 3) None).
  reflexivity.
Defined.

(** ** The store under allocation *)

Lemma parse_rows_spec (m : matrix) :
  ∀ h, parse_rows h m =
       (Heap (h_rows h ++ m) (h_grids h), seq (length (h_rows h)) (length m)).
Proof.
  induction m as [| cells m IH]; intros h; simpl.
  - rewrite app_nil_r. by destruct h.
  - rewrite IH. simpl. rewrite <- app_assoc. simpl.
    rewrite length_app. simpl. do 3 f_equal. lia.
Qed.

Lemma matrix_of_extend (h : heap) (a : loc) (m : matrix)
    (rows' : list (list Bit)) (grids' : list (list loc)) :
  matrix_of h a = Some m →
  matrix_of (Heap (h_rows h ++ rows') (h_grids h ++ grids')) a = Some m.
Proof.
  intros (rs & Hg & Hf)%matrix_of_Some. apply matrix_of_Some.
  exists rs. simpl. split; [by apply lookup_app_l_Some |].
  eapply Forall2_impl; [exact Hf |]. simpl. intros r row Hr.
  by apply lookup_app_l_Some.
Qed.

Lemma matrix_of_copy (h : heap) (m : matrix) (grids' : list (list loc)) :
  matrix_of
    (Heap (h_rows h ++ m)
          (h_grids h ++ seq (length (h_rows h)) (length m) :: grids'))
    (length (h_grids h)) = Some m.
Proof.
  apply matrix_of_Some. exists (seq (length (h_rows h)) (length m)). simpl.
  split.
  - rewrite lookup_app_r by lia. by rewrite Nat.sub_diag.
  - apply Forall2_same_length_lookup_2; [by rewrite length_seq |].
    intros i r row Hr Hrow. apply lookup_seq in Hr as [-> Hi].
    rewrite lookup_app_r by lia.
    by replace (length (h_rows h) + i - length (h_rows h))%nat with i by lia.
Qed.

(** ** [stop], [start] and the setter *)

Lemma stop_run (s : system) :
  stop s =
  (Return tt,
   if started (this s)
   then System (sys_store s)
          (filter (λ t, handle t ≠ default 0 (_started (this s))) (timers s))
          (next_handle s) (with_started (this s) (Some 0)) (emitted s)
   else s).
Proof.
  unfold stop, started. destruct (_started (this s)) as [id |]; [| done].
  destruct (negb (id =? 0)); done.
Qed.

Lemma stop_if_started_run (s : system) :
  (let* s0 := get in if started (this s0) then stop else ret tt) s = stop s.
Proof.
  unfold bind, get. destruct (started (this s)) eqn:E; [done |].
  rewrite stop_run, E. done.
Qed.

Lemma stop_timers (s : system) :
  timer_inv s → timers (stop s).2 = [].
Proof.
  intros (_ & _ & Hh). rewrite stop_run. simpl.
  destruct (started (this s)); simpl.
  - destruct (timers s) as [| t [| t' ts]]; try done.
    inversion Hh as [Ht]. rewrite filter_cons_False; [done |].
    intros Hne. by apply Hne.
  - by destruct (timers s).
Qed.

Lemma set_state_run (s : system) (a : loc) (m : matrix) :
  matrix_of (sys_heap s) a = Some m →
  set_state a s =
  (Return tt,
   let s1 := (stop s).2 in
   System
     (Store (Heap (h_rows (sys_heap s) ++ m)
                  (h_grids (sys_heap s) ++
                   [seq (length (h_rows (sys_heap s))) (length m)]))
            (st_draws (sys_store s)))
     (timers s1) (next_handle s)
     (with_buffers (this s1) a (length (h_grids (sys_heap s))))
     (emitted s)).
Proof.
  intros Hm. unfold set_state. unfold bind at 1.
  rewrite stop_if_started_run, stop_run. simpl.
  assert (Hs : ∀ s1 : system, sys_store s1 = sys_store s →
            (let* text := reads (λ s0, JSON_stringify (sys_heap s0) a) in
             let* copy := on_store (on_heap (JSON_parse text)) in
             λ s0, (Return tt, set_this s0 (with_buffers (this s0) a copy))) s1 =
            (Return tt,
             System
               (Store (Heap (h_rows (sys_heap s) ++ m)
                            (h_grids (sys_heap s) ++
                             [seq (length (h_rows (sys_heap s))) (length m)]))
                      (st_draws (sys_store s)))
               (timers s1) (next_handle s1)
               (with_buffers (this s1) a (length (h_grids (sys_heap s))))
               (emitted s1))).
  { intros s1 Hst. unfold bind, reads, JSON_stringify, sys_heap.
    rewrite Hst. fold (sys_heap s). rewrite Hm.
    unfold on_store, on_heap, JSON_parse. rewrite Hst.
    rewrite parse_rows_spec. simpl. done. }
  destruct (started (this s)); by rewrite Hs.
Qed.

Lemma start_run (s : system) :
  start s =
  (Return tt,
   let s1 := (stop s).2 in
   System (sys_store s)
     (timers s1 ++ [Timer (next_handle s) (_interval (this s)) false])
     (next_handle s + 1)
     (with_started (this s1) (Some (next_handle s)))
     (emitted s)).
Proof.
  unfold start. unfold bind at 1. rewrite stop_if_started_run, stop_run.
  simpl. destruct (started (this s)); done.
Qed.

Lemma stop_started (s : system) : started (this (stop s).2) = false.
Proof.
  rewrite stop_run. simpl. destruct (started (this s)) eqn:E; [done | by rewrite E].
Qed.

Lemma stop_next_handle (s : system) : next_handle (stop s).2 = next_handle s.
Proof. rewrite stop_run. simpl. by destruct (started (this s)). Qed.

Lemma stop_store (s : system) : sys_store (stop s).2 = sys_store s.
Proof. rewrite stop_run. simpl. by destruct (started (this s)). Qed.

Lemma set_state_stuck (s : system) (a : loc) :
  matrix_of (sys_heap s) a = None → set_state a s = (Stuck, (stop s).2).
Proof.
  intros Hm. unfold set_state. unfold bind at 1. rewrite stop_if_started_run.
  pose proof (stop_store s) as Hst.
  rewrite stop_run in *. simpl in *.
  unfold bind, reads, JSON_stringify, sys_heap. rewrite Hst.
  fold (sys_heap s). by rewrite Hm.
Qed.

Lemma set_state_control (s : system) (a : loc) :
  timers (set_state a s).2 = timers (stop s).2 ∧
  next_handle (set_state a s).2 = next_handle s ∧
  _started (this (set_state a s).2) = _started (this (stop s).2).
Proof.
  destruct (matrix_of (sys_heap s) a) as [m |] eqn:Hm.
  - by rewrite (set_state_run s a m Hm).
  - rewrite (set_state_stuck s a Hm). simpl. by rewrite stop_next_handle.
Qed.

Lemma notify_state (s : system) :
  ∃ log,
    ((let* rs := reads rowCount in
      let* cs := reads columnCount in
      emitChanged (CellsChanged rs cs 0 0)) s).2 =
    System (sys_store s) (timers s) (next_handle s) (this s) log.
Proof.
  unfold bind, reads, emitChanged.
  destruct (rowCount s) as [rs | e |]; simpl;
    [destruct (columnCount s) as [cs | e |]; simpl | ..];
    destruct s; eexists; reflexivity.
Qed.

Lemma step_and_notify_state (s : system) :
  ∃ log,
    ((let* s0 := get in
      on_store (_tick (this s0) (_swap (this s0)) (_data (this s0)) None);;
      let* rs := reads rowCount in
      let* cs := reads columnCount in
      emitChanged (CellsChanged rs cs 0 0)) s).2 =
    System (_tick (this s) (_swap (this s)) (_data (this s)) None (sys_store s)).2
      (timers s) (next_handle s) (this s) log.
Proof.
  unfold bind at 1, get. unfold bind at 1, on_store.
  destruct (_tick (this s) (_swap (this s)) (_data (this s)) None (sys_store s))
    as [[[] | e |] st'] eqn:Ht; simpl.
  - destruct (notify_state (set_store s st')) as [log Hlog].
    exists log. rewrite Hlog. done.
  - eexists. reflexivity.
  - eexists. reflexivity.
Qed.

(** What a firing of the interval [id] leaves: the buffers exchanged or
    not, the store as the step function left it, and the intervals as
    they were, but for the value of [swap]. *)
Lemma interval_callback_state (id : Z) (s : system) :
  id ∈ handle <$> timers s →
  ∃ (sw : bool) (log : list event),
    let m1 := if sw
              then with_buffers (this s) (_swap (this s)) (_data (this s))
              else this s in
    (interval_callback id s).2 =
    System (_tick m1 (_swap m1) (_data m1) None (sys_store s)).2
      (map (λ t', if decide (handle t' = id)
                  then Timer (handle t') (delay t') (negb (swap t'))
                  else t') (timers s))
      (next_handle s) m1 log ∧
    (∀ t, head (filter (λ t, handle t = id) (timers s)) = Some t →
          sw = negb (swap t)).
Proof.
  intros Hid. unfold interval_callback. unfold bind at 1, toggle_swap.
  destruct (filter (λ t, handle t = id) (timers s)) as [| t ts] eqn:Hf.
  { exfalso. apply list_elem_of_fmap in Hid as (t & -> & Ht).
    assert (t ∈ filter (λ t0, handle t0 = handle t) (timers s))
      by (by apply list_elem_of_filter).
    rewrite Hf in H. by apply elem_of_nil in H. }
  exists (negb (swap t)). unfold bind at 1.
  set (s0 := set_timers s _).
  destruct (negb (swap t)) eqn:Hsw; unfold ret.
  - destruct (step_and_notify_state
                (set_this s0 (with_buffers (this s0) (_swap (this s0))
                                (_data (this s0))))) as [log Hlog].
    exists log. split; [exact Hlog | by intros t0 [= <-]].
  - destruct (step_and_notify_state s0) as [log Hlog].
    exists log. split; [exact Hlog | by intros t0 [= <-]].
Qed.

(** ** The interval discipline *)

Lemma toggle_handles (id : Z) (ts : list timer) :
  handle <$> map (λ t', if decide (handle t' = id)
                        then Timer (handle t') (delay t') (negb (swap t'))
                        else t') ts = handle <$> ts.
Proof.
  induction ts as [| t ts IH]; [done |].
  rewrite map_cons, !fmap_cons, IH.
  f_equal. by destruct (decide (handle t = id)).
Qed.

Lemma Forall_handles (P : Z → Prop) (ts : list timer) :
  Forall (λ t, P (handle t)) ts ↔ Forall P (handle <$> ts).
Proof. by rewrite Forall_fmap. Qed.

(** A property of every active handle, along an operation that keeps
    the handles ([Hh] says so). *)
Ltac same_handles Hh P :=
  apply (Forall_handles P); rewrite Hh; by apply (Forall_handles P).

(** The intervals and the next handle after an operation. *)
Lemma exec_control (o : op) (s : system) :
  timer_inv s → enabled s o →
  match o with
  | Start =>
      timers (exec o s) = [Timer (next_handle s) (_interval (this s)) false] ∧
      next_handle (exec o s) = next_handle s + 1 ∧
      _started (this (exec o s)) = Some (next_handle s)
  | Stop | SetState _ =>
      timers (exec o s) = [] ∧ next_handle (exec o s) = next_handle s ∧
      started (this (exec o s)) = false
  | _ =>
      handle <$> timers (exec o s) = handle <$> timers s ∧
      next_handle (exec o s) = next_handle s ∧
      _started (this (exec o s)) = _started (this s)
  end.
Proof.
  intros Hinv Hen. destruct o as [| | a | id | cells | rows]; simpl.
  - rewrite start_run. simpl. by rewrite stop_timers.
  - by rewrite stop_timers, stop_next_handle, stop_started.
  - destruct (set_state_control s a) as (-> & -> & Hst).
    rewrite stop_timers by done. repeat split.
    unfold started. rewrite Hst. apply stop_started.
  - destruct (interval_callback_state id s Hen) as (sw & log & -> & _).
    simpl. rewrite toggle_handles. by destruct sw.
  - done.
  - done.
Qed.

Lemma timer_inv_exec (o : op) (s : system) :
  timer_inv s → enabled s o → timer_inv (exec o s).
Proof.
  intros Hinv Hen. pose proof (exec_control o s Hinv Hen) as Hc.
  destruct Hinv as (Hpos & Hall & Hh). unfold timer_inv.
  destruct o as [| | a | id | cells | rows].
  4-6: destruct Hc as (Hh' & -> & Hst); unfold started; rewrite Hst;
       (split; [done |]); (split; [| by rewrite Hh']);
       same_handles Hh' (λ z, 0 < z < next_handle s).
  - destruct Hc as (-> & -> & Hst). unfold started. rewrite Hst. simpl.
    split; [lia |]. split; [apply Forall_singleton; simpl; lia |].
    destruct (Z.eqb_spec (next_handle s) 0); [lia | done].
  - destruct Hc as (-> & -> & ->). done.
  - destruct Hc as (-> & -> & ->). done.
Qed.

Lemma closed_matrix_of (h : heap) (a : loc) :
  closed h → is_grid h a → ∃ m, matrix_of h a = Some m.
Proof.
  intros Hc Ha. destruct (lookup_lt_is_Some_2 (h_grids h) a Ha) as [rs Hrs].
  assert (Hrows : Forall (is_row h) rs).
  { eapply (proj1 (Forall_forall _ _) Hc). by eapply list_elem_of_lookup_2. }
  unfold matrix_of. rewrite Hrs. simpl.
  assert (is_Some (mapM (λ r, h_rows h !! r) rs)) as [m Hm]; [| by exists m].
  apply mapM_is_Some. eapply Forall_impl; [exact Hrows |]. simpl.
  intros r Hr. by apply lookup_lt_is_Some_2.
Qed.

Lemma constructed_run (draws : nat → Q) (st : store) (options : IOptions)
    (a : loc) (s : system) :
  constructed draws st options s → initial options = Some a →
  ∃ m i,
    matrix_of (st_heap st) a = Some m ∧
    s = System
          (Store (Heap (h_rows (st_heap st) ++ m)
                       (h_grids (st_heap st) ++
                        [seq (length (h_rows (st_heap st))) (length m)]))
                 (st_draws st))
          [] 1
          (MkModel i a (length (h_grids (st_heap st))) None
             (default (tick draws) (tick_option options)))
          [].
Proof.
  intros (Hc & Ha & ->) Hini. destruct (closed_matrix_of _ _ Hc (Ha a Hini)) as [m Hm].
  exists m. eexists. split; [done |]. unfold new_Model. rewrite Hini.
  unfold bind at 1, ret.
  match goal with |- (set_state a ?s0).2 = _ =>
    by rewrite (set_state_run s0 a m Hm) end.
Qed.

Lemma set_state_fresh (s : system) (a : loc) :
  timers s = [] → next_handle s = 1 → _started (this s) = None →
  timer_inv (set_state a s).2.
Proof.
  intros Hts Hn Hst. destruct (set_state_control s a) as (Hts' & Hn' & Hst').
  rewrite stop_run in Hts', Hst'. unfold started in *. rewrite Hst in *.
  simpl in *. unfold timer_inv, started. rewrite Hts', Hn', Hst', Hts, Hn, Hst.
  split; [lia |]. split; [apply Forall_nil_2 | done].
Qed.

Lemma constructed_timer_inv (draws : nat → Q) (st : store) (options : IOptions)
    (s : system) :
  constructed draws st options s → timer_inv s.
Proof.
  intros (_ & _ & ->). unfold new_Model. unfold bind at 1.
  destruct (initial options) as [a |].
  - unfold ret. by apply set_state_fresh.
  - unfold on_store. cbn [sys_store].
    destruct (random draws ROWS COLUMNS LIKELIHOOD st) as [[a | e |] st'].
    + by apply set_state_fresh.
    + cbn [snd]. unfold timer_inv, started. cbn. split; [lia |]. by split.
    + cbn [snd]. unfold timer_inv, started. cbn. split; [lia |]. by split.
Qed.

Lemma steps_timer_inv (ok : heap → loc → Prop) (s s' : system) :
  steps ok s s' → timer_inv s → timer_inv s'.
Proof.
  induction 1 as [| s s' o _ IH Hen _]; [done |].
  intros Hinv. apply timer_inv_exec; auto.
Qed.

Lemma reachable_timer_inv (draws : nat → Q) (s : system) :
  reachable draws s → timer_inv s.
Proof.
  intros (st & options & s0 & Hc & Hsteps).
  eapply steps_timer_inv; [exact Hsteps |]. by eapply constructed_timer_inv.
Qed.

(** Handles are never reused: once every active interval has a handle
    of at least [n], and so has the next one, it stays so. *)
Lemma steps_fresh_handles (ok : heap → loc → Prop) (n : Z) (s s' : system) :
  steps ok s s' → timer_inv s →
  n ≤ next_handle s → Forall (λ t, n ≤ handle t) (timers s) →
  n ≤ next_handle s' ∧ Forall (λ t, n ≤ handle t) (timers s').
Proof.
  induction 1 as [| s s' o Hsteps IH Hen _]; [done |].
  intros Hinv Hn Hall. destruct (IH Hinv Hn Hall) as [Hn' Hall'].
  pose proof (steps_timer_inv _ _ _ Hsteps Hinv) as Hinv'.
  pose proof (exec_control o s' Hinv' Hen) as Hc.
  destruct o as [| | a | id | cells | rows].
  4-6: destruct Hc as (Hh & -> & _); (split; [done |]);
       same_handles Hh (λ z, n ≤ z).
  - destruct Hc as (-> & -> & _). split; [lia |].
    apply Forall_singleton. simpl. lia.
  - destruct Hc as (-> & -> & _). done.
  - destruct Hc as (-> & -> & _). done.
Qed.

(** C7. At every reachable point at most one interval is active, and
    none when [_started] is falsy. After [stop()], after an assignment
    to [state], and after a [start()] that restarts, the intervals that
    were active before can never fire again, whatever happens next: the
    first two leave no interval at all, and no later state has an
    interval with the handle of an earlier one. *)
Theorem stopped_interval_never_fires (draws : nat → Q) (s : system) :
  reachable draws s →
  (length (timers s) ≤ 1)%nat ∧
  (started (this s) = false → timers s = []) ∧
  ∀ o, (o = Stop ∨ o = Start ∨ ∃ a, o = SetState a) → enabled s o →
    (o ≠ Start → timers (exec o s) = []) ∧
    (∀ s' id, steps any_state (exec o s) s' →
       id ∈ handle <$> timers s → ¬ enabled s' (Fire id)).
Proof.
  intros Hinv%reachable_timer_inv.
  pose proof Hinv as (Hpos & Hall & Hh). split; [| split].
  - rewrite <- (length_fmap handle), Hh. destruct (started (this s)); simpl; lia.
  - intros Hst. rewrite Hst in Hh. by apply fmap_nil_inv in Hh.
  - intros o Ho Hen. pose proof (exec_control o s Hinv Hen) as Hc.
    pose proof (timer_inv_exec o s Hinv Hen) as Hinv'.
    assert (Hfresh : next_handle s ≤ next_handle (exec o s) ∧
                     Forall (λ t, next_handle s ≤ handle t) (timers (exec o s)) ∧
                     (o ≠ Start → timers (exec o s) = [])).
    { destruct Ho as [-> | [-> | [a ->]]].
      - destruct Hc as (-> & -> & _). done.
      - destruct Hc as (-> & -> & _). split; [lia |]. split; [| done].
        apply Forall_singleton. simpl. lia.
      - destruct Hc as (-> & -> & _). done. }
    destruct Hfresh as (Hn & Hge & Hnone). split; [done |].
    intros s' id Hsteps Hid Hfire. simpl in Hfire.
    destruct (steps_fresh_handles _ _ _ _ Hsteps Hinv' Hn Hge) as [_ Hge'].
    apply (Forall_handles (λ z, next_handle s ≤ z)) in Hge'.
    apply (Forall_handles (λ z, 0 < z < next_handle s)) in Hall.
    pose proof (proj1 (Forall_forall _ _) Hge' id Hfire).
    pose proof (proj1 (Forall_forall _ _) Hall id Hid). simpl in *. lia.
Qed.

Lemma model_of_constructed (m : matrix) :
  constructed no_draws (store_of m) (MkOptions (Some 0%nat) None None)
    (model_of m).
Proof.
  unfold constructed, model_of, store_of. rewrite parse_rows_spec. simpl.
  split; [| split; [intros a [= <-]; unfold is_grid; simpl; lia | reflexivity]].
  unfold closed. simpl. apply Forall_singleton. apply Forall_forall.
  intros r [_ Hr]%elem_of_seq. unfold is_row. simpl. lia.
Defined.

Lemma stopped_interval_never_fires_witness :
  let s := exec Start (model_of blinker) in
  (length (timers s) ≤ 1)%nat ∧
  (started (this s) = false → timers s = []) ∧
  ∀ o, (o = Stop ∨ o = Start ∨ ∃ a, o = SetState a) → enabled s o →
    (o ≠ Start → timers (exec o s) = []) ∧
    (∀ s' id, steps any_state (exec o s) s' →
       id ∈ handle <$> timers s → ¬ enabled s' (Fire id)).
Proof.
  apply (stopped_interval_never_fires no_draws (exec Start (model_of blinker))).
  exists (store_of blinker), (MkOptions (Some 0%nat) None None),
    (model_of blinker).
  split; [apply model_of_constructed |].
  apply steps_step; [apply steps_refl | exact I | done].
Defined.

(** ** Reading and replacing the state *)

Lemma index2_same_matrix (h h' : heap) (a a' : loc) (m : matrix) (x y : Z) :
  matrix_of h a = Some m → matrix_of h' a' = Some m →
  index2 h a x y = index2 h' a' x y.
Proof.
  intros Hm Hm'.
  pose proof (grid_row_matrix h a m x Hm) as G.
  pose proof (grid_row_matrix h' a' m x Hm') as G'.
  unfold index2. destruct (zlookup m x) as [row |].
  - destruct G as [r ->], G' as [r' ->]. done.
  - by rewrite G, G'.
Qed.

Lemma set_state_installs (s : system) (a : loc) (m : matrix) :
  matrix_of (sys_heap s) a = Some m →
  ∃ s',
    set_state a s = (Return tt, s') ∧
    _data (this s') = a ∧
    _swap (this s') = length (h_grids (sys_heap s)) ∧
    current s' = Some m ∧ scratch s' = Some m ∧
    h_grids (sys_heap s') !! _swap (this s') =
      Some (seq (length (h_rows (sys_heap s))) (length m)) ∧
    _tick (this s') = _tick (this s) ∧
    (∀ a' m', matrix_of (sys_heap s) a' = Some m' →
              matrix_of (sys_heap s') a' = Some m').
Proof.
  intros Hm. eexists. split; [by apply set_state_run |].
  unfold current, scratch, sys_heap. simpl.
  rewrite stop_run. destruct (started (this s)); simpl;
    (split; [done |]; split; [done |]; split; [by apply matrix_of_extend |];
     split; [apply matrix_of_copy |]; split;
     [rewrite lookup_app_r by lia; by rewrite Nat.sub_diag |];
     split; [done |]; intros a' m' Hm'; by apply matrix_of_extend).
Qed.

(** C6. When the model is running, assigning [state] returns with the
    model stopped ([_started] falsy, no interval active); [_data] is the
    array assigned, so every read [data(row, column)] gives what the
    replacement holds there, and [_swap] is a copy of it made of new
    array objects: a grid that did not exist before, whose rows are
    pairwise distinct and did not exist before either, so that it
    shares nothing with the replacement. *)
Theorem assigning_state_stops_and_installs (draws : nat → Q) (s : system)
    (a : loc) (m : matrix) :
  reachable draws s → started (this s) = true →
  matrix_of (sys_heap s) a = Some m →
  ∃ s',
    set_state a s = (Return tt, s') ∧
    started (this s') = false ∧ timers s' = [] ∧
    _data (this s') = a ∧
    (∀ row col, data s' row col = index2 (sys_heap s) a row col) ∧
    (∀ i j cells b, m !! i = Some cells → cells !! j = Some b →
       data s' (Z.of_nat i) (Z.of_nat j) = Return (VBit b)) ∧
    scratch s' = Some m ∧
    ¬ is_grid (sys_heap s) (_swap (this s')) ∧
    ∃ rows', h_grids (sys_heap s') !! _swap (this s') = Some rows' ∧
             NoDup rows' ∧
             Forall (λ r, ¬ is_row (sys_heap s) r) rows'.
Proof.
  intros Hinv%reachable_timer_inv Hrun Hm.
  destruct (set_state_installs s a m Hm)
    as (s' & Hset & Hdata & Hswap & Hcur & Hscr & Hrows & _ & _).
  destruct (set_state_control s a) as (Hts & _ & Hst).
  rewrite Hset in Hts, Hst. simpl in Hts, Hst.
  assert (Hread : ∀ row col, data s' row col = index2 (sys_heap s) a row col).
  { intros row col. unfold data. by apply (index2_same_matrix _ _ _ _ m). }
  exists s'. split; [done |]. split; [| split; [| split; [done | split;
    [done | split; [| split; [done | split]]]]]].
  - unfold started. rewrite Hst. apply stop_started.
  - rewrite Hts. by apply stop_timers.
  - intros i j cells b Hi Hj. rewrite Hread.
    rewrite (index2_matrix _ _ m) by
      (done || (apply lookup_lt_Some in Hi; unfold zlength; lia)).
    unfold mread. by rewrite zlookup_of_nat, Hi, zlookup_of_nat, Hj.
  - rewrite Hswap. unfold is_grid. lia.
  - eexists. split; [exact Hrows |]. split; [apply NoDup_seq |].
    apply Forall_forall. intros r [Hr _]%elem_of_seq. unfold is_row. lia.
Qed.

Lemma running_model_reachable :
  reachable no_draws (exec Start (model_of blinker)).
Proof.
  exists (store_of blinker), (MkOptions (Some 0%nat) None None),
    (model_of blinker).
  split; [apply model_of_constructed |].
  apply steps_step; [apply steps_refl | exact I | done].
Defined.

Lemma assigning_state_stops_and_installs_witness :
  let s := exec Start (model_of blinker) in
  ∃ s',
    set_state 0%nat s = (Return tt, s') ∧
    started (this s') = false ∧ timers s' = [] ∧
    _data (this s') = 0%nat ∧
    (∀ row col, data s' row col = index2 (sys_heap s) 0%nat row col) ∧
    (∀ i j cells b, blinker !! i = Some cells → cells !! j = Some b →
       data s' (Z.of_nat i) (Z.of_nat j) = Return (VBit b)) ∧
    scratch s' = Some blinker ∧
    ¬ is_grid (sys_heap s) (_swap (this s')) ∧
    ∃ rows', h_grids (sys_heap s') !! _swap (this s') = Some rows' ∧
             NoDup rows' ∧
             Forall (λ r, ¬ is_row (sys_heap s) r) rows'.
Proof.
  apply (assigning_state_stops_and_installs no_draws
           (exec Start (model_of blinker)) 0%nat blinker).
  - exact running_model_reachable.
  - reflexivity.
  - reflexivity.
Defined.

(** C3, as the code has it. The setter validates nothing: whatever
    matrix the array assigned holds (empty and jagged ones included) the
    assignment returns normally, with that array as [_data] and a deep
    copy of it as [_swap]. The copy holds the same matrix and shares no
    object with the array assigned: it is another grid, one that did not
    exist before, and its rows are pairwise distinct objects that did
    not exist before either, none of them a row of the array assigned.
    No error is reported for any replacement. *)
Theorem set_state_accepts_every_matrix (s : system) (a : loc) (m : list (list Bit)) :
  matrix_of (sys_heap s) a = Some m →
  ∃ s',
    set_state a s = (Return tt, s') ∧
    _data (this s') = a ∧ current s' = Some m ∧ scratch s' = Some m ∧
    _swap (this s') ≠ a ∧
    ¬ is_grid (sys_heap s) (_swap (this s')) ∧
    ∃ rows',
      h_grids (sys_heap s') !! _swap (this s') = Some rows' ∧
      length rows' = length m ∧
      NoDup rows' ∧
      Forall (λ r, ¬ is_row (sys_heap s) r) rows' ∧
      ∀ rows r, h_grids (sys_heap s') !! a = Some rows → r ∈ rows → r ∉ rows'.
Proof.
  intros Hm.
  destruct (set_state_installs s a m Hm)
    as (s' & Hset & Hd & Hswap & Hc & Hs & Hrows & _ & _).
  pose proof (set_state_run s a m Hm) as Hrun. rewrite Hset in Hrun.
  injection Hrun as Hs'.
  pose proof Hm as (ra & Hga & Hfa)%matrix_of_Some.
  assert (Hold : ∀ r, r ∈ ra → is_row (sys_heap s) r).
  { intros r (k & Hk)%list_elem_of_lookup.
    destruct (Forall2_lookup_l _ _ _ _ _ Hfa Hk) as (row & _ & Hrow).
    unfold is_row. by apply lookup_lt_Some in Hrow. }
  assert (Hnew : Forall (λ r, ¬ is_row (sys_heap s) r)
                   (seq (length (h_rows (sys_heap s))) (length m))).
  { apply Forall_forall. intros r [Hr _]%elem_of_seq. unfold is_row. lia. }
  exists s'. split; [done |]. split; [done |]. split; [done |]. split; [done |].
  split; [| split].
  - rewrite Hswap. apply lookup_lt_Some in Hga. lia.
  - rewrite Hswap. unfold is_grid. lia.
  - eexists. split; [exact Hrows |]. split; [by rewrite length_seq |].
    split; [apply NoDup_seq |]. split; [exact Hnew |].
    intros rows r Hg Hr Hr'.
    assert (rows = ra) as ->.
    { rewrite Hs' in Hg. unfold sys_heap in Hg. simpl in Hg.
      rewrite lookup_app_l in Hg by (by eapply lookup_lt_Some).
      unfold sys_heap in Hga. congruence. }
    by apply (proj1 (Forall_forall _ _) Hnew r Hr'), Hold.
Qed.

Lemma set_state_accepts_every_matrix_witness :
  ∃ s',
    set_state 2%nat with_jagged = (Return tt, s') ∧
    _data (this s') = 2%nat ∧ current s' = Some jagged ∧ scratch s' = Some jagged ∧
    _swap (this s') ≠ 2%nat ∧
    ¬ is_grid (sys_heap with_jagged) (_swap (this s')) ∧
    ∃ rows',
      h_grids (sys_heap s') !! _swap (this s') = Some rows' ∧
      length rows' = length jagged ∧
      NoDup rows' ∧
      Forall (λ r, ¬ is_row (sys_heap with_jagged) r) rows' ∧
      ∀ rows r, h_grids (sys_heap s') !! 2%nat = Some rows → r ∈ rows → r ∉ rows'.
Proof.
  apply (set_state_accepts_every_matrix with_jagged 2%nat jagged).
  reflexivity.
Defined.

(** C3, as stated, fails: the jagged [[[0, 1], [0]]] is installed, and
    the assignment returns without an error. *)
Lemma set_state_accepts_jagged :
  matrix_of (sys_heap with_jagged) 2%nat = Some jagged ∧
  ¬ generation jagged ∧
  (set_state 2%nat with_jagged).1 = Return tt ∧
  current (set_state 2%nat with_jagged).2 = Some jagged.
Proof.
  split; [reflexivity |]. split; [| split; reflexivity].
  intros (R & C & _ & _ & _ & Hall).
  inversion Hall as [| ? ? H1 Hall']. inversion Hall' as [| ? ? H2 _].
  simpl in H1, H2. congruence.
Qed.

(** ** Reading a cell *)

(** C4, as the code has it. [data] indexes [_data] unchecked. A row
    index that is not an index of the grid makes the read throw: it is
    the [TypeError] of indexing [undefined], and so it is for a row
    index equal to the row count. A column index that is not an index of
    the row does not fail: the read returns [undefined]. A pair in range
    returns the bit [_data[row][column]]. *)
Theorem data_reads_current_unchecked (s : system) (m : list (list Bit))
    (row col : Z) :
  current s = Some m →
  rowCount s = Return (zlength m) ∧
  (¬ (0 ≤ row < zlength m) → data s row col = Throw TypeError) ∧
  data s (zlength m) col = Throw TypeError ∧
  (∀ cells, zlookup m row = Some cells → ¬ (0 ≤ col < zlength cells) →
     data s row col = Return undefined) ∧
  (∀ cells b, zlookup m row = Some cells → zlookup cells col = Some b →
     data s row col = Return (VBit b)).
Proof.
  intros Hm. unfold current in Hm.
  assert (Hout : ∀ z, ¬ (0 ≤ z < zlength m) → data s z col = Throw TypeError).
  { intros z Hz. unfold data, index2.
    pose proof (grid_row_matrix _ _ _ z Hm) as G.
    destruct (zlookup m z) as [cells |] eqn:E; [| by rewrite G].
    apply zlookup_Some in E as [H0 E]. apply lookup_lt_Some in E.
    unfold zlength in Hz. lia. }
  split; [| split; [by apply Hout | split; [| split]]].
  - apply matrix_of_Some in Hm as (rs & Hg & Hf).
    unfold rowCount, grid_length. rewrite Hg.
    unfold zlength. by rewrite (Forall2_length _ _ _ Hf).
  - apply Hout. lia.
  - intros cells Hrow Hcol. unfold data, index2.
    pose proof (grid_row_matrix _ _ _ row Hm) as G. rewrite Hrow in G.
    destruct G as [r ->]. f_equal.
    destruct (zlookup cells col) as [b |] eqn:E; [| done].
    apply zlookup_Some in E as [H0 E]. apply lookup_lt_Some in E.
    unfold zlength in Hcol. lia.
  - intros cells b Hrow Hcol. unfold data, index2.
    pose proof (grid_row_matrix _ _ _ row Hm) as G. rewrite Hrow in G.
    destruct G as [r ->]. by rewrite Hcol.
Qed.

Lemma data_reads_current_unchecked_witness :
  rowCount (model_of blinker) = Return (zlength blinker) ∧
  (¬ (0 ≤ 2 < zlength blinker) → data (model_of blinker) 2 1 = Throw TypeError) ∧
  data (model_of blinker) (zlength blinker) 1 = Throw TypeError ∧
  (∀ cells, zlookup blinker 2 = Some cells → ¬ (0 ≤ 1 < zlength cells) →
     data (model_of blinker) 2 1 = Return undefined) ∧
  (∀ cells b, zlookup blinker 2 = Some cells → zlookup cells 1 = Some b →
     data (model_of blinker) 2 1 = Return (VBit b)).
Proof.
  apply (data_reads_current_unchecked (model_of blinker) blinker 2 1).
  reflexivity.
Defined.

(** C4, as stated, fails: on a grid of three columns, reading column [3]
    of row [0] does not fail; it returns [undefined]. *)
Lemma data_past_last_column_is_undefined :
  columnCount (model_of blank) = Return 3 ∧
  data (model_of blank) 0 3 = Return undefined.
Proof. split; reflexivity. Qed.

(** ** Dimensions *)

Lemma shape_lengths (rows : list (list Bit)) (rs : list loc) :
  map length <$> mapM (λ r, rows !! r) rs =
  mapM (λ r, map length rows !! r) rs.
Proof.
  induction rs as [| r rs IH]; [done |]. simpl.
  change (map length rows !! r) with ((length <$> rows) !! r).
  rewrite list_lookup_fmap. destruct (rows !! r) as [cells |]; [| done]. simpl.
  rewrite <- IH. by destruct (mapM _ rs).
Qed.

Lemma shape_same (h0 h : heap) (a : loc) :
  same_shape h0 h → shape h a = shape h0 a.
Proof.
  intros [Hg Hl]. unfold shape, matrix_of. rewrite Hg.
  destruct (h_grids h0 !! a) as [rs |]; [| done]. simpl.
  by rewrite !shape_lengths, Hl.
Qed.

Lemma rect_of_lengths (R C : nat) (m : list (list Bit)) :
  map length m = replicate R C ↔ rect R C m.
Proof.
  split.
  - intros Hk. split.
    + by rewrite <- (length_map length), Hk, length_replicate.
    + apply Forall_forall. intros row Hrow.
      assert (Hin : length row ∈ map length m) by (by apply list_elem_of_fmap_2).
      rewrite Hk in Hin. by apply elem_of_replicate in Hin as [? _].
  - intros [<- Hall]. induction Hall as [| row m Hrow _ IH]; [done |].
    simpl. by rewrite Hrow, IH.
Qed.

Lemma shape_rect (h : heap) (a : loc) (R C : nat) :
  shape h a = Some (replicate R C) ↔ ∃ m, matrix_of h a = Some m ∧ rect R C m.
Proof.
  unfold shape. split.
  - destruct (matrix_of h a) as [m |]; [| done]. intros [= Hm].
    exists m. split; [done |]. by apply rect_of_lengths.
  - intros (m & -> & Hm). simpl. f_equal. by apply rect_of_lengths.
Qed.

Lemma for_from_inv {S} (P : S → Prop) (body : Z → M S unit) (n : nat) :
  ∀ k,
  (∀ j s, k ≤ j < k + Z.of_nat n → P s → ∃ s', body j s = (Return tt, s') ∧ P s') →
  ∀ s, P s → ∃ s', for_from k n body s = (Return tt, s') ∧ P s'.
Proof.
  induction n as [| n IH]; intros k Hbody s Hs; simpl.
  - by exists s.
  - unfold bind. destruct (Hbody k s ltac:(lia) Hs) as (s1 & -> & Hs1).
    apply IH; [| done]. intros j s2 Hj. apply Hbody. lia.
Qed.

Lemma array_set_overwrite (cells : list Bit) (y : Z) (v : Bit) :
  0 ≤ y < zlength cells →
  ∃ cells', array_set cells y v = Some cells' ∧ length cells' = length cells.
Proof.
  intros Hy. unfold array_set.
  destruct (Z.leb_spec 0 y); [| lia].
  destruct (Z.ltb_spec y (zlength cells)); [| lia]. simpl.
  eexists. split; [done |]. by rewrite length_insert.
Qed.

(** One cell, on buffers of equal dimensions that may share rows: the
    write is within the row, so no array changes its length. *)
Lemma tick_cell_shape (draws : nat → Q) (fl : Q) (input output : loc)
    (R C : nat) (h0 h : heap) (n : nat) (i j : Z) :
  shape h0 input = Some (replicate R C) →
  shape h0 output = Some (replicate R C) →
  same_shape h0 h → 0 ≤ i < Z.of_nat R → 0 ≤ j < Z.of_nat C →
  ∃ h' n',
    tick_cell draws input output fl (Z.of_nat R - 1) (Z.of_nat C - 1) i j
      (Store h n) = (Return tt, Store h' n') ∧
    same_shape h0 h'.
Proof.
  intros Hin Hout Hsame Hi Hj.
  rewrite <- (shape_same h0 h) in Hin, Hout by done.
  apply shape_rect in Hin as (m & Hm & [HR HC]).
  apply shape_rect in Hout as (m' & Hm' & Hrect').
  assert (Hread : ∀ x' y' n', 0 ≤ x' < Z.of_nat R →
            read_heap (λ h1, index2 h1 input x' y') (Store h n') =
            (Return (mread m x' y'), Store h n')).
  { intros. unfold read_heap, reads. simpl. rewrite (index2_matrix _ _ m); [done .. |].
    unfold zlength. by rewrite HR. }
  pose proof (dec_range i (Z.of_nat R) Hi) as Hd.
  pose proof (inc_range i (Z.of_nat R) Hi) as Hx.
  unfold tick_cell. cbv zeta.
  do 9 (unfold bind at 1; rewrite Hread by (done || lia)).
  unfold bind at 1. rewrite fluctuate_run.
  unfold on_heap, assign2. simpl.
  pose proof (grid_row_matrix h output m' i Hm') as G.
  destruct (zlookup_in_range m' i) as (cells & Hz & Hcells).
  { unfold zlength. by destruct Hrect' as [-> _]. }
  rewrite Hz in G. destruct G as [r G]. rewrite G.
  pose proof (rect_lookup R C m' _ cells Hrect' Hcells) as Hlen.
  match goal with |- context [array_set cells j ?v] =>
    destruct (array_set_overwrite cells j v) as (cells' & -> & Hlen');
      [unfold zlength; lia |]
  end.
  eexists _, _. split; [done |].
  destruct Hsame as [Hg Hl]. split; [done |]. simpl.
  rewrite <- Hl. change (map length ?l) with (length <$> l).
  rewrite list_fmap_insert. apply list_insert_id.
  rewrite list_lookup_fmap.
  unfold grid_row in G. destruct (h_grids h !! output) as [rs |]; [| done].
  destruct (zlookup rs i) as [r' |]; [| done].
  destruct (h_rows h !! r') as [cells0 |] eqn:E; [| done].
  injection G as -> ->. rewrite E. simpl. by rewrite Hlen'.
Qed.

(** [tick] on buffers of equal dimensions, shared rows or not, returns
    and leaves every array with the length it had. *)
Lemma tick_shape (draws : nat → Q) (fluctuation : option Q) (input output : loc)
    (R C : nat) (h : heap) (n : nat) :
  (1 ≤ R)%nat →
  shape h input = Some (replicate R C) →
  shape h output = Some (replicate R C) →
  ∃ h' n',
    tick draws input output fluctuation (Store h n) = (Return tt, Store h' n') ∧
    same_shape h h'.
Proof.
  intros HR Hin Hout.
  pose proof Hin as (m & Hm & Hrect)%shape_rect.
  pose proof Hm as (rin & Hgi & Hfi)%matrix_of_Some.
  unfold tick. unfold bind at 1, read_heap at 1, reads, grid_length. simpl.
  rewrite Hgi.
  unfold bind at 1, read_heap at 1, reads, row_length. simpl.
  pose proof (grid_row_matrix h input m 0 Hm) as G.
  destruct (zlookup_in_range m 0) as (row0 & Hz & Hrow0).
  { unfold zlength. destruct Hrect as [-> _]. lia. }
  rewrite Hz in G. destruct G as [r0 ->].
  replace (zlength rin) with (Z.of_nat R).
  2:{ unfold zlength. rewrite (Forall2_length _ _ _ Hfi). by destruct Hrect as [-> _]. }
  replace (zlength row0) with (Z.of_nat C).
  2:{ unfold zlength. by rewrite (rect_lookup R C m _ row0 Hrect Hrow0). }
  rewrite !for_lt_of_nat.
  destruct (for_from_inv (λ s, same_shape h (st_heap s))
              (λ i, for_lt (Z.of_nat C)
                 (λ j, tick_cell draws input output (default 0%Q fluctuation)
                         (Z.of_nat R - 1) (Z.of_nat C - 1) i j))
              R 0) with (s := Store h n) as ([h' n'] & Hrun & Hsame).
  - intros i s Hi Hs. rewrite for_lt_of_nat.
    apply (for_from_inv (λ s, same_shape h (st_heap s))); [| done].
    intros j [h1 n1] Hj Hs1.
    destruct (tick_cell_shape draws (default 0%Q fluctuation) input output R C
                h h1 n1 i j) as (h2 & n2 & -> & Hs2); try done; try lia.
    by exists (Store h2 n2).
  - done.
  - exists h', n'. by rewrite Hrun.
Qed.

Lemma shape_extend (h : heap) (a : loc) (l : list nat)
    (rows' : list (list Bit)) (grids' : list (list loc)) :
  shape h a = Some l →
  shape (Heap (h_rows h ++ rows') (h_grids h ++ grids')) a = Some l.
Proof.
  unfold shape. destruct (matrix_of h a) as [m |] eqn:Hm; [| done].
  by rewrite (matrix_of_extend h a m rows' grids' Hm).
Qed.

Lemma tick_keeps_shape (draws : nat → Q) : keeps_shape (tick draws).
Proof.
  intros input output fluctuation R C h n HR Hin Hout.
  destruct (tick_shape draws fluctuation input output R C h n HR Hin Hout)
    as (h' & n' & -> & Hsame).
  simpl. by rewrite !(shape_same h _ _ Hsame).
Qed.

(** Every operation but an assignment to [state] leaves both buffers
    with the dimensions they had. *)
Lemma exec_shape (R C : nat) (s : system) (o : op) :
  (1 ≤ R)%nat → dims_inv R C s → enabled s o →
  (∀ a, o ≠ SetState a) → dims_inv R C (exec o s).
Proof.
  intros HR (Ht & Hd & Hs) Hen Ho. unfold dims_inv.
  destruct o as [| | a | id | cells | rows]; simpl.
  - rewrite start_run, stop_run. unfold sys_heap. simpl.
    by destruct (started (this s)).
  - rewrite stop_run. by destruct (started (this s)).
  - by destruct (Ho a).
  - destruct (interval_callback_state id s Hen) as (sw & log & -> & _).
    unfold sys_heap in *. simpl. destruct (sys_store s) as [h n]. simpl in *.
    destruct sw; simpl; (split; [done |]).
    + by destruct (Ht (_data (this s)) (_swap (this s)) None R C h n HR Hd Hs).
    + by destruct (Ht (_swap (this s)) (_data (this s)) None R C h n HR Hs Hd).
  - unfold sys_heap in *. simpl. split; [done |].
    rewrite <- (app_nil_r (h_grids _)). split; by apply shape_extend.
  - unfold sys_heap in *. simpl. split; [done |].
    rewrite <- (app_nil_r (h_rows _)). split; by apply shape_extend.
Qed.

Lemma set_state_shape (s : system) (a : loc) :
  keeps_shape (_tick (this s)) → valid_state (sys_heap s) a →
  ∃ R C, (1 ≤ R)%nat ∧ (1 ≤ C)%nat ∧ dims_inv R C (exec (SetState a) s).
Proof.
  intros Ht (m & Hm & R & C & HR & HC & Hrect).
  destruct (set_state_installs s a m Hm)
    as (s' & Hset & Hdata & _ & Hcur & Hscr & _ & Ht' & _).
  exists R, C. split; [done |]. split; [done |]. simpl. rewrite Hset. simpl.
  unfold current, scratch in *. split; [by rewrite Ht' |].
  split; apply shape_rect; exists m; (split; [congruence | done]).
Qed.

(** ** What [random] builds *)

Lemma random_cells_spec (draws : nat → Q) (likelihood : Q) (columns : nat) :
  ∀ h n,
    random_cells draws columns likelihood (Store h n) =
    (Return (map (λ j, if Qltb (draws (n + j)%nat) likelihood then b1 else b0)
               (seq 0 columns)),
     Store h (n + columns)).
Proof.
  induction columns as [| columns IH]; intros h n; simpl.
  - unfold ret. by rewrite Nat.add_0_r.
  - unfold bind at 1, Math_random. simpl. unfold bind at 1. rewrite IH.
    unfold ret. rewrite Nat.add_0_r. f_equal; [| f_equal; lia].
    do 2 f_equal. rewrite <- fmap_S_seq.
    change (map ?f (S <$> ?l)) with (f <$> (S <$> l)).
    rewrite <- list_fmap_compose. apply list_fmap_ext. intros _ j _. simpl.
    by replace (S (n + j)) with (n + S j)%nat by lia.
Qed.

Lemma random_matrix_cons (draws : nat → Q) (likelihood : Q) (n R C : nat) :
  random_matrix draws likelihood n (S R) C =
  map (λ j, if Qltb (draws (n + j)%nat) likelihood then b1 else b0) (seq 0 C)
  :: random_matrix draws likelihood (n + C) R C.
Proof.
  unfold random_matrix. simpl. f_equal.
  - apply list_fmap_ext. intros _ j _. by rewrite Nat.add_0_r.
  - rewrite <- fmap_S_seq.
    change (map ?f (S <$> ?l)) with (f <$> (S <$> l)).
    rewrite <- list_fmap_compose. apply list_fmap_ext. intros _ i _. simpl.
    apply list_fmap_ext. intros _ j _.
    by replace (n + (C + i * C) + j)%nat with (n + C + i * C + j)%nat by lia.
Qed.

Lemma random_rows_spec (draws : nat → Q) (likelihood : Q) (rows columns : nat) :
  ∀ h n,
    random_rows draws rows columns likelihood (Store h n) =
    (Return (seq (length (h_rows h)) rows),
     Store (Heap (h_rows h ++ random_matrix draws likelihood n rows columns)
                 (h_grids h))
           (n + rows * columns)).
Proof.
  induction rows as [| rows IH]; intros h n.
  - simpl. unfold ret. rewrite app_nil_r, Nat.add_0_r. by destruct h.
  - simpl random_rows. unfold bind at 1. rewrite random_cells_spec.
    unfold bind at 1, on_heap. simpl. unfold bind at 1. rewrite IH.
    unfold ret. simpl. rewrite random_matrix_cons, <- app_assoc, length_app.
    simpl.
    replace (length (h_rows h) + 1)%nat with (S (length (h_rows h))) by lia.
    by rewrite Nat.add_assoc.
Qed.

Lemma random_matrix_rect (draws : nat → Q) (likelihood : Q) (n R C : nat) :
  rect R C (random_matrix draws likelihood n R C).
Proof.
  split.
  - unfold random_matrix. by rewrite length_map, length_seq.
  - apply Forall_forall. intros row (i & -> & _)%list_elem_of_fmap_1.
    by rewrite length_map, length_seq.
Qed.

Lemma random_run_spec (draws : nat → Q) (rows columns : Z) (likelihood : Q)
    (h : heap) (n0 : nat) :
  random draws rows columns likelihood (Store h n0) =
  (Return (length (h_grids h)),
   Store (Heap (h_rows h ++
                random_matrix draws likelihood n0 (Z.to_nat rows) (Z.to_nat columns))
               (h_grids h ++ [seq (length (h_rows h)) (Z.to_nat rows)]))
         (n0 + Z.to_nat rows * Z.to_nat columns)).
Proof.
  unfold random, bind. rewrite random_rows_spec. by unfold on_heap.
Qed.

Lemma random_run_matrix (draws : nat → Q) (rows columns : Z)
    (likelihood : Q) (h : heap) (n0 : nat) :
  let R := Z.to_nat rows in
  let C := Z.to_nat columns in
  ∃ a h',
    random draws rows columns likelihood (Store h n0) =
    (Return a, Store h' (n0 + R * C)) ∧
    matrix_of h' a = Some (random_matrix draws likelihood n0 R C).
Proof.
  intros R C. eexists _, _. split; [apply random_run_spec |].
  fold R C.
  pose proof (matrix_of_copy h (random_matrix draws likelihood n0 R C) []) as H.
  by rewrite (proj1 (random_matrix_rect draws likelihood n0 R C)) in H.
Qed.

Lemma steps_dims_inv (s0 s : system) :
  steps valid_state s0 s →
  (∃ R C, (1 ≤ R)%nat ∧ (1 ≤ C)%nat ∧ dims_inv R C s0) →
  ∃ R C, (1 ≤ R)%nat ∧ (1 ≤ C)%nat ∧ dims_inv R C s.
Proof.
  induction 1 as [| s0 s o _ IH Hen Hok]; [done |].
  intros H0. destruct (IH H0) as (R & C & HR & HC & Hinv).
  assert (Hcase : (∃ a, o = SetState a) ∨ (∀ a, o ≠ SetState a)).
  { destruct o; try (by right); left; by eexists. }
  destruct Hcase as [[a ->] | Hno].
  - apply set_state_shape; [apply Hinv | by apply Hok].
  - exists R, C. split; [done |]. split; [done |]. by apply exec_shape.
Qed.

(** What the constructor builds has buffers of equal dimensions, when
    the initial state, if one is given, is a non-empty rectangular
    generation; if none is given, it is the random world of forty rows
    and forty columns. *)
Lemma new_Model_dims (draws : nat → Q) (st : store) (options : IOptions) :
  (∀ a, initial options = Some a → valid_state (st_heap st) a) →
  keeps_shape (default (tick draws) (tick_option options)) →
  ∃ R C, (1 ≤ R)%nat ∧ (1 ≤ C)%nat ∧
         dims_inv R C (new_Model draws options st).2.
Proof.
  intros Hini Htick. unfold new_Model.
  set (s1 := System st [] 1 _ []).
  assert (Ht1 : ∀ st', keeps_shape (_tick (this (set_store s1 st')))) by done.
  unfold bind. destruct (initial options) as [a |].
  - unfold ret. apply (set_state_shape s1 a (Ht1 st)). by apply Hini.
  - unfold on_store. cbn [sys_store s1]. destruct st as [h n0].
    destruct (random_run_matrix draws ROWS COLUMNS LIKELIHOOD h n0)
      as (a & h' & -> & Hm).
    apply (set_state_shape (set_store s1 (Store h' _)) a (Ht1 _)).
    eexists. split; [exact Hm |].
    exists (Z.to_nat ROWS), (Z.to_nat COLUMNS).
    split; [unfold ROWS; lia |]. split; [unfold COLUMNS; lia |].
    apply random_matrix_rect.
Qed.

(** In every state of a run of non-empty rectangular generations, the
    two buffers hold as many rows, of one length. *)
Lemma run_dims_inv (draws : nat → Q) (st : store) (options : IOptions)
    (s0 s : system) :
  constructed draws st options s0 →
  (∀ a, initial options = Some a → valid_state (st_heap st) a) →
  (∀ t, tick_option options = Some t → keeps_shape t) →
  steps valid_state s0 s →
  ∃ R C, (1 ≤ R)%nat ∧ (1 ≤ C)%nat ∧ dims_inv R C s.
Proof.
  intros (_ & _ & ->) Hini Htick Hsteps.
  apply (steps_dims_inv _ _ Hsteps). apply new_Model_dims; [done |].
  destruct (tick_option options) as [t |]; simpl;
    [by apply Htick | apply tick_keeps_shape].
Qed.

(** C5, as the code has it. From a model built with a non-empty
    rectangular generation (the one given as [initial], or the random
    world that the constructor makes when none is given) and a step
    function that keeps the dimensions of its buffers (the default
    [tick] is one: nothing is assumed when no [tick] option is given),
    through [start], [stop], firings of the interval and assignments of
    non-empty rectangular states, the scratch buffer [_swap] always has
    the dimensions of [_data]: the same number of rows, every row of the
    same length in both. And no operation but an assignment to [state]
    changes these dimensions. *)
Theorem buffers_keep_equal_dimensions (draws : nat → Q) (st : store)
    (options : IOptions) (s0 s : system) :
  constructed draws st options s0 →
  (∀ a, initial options = Some a → valid_state (st_heap st) a) →
  (∀ t, tick_option options = Some t → keeps_shape t) →
  steps valid_state s0 s →
  ∃ R C, (1 ≤ R)%nat ∧ (1 ≤ C)%nat ∧
    shape (sys_heap s) (_data (this s)) = Some (replicate R C) ∧
    shape (sys_heap s) (_swap (this s)) = Some (replicate R C) ∧
    ∀ o, enabled s o → (∀ a', o ≠ SetState a') →
      shape (sys_heap (exec o s)) (_data (this (exec o s))) =
        Some (replicate R C) ∧
      shape (sys_heap (exec o s)) (_swap (this (exec o s))) =
        Some (replicate R C).
Proof.
  intros Hc Hini Htick Hsteps.
  destruct (run_dims_inv draws st options s0 s Hc Hini Htick Hsteps)
    as (R & C & HR & HC & Hinv).
  exists R, C. split; [done |]. split; [done |].
  split; [apply Hinv |]. split; [apply Hinv |].
  intros o Hen Ho. by apply (exec_shape R C s o HR Hinv Hen Ho).
Qed.

Lemma buffers_keep_equal_dimensions_witness :
  let s := exec (Fire 1) (exec Start (model_of blinker)) in
  ∃ R C, (1 ≤ R)%nat ∧ (1 ≤ C)%nat ∧
    shape (sys_heap s) (_data (this s)) = Some (replicate R C) ∧
    shape (sys_heap s) (_swap (this s)) = Some (replicate R C) ∧
    ∀ o, enabled s o → (∀ a', o ≠ SetState a') →
      shape (sys_heap (exec o s)) (_data (this (exec o s))) =
        Some (replicate R C) ∧
      shape (sys_heap (exec o s)) (_swap (this (exec o s))) =
        Some (replicate R C).
Proof.
  apply (buffers_keep_equal_dimensions no_draws (store_of blinker)
           (MkOptions (Some 0%nat) None None) (model_of blinker)).
  - apply model_of_constructed.
  - intros a [= <-]. exists blinker. split; [reflexivity |].
    exists 5%nat, 5%nat. split; [lia |]. split; [lia |].
    split; [reflexivity |]. repeat constructor.
  - intros t [=].
  - apply steps_step; [| | done].
    + apply steps_step; [apply steps_refl | exact I | done].
    + simpl. apply list_elem_of_here.
Defined.

(** C5, as stated, fails: the page assigns the jagged [[[0, 1], [0]]],
    starts the model, and the interval fires once. The copy that became
    [_data] has had its short row extended by [tick]; the array assigned,
    now [_swap], has not. *)
Lemma jagged_state_breaks_dimensions :
  let s := exec (Fire 1) (exec Start (exec (SetState 2%nat) with_jagged)) in
  constructed no_draws (store_of blank) (MkOptions (Some 0%nat) None None)
    (model_of blank) ∧
  generation blank ∧
  steps any_state (model_of blank) s ∧
  shape (sys_heap s) (_data (this s)) = Some [2; 2]%nat ∧
  shape (sys_heap s) (_swap (this s)) = Some [2; 1]%nat.
Proof.
  split; [apply model_of_constructed |]. split; [| split; [| split; reflexivity]].
  - exists 3%nat, 3%nat. split; [lia |]. split; [lia |].
    split; [reflexivity |]. repeat constructor.
  - apply steps_step; [| apply list_elem_of_here | done].
    apply steps_step; [| exact I | done].
    apply steps_step; [| vm_compute; lia | done].
    unfold with_jagged.
    apply steps_step; [| | done].
    2:{ repeat constructor; vm_compute; lia. }
    apply steps_step; [| exact I | done].
    apply steps_step; [apply steps_refl | exact I | done].
Qed.

(** ** Ticks of a running model *)

(** What one firing computes. The callback always steps from [_swap]
    into [_data], after exchanging them when the captured [swap] was
    false: so it steps from the current generation on the firings that
    find [swap] false, and from the scratch generation, the current one
    being overwritten, on those that find it true. *)
Lemma firing_steps_from_current_or_scratch (draws : nat → Q) (s : system)
    (id : Z) (t : timer) (m : list (list Bit)) (R C : nat) :
  _tick (this s) = tick draws →
  head (filter (λ t, handle t = id) (timers s)) = Some t →
  buffers (sys_heap s)
    (if swap t then _swap (this s) else _data (this s))
    (if swap t then _data (this s) else _swap (this s)) m R C →
  (1 ≤ R)%nat →
  current (exec (Fire id) s) =
    Some (next_generation draws 0 (st_draws (sys_store s)) m R C) ∧
  scratch (exec (Fire id) s) = Some m.
Proof.
  intros Ht Hhead Hb HR.
  assert (Hid : id ∈ handle <$> timers s).
  { destruct (filter _ (timers s)) as [| t' ts] eqn:Hf; [done |].
    injection Hhead as ->.
    assert (Hin : t ∈ filter (λ t0, handle t0 = id) (timers s))
      by (rewrite Hf; apply list_elem_of_here).
    apply list_elem_of_filter in Hin as [<- Hin]. by apply list_elem_of_fmap_2. }
  simpl. destruct (interval_callback_state id s Hid) as (sw & log & -> & Hsw).
  rewrite (Hsw t Hhead). unfold current, scratch, sys_heap in *. simpl.
  destruct (sys_store s) as [h n] eqn:Hst. simpl in *.
  destruct (swap t); simpl in *; rewrite Ht;
    match goal with Hb : buffers h ?i ?o m R C |- _ =>
      destruct (tick_run draws None h n i o m R C Hb HR)
        as (h' & -> & _ & _ & Hin & Hout & _)
    end; simpl; done.
Qed.

(** C2 fails on the code. The callback exchanges the buffers only on
    every other firing ([if (swap = !swap)]), and always steps from
    [_swap] into [_data]. The first firing after [start] turns the
    blinker; the second steps from the same input again, so the current
    generation is still the turned blinker and not its successor. *)
Lemma second_tick_recomputes_the_same_generation :
  let step := λ m, next_generation no_draws 0 0 m 5 5 in
  let s1 := exec (Fire 1) (exec Start (model_of blinker)) in
  let s2 := exec (Fire 1) s1 in
  current (model_of blinker) = Some blinker ∧
  current s1 = Some (step blinker) ∧
  current s2 = Some (step blinker) ∧
  step (step blinker) ≠ step blinker ∧
  length (emitted s2) = 2%nat.
Proof.
  split; [reflexivity |]. split; [reflexivity |]. split; [reflexivity |].
  split; [| reflexivity]. vm_compute. discriminate.
Qed.

(** ** The model stays within what it covers

    On the stores of a running program no call is ever [Stuck]: every
    reference names an object, and [tick] writes its rows from index
    zero upwards, so never past the end of one. *)

Lemma post_bind {S A B} (m : M S A) (k : A → M S B) (s : S)
    (QR : B → S → Prop) (QT : S → Prop) :
  post (m s) (λ a s', post (k a s') QR QT) QT → post (bind m k s) QR QT.
Proof. unfold bind, post. by destruct (m s) as [[a | e |] s']. Qed.

Lemma post_weaken {S A} (r : outcome A * S) (QR QR' : A → S → Prop)
    (QT QT' : S → Prop) :
  post r QR QT → (∀ a s, QR a s → QR' a s) → (∀ s, QT s → QT' s) →
  post r QR' QT'.
Proof. unfold post. destruct r as [[a | e |] s']; auto. Qed.

Lemma post_reads {S A} (f : S → outcome A) (s : S)
    (QR : A → S → Prop) (QT : S → Prop) :
  f s ≠ Stuck → QT s → (∀ a, f s = Return a → QR a s) →
  post (reads f s) QR QT.
Proof. unfold reads, post. destruct (f s) as [a | e |]; auto. Qed.

Lemma post_for_from {S} (P : Z → S → Prop) (QT : S → Prop)
    (body : Z → M S unit) (n : nat) :
  ∀ k s,
  (∀ j s, k ≤ j < k + Z.of_nat n → P j s →
          post (body j s) (λ _ s', P (j + 1) s') QT) →
  P k s →
  post (for_from k n body s) (λ _ s', P (k + Z.of_nat n) s') QT.
Proof.
  induction n as [| n IH]; intros k s Hbody Hs; simpl.
  - by rewrite Z.add_0_r.
  - apply post_bind. eapply post_weaken; [apply (Hbody k s); [lia | done] | | done].
    intros u s1 Hs1. simpl in Hs1.
    replace (k + Z.of_nat (Datatypes.S n)) with (k + 1 + Z.of_nat n) by lia.
    apply IH; [| done]. intros j s2 Hj. apply Hbody. lia.
Qed.

Lemma same_objects_closed (h0 h : heap) :
  same_objects h0 h → closed h0 → closed h.
Proof.
  intros [Hg Hl] Hc. unfold closed, is_row in *. by rewrite Hg, Hl.
Qed.

Lemma grid_row_Some (h : heap) (a : loc) (x : Z) (r : loc) (cells : list Bit) :
  grid_row h a x = Return (Some (r, cells)) ↔
  ∃ rs, h_grids h !! a = Some rs ∧ zlookup rs x = Some r ∧
        h_rows h !! r = Some cells.
Proof.
  unfold grid_row. split.
  - destruct (h_grids h !! a) as [rs |]; [| done].
    destruct (zlookup rs x) as [r' |] eqn:Ex; [| done].
    destruct (h_rows h !! r') as [cells' |] eqn:E; [| done].
    intros [= -> ->]. by exists rs.
  - intros (rs & -> & -> & ->). done.
Qed.

Lemma grid_row_safe (h : heap) (a : loc) (x : Z) :
  closed h → is_grid h a → grid_row h a x ≠ Stuck.
Proof.
  intros Hc Ha. unfold grid_row.
  destruct (lookup_lt_is_Some_2 (h_grids h) a Ha) as [rs Hrs]. rewrite Hrs.
  destruct (zlookup rs x) as [r |] eqn:E; [| done].
  apply zlookup_Some in E as [_ E].
  assert (Hr : is_row h r).
  { eapply (proj1 (Forall_forall _ _)); [| by eapply list_elem_of_lookup_2].
    eapply (proj1 (Forall_forall _ _) Hc). by eapply list_elem_of_lookup_2. }
  destruct (lookup_lt_is_Some_2 (h_rows h) r Hr) as [cells ->]. done.
Qed.

Lemma index2_safe (h : heap) (a : loc) (x y : Z) :
  closed h → is_grid h a → index2 h a x y ≠ Stuck.
Proof.
  intros Hc Ha. pose proof (grid_row_safe h a x Hc Ha). unfold index2.
  by destruct (grid_row h a x) as [[[r cells] |] | e |].
Qed.

Lemma array_set_dense (cells : list Bit) (y : Z) (v : Bit) :
  0 ≤ y ≤ zlength cells →
  ∃ cells', array_set cells y v = Some cells' ∧ y + 1 ≤ zlength cells'.
Proof.
  intros Hy. unfold array_set, zlength in *.
  destruct (Z.leb_spec 0 y); [| lia].
  destruct (Z.ltb_spec y (Z.of_nat (length cells))); simpl.
  - eexists. split; [done |]. rewrite length_insert. lia.
  - destruct (Z.eqb_spec y (Z.of_nat (length cells))); [| lia].
    eexists. split; [done |]. rewrite length_app. simpl. lia.
Qed.

Section TickSafe.

Context (draws : nat → Q) (fl : Q) (input output : loc) (h0 : heap).
Hypothesis Hclosed : closed h0.
Hypothesis Hin : is_grid h0 input.
Hypothesis Hout : is_grid h0 output.

Local Abbreviation kept := (λ s : store, same_objects h0 (st_heap s)).

(** The row that [output[i]] names has at least [j] cells. *)
Local Abbreviation room i j :=
  (λ s : store, ∀ r cells,
     grid_row (st_heap s) output i = Return (Some (r, cells)) → j ≤ zlength cells).

Lemma kept_grid (s : store) (a : loc) :
  kept s → is_grid h0 a → closed (st_heap s) ∧ is_grid (st_heap s) a.
Proof.
  intros Hk Ha. split; [exact (same_objects_closed h0 _ Hk Hclosed) |].
  destruct Hk as [Hg _]. unfold is_grid in *. by rewrite Hg.
Qed.

Lemma read_post (x y : Z) (s : store) (QR : value → store → Prop)
    (QT : store → Prop) :
  kept s → QT s → (∀ v, QR v s) →
  post (read_heap (λ h, index2 h input x y) s) QR QT.
Proof.
  intros Hk Ht Hr. unfold read_heap. apply post_reads; [| done | auto].
  destruct (kept_grid s input Hk Hin). by apply index2_safe.
Qed.

Lemma tick_cell_safe (lastRow lastCol i j : Z) (s : store) :
  0 ≤ j → kept s → room i j s →
  post (tick_cell draws input output fl lastRow lastCol i j s)
       (λ _ s', kept s' ∧ room i (j + 1) s') kept.
Proof.
  intros Hj Hk Hroom. unfold tick_cell. cbv zeta.
  do 9 (apply post_bind; apply read_post; [done | done | intros ?]).
  apply post_bind. destruct s as [h n]. rewrite fluctuate_run. simpl.
  unfold on_heap, assign2. simpl in *.
  destruct (kept_grid (Store h n) output Hk Hout) as [Hc Ho].
  pose proof (grid_row_safe h output i Hc Ho) as Hsafe.
  destruct (grid_row h output i) as [[[r cells] |] | e |] eqn:G; simpl; try done.
  destruct (array_set_dense cells j
              (written draws fl n (rule v (nadd (nadd (nadd (nadd (nadd (nadd
                 (nadd (to_number v0) (to_number v1)) (to_number v2))
                 (to_number v3)) (to_number v4)) (to_number v5))
                 (to_number v6)) (to_number v7)))))
    as (cells' & -> & Hlen); [specialize (Hroom r cells eq_refl); lia |].
  simpl. apply grid_row_Some in G as (rs & Hrs & Hx & Hr).
  split.
  - destruct Hk as [Hg Hl]. split; simpl; [done |]. by rewrite length_insert.
  - intros r2 cells2 (rs2 & Hrs2 & Hx2 & Hr2)%grid_row_Some. simpl in *.
    assert (rs2 = rs) as -> by congruence.
    assert (r2 = r) as -> by congruence.
    rewrite list_lookup_insert_eq in Hr2 by (by eapply lookup_lt_Some).
    by injection Hr2 as <-.
Qed.

Lemma tick_row_safe (lastRow lastCol columns i : Z) (s : store) :
  kept s →
  post (for_lt columns
          (λ j, tick_cell draws input output fl lastRow lastCol i j) s)
       (λ _ s', kept s') kept.
Proof.
  intros Hk. unfold for_lt.
  eapply post_weaken;
    [apply (post_for_from (λ j s', 0 ≤ j ∧ kept s' ∧ room i j s') kept) | |].
  - intros j s' Hj (H0 & Hk' & Hroom).
    eapply post_weaken; [by apply tick_cell_safe | | done].
    simpl. intros _ s2 [? ?]. split; [lia | done].
  - split; [done |]. split; [done |]. intros r cells _. unfold zlength. lia.
  - simpl. by intros _ s' (_ & ? & _).
  - done.
Qed.

Lemma tick_safe (s : store) :
  kept s →
  post (tick draws input output (Some fl) s) (λ _ s', kept s') kept.
Proof.
  intros Hk. unfold tick. simpl.
  destruct (kept_grid s input Hk Hin) as [Hc Hi].
  apply post_bind. unfold read_heap. apply post_reads; [| done |].
  { unfold grid_length.
    by destruct (lookup_lt_is_Some_2 (h_grids (st_heap s)) input Hi) as [rs ->]. }
  intros rows _. apply post_bind. apply post_reads; [| done |].
  { unfold row_length. pose proof (grid_row_safe _ _ 0 Hc Hi).
    by destruct (grid_row (st_heap s) input 0) as [[[r cells] |] | e |]. }
  intros columns _. unfold for_lt at 1.
  eapply post_weaken; [apply (post_for_from (λ _ s', kept s') kept) | |].
  - intros i s' _ Hk'. by apply tick_row_safe.
  - done.
  - done.
  - done.
Qed.

End TickSafe.

Lemma post_on_store {A} (m : M store A) (s : system)
    (QR : A → system → Prop) (QT : system → Prop) :
  post (m (sys_store s)) (λ a st, QR a (set_store s st))
       (λ st, QT (set_store s st)) →
  post (on_store m s) QR QT.
Proof. unfold on_store, post. by destruct (m (sys_store s)) as [[a | e |] st]. Qed.

Lemma post_elim {S A} (r : outcome A * S) (Q : S → Prop) :
  post r (λ _ s, Q s) Q → r.1 ≠ Stuck ∧ Q r.2.
Proof. unfold post. by destruct r as [[a | e |] s]. Qed.

Lemma closed_grow (h : heap) (rows' : list (list Bit)) :
  closed h → closed (Heap (h_rows h ++ rows') (h_grids h)).
Proof.
  unfold closed, is_row. simpl. intros Hc.
  eapply Forall_impl; [exact Hc |]. simpl. intros rs Hrs.
  eapply Forall_impl; [exact Hrs |]. simpl. intros r Hr.
  rewrite length_app. lia.
Qed.

Lemma closed_new_grid (h : heap) (rs : list loc) :
  closed h → Forall (is_row h) rs → closed (Heap (h_rows h) (h_grids h ++ [rs])).
Proof.
  unfold closed. simpl. intros Hc Hrs. apply Forall_app. split; [done |].
  by apply Forall_singleton.
Qed.

Lemma closed_copy (h : heap) (m : list (list Bit)) :
  closed h →
  closed (Heap (h_rows h ++ m)
               (h_grids h ++ [seq (length (h_rows h)) (length m)])).
Proof.
  intros Hc.
  apply (closed_new_grid (Heap (h_rows h ++ m) (h_grids h))).
  - by apply closed_grow.
  - apply Forall_forall. intros r [? ?]%elem_of_seq.
    unfold is_row. simpl. rewrite length_app. lia.
Qed.

(** A firing of the interval on a well-formed system with the default
    [tick] is not stuck, and leaves such a system. *)
Lemma interval_callback_safe (draws : nat → Q) (id : Z) (s : system) :
  well_formed s → _tick (this s) = tick draws → id ∈ handle <$> timers s →
  post (interval_callback id s)
       (λ _ s', well_formed s' ∧ _tick (this s') = tick draws)
       (λ s', well_formed s' ∧ _tick (this s') = tick draws).
Proof.
  intros Hwf Ht Hid. unfold interval_callback.
  apply post_bind. unfold toggle_swap.
  destruct (filter (λ t, handle t = id) (timers s)) as [| t ts] eqn:Hf.
  { exfalso. apply list_elem_of_fmap in Hid as (t & -> & Hin).
    assert (t ∈ filter (λ t0, handle t0 = handle t) (timers s))
      by (by apply list_elem_of_filter).
    rewrite Hf in H. by apply elem_of_nil in H. }
  simpl. set (s0 := set_timers s _).
  assert (Hstep : ∀ s1 : system,
            well_formed s1 → _tick (this s1) = tick draws →
            post ((let* s2 := get in
                   on_store (_tick (this s2) (_swap (this s2)) (_data (this s2)) None);;
                   let* rs := reads rowCount in
                   let* cs := reads columnCount in
                   emitChanged (CellsChanged rs cs 0 0)) s1)
                 (λ _ s', well_formed s' ∧ _tick (this s') = tick draws)
                 (λ s', well_formed s' ∧ _tick (this s') = tick draws)).
  { intros s1 (Hc & Hd & Hs) Ht1. apply post_bind. simpl.
    apply post_bind. apply post_on_store. rewrite Ht1.
    change (tick draws (_swap (this s1)) (_data (this s1)) None)
      with (tick draws (_swap (this s1)) (_data (this s1)) (Some 0%Q)).
    assert (Hkeep : ∀ st, same_objects (sys_heap s1) (st_heap st) →
              well_formed (set_store s1 st) ∧
              _tick (this (set_store s1 st)) = tick draws).
    { intros st Hk. split; [| done]. unfold well_formed, sys_heap. simpl.
      split; [exact (same_objects_closed _ _ Hk Hc) |].
      destruct Hk as [Hg _]. unfold is_grid in *. by rewrite Hg. }
    eapply post_weaken;
      [apply (tick_safe draws 0 (_swap (this s1)) (_data (this s1))
                (sys_heap s1) Hc Hs Hd (sys_store s1)); by split | |].
    2:{ intros st Hk. by apply Hkeep. }
    intros u st Hk. simpl in Hk.
    destruct (Hkeep st Hk) as [(Hc' & Hd' & Hs') Ht'].
    apply post_bind. apply post_reads; [| done |].
    { unfold rowCount, grid_length.
      by destruct (lookup_lt_is_Some_2 _ _ Hd') as [rs ->]. }
    intros rs _. apply post_bind. apply post_reads; [| done |].
    { unfold columnCount, row_length.
      pose proof (grid_row_safe _ _ 0 Hc' Hd').
      by destruct (grid_row _ _ 0) as [[[r cells] |] | e |]. }
    intros cs _. done. }
  apply post_bind. destruct (negb (swap t)); simpl.
  - apply Hstep; [| done]. destruct Hwf as (Hc & Hd & Hs). by repeat split.
  - by apply Hstep.
Qed.

Lemma exec_safe (draws : nat → Q) (o : op) (s : system) :
  well_formed s → _tick (this s) = tick draws → enabled s o →
  outcome_of o s ≠ Stuck ∧
  well_formed (exec o s) ∧ _tick (this (exec o s)) = tick draws.
Proof.
  intros Hwf Ht Hen. pose proof Hwf as (Hc & Hd & Hs).
  destruct o as [| | a | id | cells | rows]; simpl.
  - rewrite start_run, stop_run. simpl. split; [done |].
    by destruct (started (this s)).
  - rewrite stop_run. simpl. split; [done |].
    by destruct (started (this s)).
  - destruct (closed_matrix_of _ _ Hc Hen) as [m Hm].
    rewrite (set_state_run s a m Hm). simpl. split; [done |].
    simpl in Hen.
    rewrite stop_run. unfold well_formed, sys_heap, is_grid in *. simpl.
    rewrite length_app. simpl.
    destruct (started (this s)); simpl;
      (split; [split; [by apply closed_copy | split; lia] | done]).
  - exact (post_elim _ (λ s', well_formed s' ∧ _tick (this s') = tick draws)
             (interval_callback_safe draws id s Hwf Ht Hen)).
  - split; [done |]. split; [| done].
    unfold well_formed, sys_heap in *. simpl.
    split; [by apply closed_grow | done].
  - split; [done |]. split; [| done].
    unfold well_formed, sys_heap, is_grid in *. simpl.
    split; [by apply closed_new_grid |]. rewrite length_app. lia.
Qed.

Lemma random_cells_run (draws : nat → Q) (likelihood : Q) (columns : nat) :
  ∀ st, ∃ cells n,
    random_cells draws columns likelihood st = (Return cells, Store (st_heap st) n).
Proof.
  induction columns as [| columns IH]; intros st; simpl.
  - exists [], (st_draws st). unfold ret. by destruct st.
  - unfold bind at 1, Math_random.
    destruct (IH (Store (st_heap st) (S (st_draws st)))) as (cells & n & Hrun).
    unfold bind at 1. rewrite Hrun. unfold ret. by eexists _, _.
Qed.

Lemma random_rows_run (draws : nat → Q) (likelihood : Q) (rows columns : nat) :
  ∀ st, ∃ ms n,
    random_rows draws rows columns likelihood st =
    (Return (seq (length (h_rows (st_heap st))) rows),
     Store (Heap (h_rows (st_heap st) ++ ms) (h_grids (st_heap st))) n) ∧
    length ms = rows.
Proof.
  induction rows as [| rows IH]; intros st; simpl.
  - exists [], (st_draws st). unfold ret. rewrite app_nil_r. by destruct st as [[] ?].
  - unfold bind at 1.
    destruct (random_cells_run draws likelihood columns st) as (cells & n & ->).
    unfold bind at 1, on_heap. simpl.
    destruct (IH (Store (Heap (h_rows (st_heap st) ++ [cells]) (h_grids (st_heap st))) n))
      as (ms & n' & Hrun & Hlen).
    unfold bind at 1. rewrite Hrun. unfold ret. simpl.
    exists (cells :: ms), n'. rewrite <- app_assoc, length_app. simpl.
    split; [| by rewrite Hlen].
    by replace (length (h_rows (st_heap st)) + 1)%nat
      with (S (length (h_rows (st_heap st)))) by lia.
Qed.

Lemma random_run (draws : nat → Q) (rows columns : Z) (likelihood : Q) (st : store) :
  closed (st_heap st) →
  ∃ a st', random draws rows columns likelihood st = (Return a, st') ∧
           closed (st_heap st') ∧ is_grid (st_heap st') a.
Proof.
  intros Hc. unfold random. unfold bind.
  destruct (random_rows_run draws likelihood (Z.to_nat rows) (Z.to_nat columns) st)
    as (ms & n & -> & Hlen).
  unfold on_heap. simpl. eexists _, _. split; [done |]. simpl. split.
  - rewrite <- Hlen. by apply closed_copy.
  - unfold is_grid. simpl. rewrite length_app. simpl. lia.
Qed.

Lemma set_state_well_formed (s : system) (a : loc) :
  closed (sys_heap s) → is_grid (sys_heap s) a →
  well_formed (set_state a s).2 ∧ _tick (this (set_state a s).2) = _tick (this s).
Proof.
  intros Hc Ha. destruct (closed_matrix_of _ _ Hc Ha) as [m Hm].
  rewrite (set_state_run s a m Hm). simpl.
  rewrite stop_run. unfold well_formed, sys_heap, is_grid in *. simpl.
  rewrite length_app. simpl.
  destruct (started (this s)); simpl;
    (split; [split; [by apply closed_copy | split; lia] | done]).
Qed.

Lemma constructed_well_formed (draws : nat → Q) (st : store) (options : IOptions)
    (s : system) :
  constructed draws st options s →
  well_formed s ∧ _tick (this s) = default (tick draws) (tick_option options).
Proof.
  intros (Hc & Ha & ->). unfold new_Model. unfold bind.
  destruct (initial options) as [a |].
  - unfold ret. apply set_state_well_formed; [done | by apply Ha].
  - unfold on_store. cbn [sys_store].
    destruct (random_run draws ROWS COLUMNS LIKELIHOOD st Hc)
      as (a & st' & -> & Hc' & Ha').
    match goal with |- well_formed (set_state a ?s1).2 ∧ _ =>
      destruct (set_state_well_formed s1 a Hc' Ha') as [Hwf Ht]
    end.
    split; [exact Hwf | exact Ht].
Qed.

(** No operation on a reachable state of a model that steps with the
    default [tick] is ever [Stuck]. *)
Lemma reachable_never_stuck (draws : nat → Q) (st : store) (options : IOptions)
    (s0 s : system) (o : op) :
  constructed draws st options s0 → tick_option options = None →
  steps any_state s0 s → enabled s o → outcome_of o s ≠ Stuck.
Proof.
  intros Hc Htick Hsteps.
  assert (Hwf : well_formed s ∧ _tick (this s) = tick draws).
  { induction Hsteps as [| s0 s o' _ IH Hen' _].
    - destruct (constructed_well_formed _ _ _ _ Hc) as [Hwf Ht].
      by rewrite Htick in Ht.
    - destruct (IH Hc) as [Hwf Ht]. by apply (exec_safe draws o' s Hwf Ht Hen'). }
  intros Hen. destruct Hwf as [Hwf Ht]. by apply (exec_safe draws o s Hwf Ht Hen).
Qed.

(** * Further properties of the code *)

(** ** [tick] on degenerate generations *)

Lemma for_from_ret {S} (n : nat) (k : Z) (s : S) :
  for_from k n (λ _, ret tt) s = (Return tt, s).
Proof. revert k. induction n as [| n IH]; intros k; [done |]. simpl. apply IH. Qed.

Lemma tick_no_row (draws : nat → Q) (fluctuation : option Q)
    (input output : loc) (h : heap) (n : nat) :
  h_grids h !! input = Some [] →
  tick draws input output fluctuation (Store h n) = (Throw TypeError, Store h n).
Proof.
  intros Hg. unfold tick, bind, read_heap, reads, grid_length, row_length, grid_row.
  simpl. by rewrite Hg.
Qed.

(** X1. [tick] does not guard against an input with no row: it throws
    the [TypeError] of [input[0].length] before anything is written or
    drawn, whatever the output and the fluctuation are. *)
Theorem tick_empty_input_throws (draws : nat → Q) (fluctuation : option Q)
    (input output : loc) (h : heap) (n : nat) :
  h_grids h !! input = Some [] →
  tick draws input output fluctuation (Store h n) = (Throw TypeError, Store h n).
Proof.
  intros Hg. unfold tick, bind, read_heap, reads, grid_length, row_length, grid_row.
  simpl. by rewrite Hg.
Qed.

Lemma tick_empty_input_throws_witness :
  tick no_draws 0%nat 0%nat (Some (1 # 2)) (store_of []) =
  (Throw TypeError, store_of []).
Proof.
  apply (tick_empty_input_throws no_draws (Some (1 # 2)) 0%nat 0%nat
           (st_heap (store_of [])) 0).
  reflexivity.
Defined.

(** X2. When the first row of the input is empty, [tick] returns at
    once: the columns are counted on row [0] alone, so no cell is
    visited, nothing is written or drawn, and the output is not even
    looked at (it may be any array, of any dimensions). *)
Theorem tick_zero_columns_does_nothing (draws : nat → Q) (fluctuation : option Q)
    (input output : loc) (h : heap) (n : nat) (r : loc) :
  grid_row h input 0 = Return (Some (r, [])) →
  tick draws input output fluctuation (Store h n) = (Return tt, Store h n).
Proof.
  intros Hrow. pose proof Hrow as (rs & Hg & _ & _)%grid_row_Some.
  unfold tick. unfold bind at 1, read_heap at 1, reads, grid_length. simpl.
  rewrite Hg. unfold bind at 1, read_heap at 1, reads, row_length. simpl.
  rewrite Hrow. unfold for_lt. simpl. apply for_from_ret.
Qed.

Lemma tick_zero_columns_does_nothing_witness :
  tick no_draws 0%nat 0%nat (Some (1 # 2)) (store_of [[]; [b1; b0]]) =
  (Return tt, store_of [[]; [b1; b0]]).
Proof.
  apply (tick_zero_columns_does_nothing no_draws (Some (1 # 2)) 0%nat 0%nat
           (st_heap (store_of [[]; [b1; b0]])) 0 0%nat).
  reflexivity.
Defined.

(** ** Uniform generations *)

Lemma next_generation_step (draws : nat → Q) (fl : Q) (n0 : nat)
    (m : list (list Bit)) (R C : nat) :
  qtruthy fl = false → next_generation draws fl n0 m R C = step R C m.
Proof.
  intros H. unfold next_generation, out_row, out_cell, written, step.
  by rewrite H.
Qed.

Lemma map_seq_const {A} (f : nat → A) (x : A) (n : nat) :
  (∀ i, (i < n)%nat → f i = x) → map f (seq 0 n) = replicate n x.
Proof.
  intros H. apply list_eq. intros i. destruct (decide (i < n)%nat).
  - change (map f (seq 0 n)) with (f <$> seq 0 n).
    rewrite list_lookup_fmap, lookup_seq_lt, lookup_replicate_2 by done.
    simpl. by rewrite H.
  - rewrite !lookup_ge_None_2; [done | |];
      rewrite ?length_replicate, ?length_map, ?length_seq; lia.
Qed.

Lemma mread_uniform (R C : nat) (b : Bit) (x y : Z) :
  0 ≤ x < Z.of_nat R → 0 ≤ y < Z.of_nat C →
  mread (uniform R C b) x y = VBit b.
Proof.
  intros Hx Hy. unfold mread, uniform, zlookup.
  destruct (Z.leb_spec 0 x); [| lia]. destruct (Z.leb_spec 0 y); [| lia].
  rewrite lookup_replicate_2 by lia. by rewrite lookup_replicate_2 by lia.
Qed.

Lemma step_uniform (R C : nat) (b : Bit) :
  step R C (uniform R C b) = uniform R C b0.
Proof.
  unfold step. apply map_seq_const. intros i Hi.
  apply map_seq_const. intros j Hj. unfold cell_rule. cbv zeta.
  pose proof (dec_range (Z.of_nat i) (Z.of_nat R) ltac:(lia)).
  pose proof (inc_range (Z.of_nat i) (Z.of_nat R) ltac:(lia)).
  pose proof (dec_range (Z.of_nat j) (Z.of_nat C) ltac:(lia)).
  pose proof (inc_range (Z.of_nat j) (Z.of_nat C) ltac:(lia)).
  rewrite !mread_uniform by (done || lia). by destruct b.
Qed.

(** X3. Without fluctuation, a generation whose cells are all alike has
    an all-dead successor, whatever its dimensions: on the all-dead grid
    nothing is born, and on the all-alive grid every cell counts eight
    live neighbours (on a torus narrower than three cells, some of them
    several times) and dies. *)
Theorem tick_uniform_generation_dies (draws : nat → Q) (fluctuation : option Q)
    (h : heap) (n0 : nat) (input output : loc) (R C : nat) (b : Bit) :
  (default 0 fluctuation == 0)%Q → (1 ≤ R)%nat →
  buffers h input output (uniform R C b) R C →
  ∃ h',
    tick draws input output fluctuation (Store h n0) = (Return tt, Store h' n0) ∧
    matrix_of h' output = Some (uniform R C b0).
Proof.
  intros Hfl%qtruthy_zero HR Hb.
  destruct (tick_run draws fluctuation h n0 input output _ R C Hb HR)
    as (h' & Hrun & _ & _ & _ & Hout & _).
  exists h'. split.
  - rewrite Hrun. unfold draws_per_cell. rewrite Hfl. do 2 f_equal. lia.
  - by rewrite Hout, next_generation_step, step_uniform.
Qed.

Lemma tick_uniform_generation_dies_witness :
  ∃ h',
    tick no_draws 0%nat 1%nat None (store_of2 (uniform 2 3 b1) (uniform 2 3 b1)) =
    (Return tt, Store h' 0) ∧
    matrix_of h' 1%nat = Some (uniform 2 3 b0).
Proof.
  apply (tick_uniform_generation_dies no_draws None
           (st_heap (store_of2 (uniform 2 3 b1) (uniform 2 3 b1))) 0 0 1 2 3 b1)%nat.
  - reflexivity.
  - lia.
  - apply (buffers_intro _ 0%nat 1%nat [0; 1]%nat [2; 3]%nat
             (uniform 2 3 b1) (uniform 2 3 b1)); try reflexivity.
    + refine (bool_decide_unpack _ _). vm_compute. exact I.
    + refine (bool_decide_unpack _ _). vm_compute. exact I.
Defined.

(** ** [Life.Model.random] *)

(** X4. [random(rows, columns, likelihood)] returns a new grid of
    [rows] rows and [columns] columns (none when the number is negative),
    made of new and distinct row objects, and leaves every existing
    array as it was. It draws once per cell, row by row: cell [(i, j)]
    is alive exactly when draw number [i * columns + j] is below
    [likelihood]. *)
Theorem random_fills_a_new_grid (draws : nat → Q) (rows columns : Z)
    (likelihood : Q) (h : heap) (n0 : nat) :
  let R := Z.to_nat rows in
  let C := Z.to_nat columns in
  ∃ a h',
    random draws rows columns likelihood (Store h n0) =
    (Return a, Store h' (n0 + R * C)) ∧
    ¬ is_grid h a ∧
    matrix_of h' a = Some (random_matrix draws likelihood n0 R C) ∧
    rect R C (random_matrix draws likelihood n0 R C) ∧
    (∀ i j, (i < R)%nat → (j < C)%nat →
       index2 h' a (Z.of_nat i) (Z.of_nat j) =
       Return (VBit (if Qltb (draws (n0 + i * C + j)%nat) likelihood
                     then b1 else b0))) ∧
    (∃ rs, h_grids h' !! a = Some rs ∧ NoDup rs ∧
           Forall (λ r, ¬ is_row h r) rs) ∧
    (∀ a' m, matrix_of h a' = Some m → matrix_of h' a' = Some m).
Proof.
  intros R C. eexists _, _. split; [apply random_run_spec |].
  fold R C.
  assert (Hm : matrix_of
            (Heap (h_rows h ++ random_matrix draws likelihood n0 R C)
                  (h_grids h ++ [seq (length (h_rows h)) R]))
            (length (h_grids h)) =
          Some (random_matrix draws likelihood n0 R C)).
  { pose proof (matrix_of_copy h (random_matrix draws likelihood n0 R C) []) as H.
    by rewrite (proj1 (random_matrix_rect draws likelihood n0 R C)) in H. }
  split; [unfold is_grid; lia |]. split; [exact Hm |].
  split; [apply random_matrix_rect |]. split; [| split].
  - intros i j Hi Hj. rewrite (index2_matrix _ _ _ _ _ Hm).
    + unfold mread, random_matrix.
      rewrite zlookup_of_nat, list_lookup_fmap, lookup_seq_lt by done. simpl.
      by rewrite zlookup_of_nat, list_lookup_fmap, lookup_seq_lt.
    + unfold zlength. rewrite (proj1 (random_matrix_rect _ _ _ _ _)). lia.
  - eexists. simpl. split.
    + rewrite lookup_app_r by lia. by rewrite Nat.sub_diag.
    + split; [apply NoDup_seq |]. apply Forall_forall.
      intros r [Hr _]%elem_of_seq. unfold is_row. lia.
  - intros a' m Hm'. by apply matrix_of_extend.
Qed.

Lemma Qltb_false_le (d q : Q) : (q <= d)%Q → Qltb d q = false.
Proof. intros H. unfold Qltb. by rewrite (proj2 (Qle_bool_iff q d) H). Qed.

Lemma Qltb_true_lt (d q : Q) : (d < q)%Q → Qltb d q = true.
Proof.
  intros H. unfold Qltb. destruct (Qle_bool q d) eqn:E; [| done].
  apply Qle_bool_iff in E. by apply Qlt_not_le in H.
Qed.

(** X5. The extremes of [likelihood], draws being in [[0, 1)] as
    [Math.random] promises: with a likelihood of zero or less
    [random] returns an all-dead grid, with one or more an all-alive
    grid. *)
Theorem random_likelihood_extremes (draws : nat → Q) (rows columns : Z)
    (likelihood : Q) (h : heap) (n0 : nat) :
  (∀ n, (0 <= draws n)%Q ∧ (draws n < 1)%Q) →
  ∃ a h' n',
    random draws rows columns likelihood (Store h n0) = (Return a, Store h' n') ∧
    ((likelihood <= 0)%Q →
       matrix_of h' a = Some (uniform (Z.to_nat rows) (Z.to_nat columns) b0)) ∧
    ((1 <= likelihood)%Q →
       matrix_of h' a = Some (uniform (Z.to_nat rows) (Z.to_nat columns) b1)).
Proof.
  intros Hd.
  destruct (random_run_matrix draws rows columns likelihood h n0)
    as (a & h' & Hrun & Hm).
  exists a, h', (n0 + Z.to_nat rows * Z.to_nat columns)%nat.
  split; [exact Hrun |].
  split; intros Hl; rewrite Hm; f_equal; unfold random_matrix;
    apply map_seq_const; intros i Hi; apply map_seq_const; intros j Hj.
  - rewrite Qltb_false_le; [done |].
    eapply Qle_trans; [exact Hl | apply Hd].
  - rewrite Qltb_true_lt; [done |].
    eapply Qlt_le_trans; [apply Hd | exact Hl].
Qed.

Lemma random_likelihood_extremes_witness :
  ∃ a h' n',
    random no_draws 2 3 1 empty_store = (Return a, Store h' n') ∧
    ((1 <= 0)%Q → matrix_of h' a = Some (uniform (Z.to_nat 2) (Z.to_nat 3) b0)) ∧
    ((1 <= 1)%Q → matrix_of h' a = Some (uniform (Z.to_nat 2) (Z.to_nat 3) b1)).
Proof.
  apply (random_likelihood_extremes no_draws 2 3 1 (Heap [] []) 0).
  intros n. split; [vm_compute; discriminate | reflexivity].
Defined.

(** ** Construction *)

Lemma set_state_keeps_interval (s : system) (a : loc) :
  _interval (this (set_state a s).2) = _interval (this s).
Proof.
  destruct (matrix_of (sys_heap s) a) as [m |] eqn:Hm.
  - rewrite (set_state_run s a m Hm). simpl. rewrite stop_run.
    by destruct (started (this s)).
  - rewrite (set_state_stuck s a Hm). simpl. rewrite stop_run.
    by destruct (started (this s)).
Qed.

Lemma set_state_frame (s : system) (a : loc) :
  emitted (set_state a s).2 = emitted s ∧
  st_draws (sys_store (set_state a s).2) = st_draws (sys_store s).
Proof.
  destruct (matrix_of (sys_heap s) a) as [m |] eqn:Hm.
  - by rewrite (set_state_run s a m Hm).
  - rewrite (set_state_stuck s a Hm). simpl. rewrite stop_run.
    by destruct (started (this s)).
Qed.

Lemma stop_not_started (s : system) :
  started (this s) = false → stop s = (Return tt, s).
Proof. intros H. by rewrite stop_run, H. Qed.

(** X6. [new Life.Model()] with no [initial] builds a stopped model on
    a random world of forty rows and forty columns, a quarter of the
    cells alive on average (cell [(i, j)] is alive when draw number
    [40 i + j] is below [0.25]): [rowCount] and [columnCount] are [40],
    no interval is registered, nothing has been emitted, and the scratch
    buffer is another array holding the same generation. *)
Theorem default_model_is_a_random_world (draws : nat → Q) (h : heap) (n0 : nat)
    (i : option Z) (t : option Tick) :
  ∃ s,
    new_Model draws (MkOptions None i t) (Store h n0) = (Return tt, s) ∧
    rowCount s = Return 40 ∧ columnCount s = Return 40 ∧
    current s = Some (random_matrix draws LIKELIHOOD n0 40 40) ∧
    scratch s = Some (random_matrix draws LIKELIHOOD n0 40 40) ∧
    _swap (this s) ≠ _data (this s) ∧
    timers s = [] ∧ started (this s) = false ∧ emitted s = [] ∧
    st_draws (sys_store s) = (n0 + 1600)%nat.
Proof.
  unfold new_Model. unfold bind at 1, on_store. cbn [sys_store initial].
  rewrite random_run_spec.
  change (Z.to_nat ROWS) with 40%nat. change (Z.to_nat COLUMNS) with 40%nat.
  generalize (random_matrix_rect draws LIKELIHOOD n0 40 40).
  generalize (random_matrix draws LIKELIHOOD n0 40 40). intros m Hrect.
  assert (Hlen : length m = 40%nat) by apply Hrect.
  match goal with |- ∃ s, set_state ?a ?x = _ ∧ _ => set (s1 := x) end.
  assert (Hm : matrix_of (sys_heap s1) (length (h_grids h)) = Some m).
  { pose proof (matrix_of_copy h m []) as H. by rewrite Hlen in H. }
  destruct (set_state_installs s1 _ m Hm)
    as (s & Hset & Hdata & Hswap & Hcur & Hscr & _ & _ & _).
  destruct (set_state_control s1 (length (h_grids h))) as (Hts & _ & Hst).
  destruct (set_state_frame s1 (length (h_grids h))) as (Hem & Hdr).
  rewrite (stop_not_started s1 eq_refl) in Hts, Hst.
  rewrite Hset in Hts, Hst, Hem, Hdr. simpl in Hts, Hst, Hem, Hdr.
  exists s. split; [done |].
  split; [| split; [| split; [done | split; [done | split;
    [| split; [done | split; [| split; [done |]]]]]]]].
  - unfold current in Hcur. apply matrix_of_Some in Hcur as (rs & Hg & Hf).
    unfold rowCount, grid_length. rewrite Hg. unfold zlength.
    by rewrite (Forall2_length _ _ _ Hf), Hlen.
  - unfold columnCount, row_length. unfold current in Hcur.
    pose proof (grid_row_matrix _ _ _ 0 Hcur) as G.
    destruct (zlookup_in_range m 0) as (row & Hz & Hrow);
      [unfold zlength; lia |].
    rewrite Hz in G. destruct G as [r ->]. unfold zlength.
    by rewrite (rect_lookup 40 40 m _ row Hrect Hrow).
  - rewrite Hdata, Hswap. unfold sys_heap. simpl. rewrite length_app. simpl. lia.
  - unfold started. by rewrite Hst.
  - rewrite Hdr. lia.
Qed.

(** ** The dimensions the model reports *)

Lemma row_length_matrix (h : heap) (a : loc) (m : list (list Bit)) :
  matrix_of h a = Some m →
  grid_length h a = Return (zlength m) ∧
  row_length h a 0 =
    match m with
    | [] => Throw TypeError
    | row :: _ => Return (zlength row)
    end.
Proof.
  intros Hm. split.
  - apply matrix_of_Some in Hm as (rs & Hg & Hf).
    unfold grid_length. rewrite Hg. unfold zlength.
    by rewrite (Forall2_length _ _ _ Hf).
  - pose proof (grid_row_matrix h a m 0 Hm) as G. unfold row_length.
    destruct m as [| row m]; simpl in G.
    + by rewrite G.
    + by destruct G as [r ->].
Qed.

(** ** A firing of the interval *)

Lemma shape_lengths_of (h : heap) (a : loc) (R C : nat) :
  shape h a = Some (replicate R C) → (1 ≤ R)%nat →
  grid_length h a = Return (Z.of_nat R) ∧ row_length h a 0 = Return (Z.of_nat C).
Proof.
  intros (m & Hm & Hrect)%shape_rect HR.
  destruct (row_length_matrix h a m Hm) as [-> ->].
  destruct Hrect as [Hlen Hall]. unfold zlength. rewrite Hlen.
  split; [done |]. destruct m as [| row m]; [simpl in Hlen; lia |].
  inversion Hall as [| ? ? Hrow _]. by rewrite Hrow.
Qed.

(** X8. A reader that stays within the dimensions the model reports
    always gets a cell. [columnCount] looks at row [0] alone and [data]
    checks nothing, but in every state of a run of non-empty rectangular
    generations (the initial one as given or drawn, the states assigned,
    the buffers between firings), with a step function that keeps the
    dimensions of its buffers, [rowCount] and [columnCount] return
    positive numbers and every read [data(row, column)] below them
    returns a bit: it neither throws nor returns [undefined]. *)
Theorem reads_within_reported_dimensions_are_cells (draws : nat → Q)
    (st : store) (options : IOptions) (s0 s : system) :
  constructed draws st options s0 →
  (∀ a, initial options = Some a → valid_state (st_heap st) a) →
  (∀ t, tick_option options = Some t → keeps_shape t) →
  steps valid_state s0 s →
  ∃ R C, (1 ≤ R)%nat ∧ (1 ≤ C)%nat ∧
    rowCount s = Return (Z.of_nat R) ∧
    columnCount s = Return (Z.of_nat C) ∧
    ∀ row col, 0 ≤ row < Z.of_nat R → 0 ≤ col < Z.of_nat C →
      ∃ b, data s row col = Return (VBit b).
Proof.
  intros Hc Hini Htick Hsteps.
  destruct (run_dims_inv draws st options s0 s Hc Hini Htick Hsteps)
    as (R & C & HR & HC & _ & Hd & _).
  exists R, C. split; [done |]. split; [done |].
  destruct (shape_lengths_of _ _ R C Hd HR) as [Hrows Hcols].
  split; [exact Hrows |]. split; [exact Hcols |].
  intros row col Hrow Hcol.
  apply shape_rect in Hd as (m & Hm & Hrect).
  destruct (mread_in_range R C m row col Hrect Hrow Hcol) as (b & Hb & _).
  exists b. unfold data. rewrite (index2_matrix _ _ m); [by rewrite Hb | done |].
  unfold zlength. destruct Hrect as [-> _]. done.
Qed.

Lemma reads_within_reported_dimensions_are_cells_witness :
  let s := exec (Fire 1) (exec Start (model_of blinker)) in
  ∃ R C, (1 ≤ R)%nat ∧ (1 ≤ C)%nat ∧
    rowCount s = Return (Z.of_nat R) ∧
    columnCount s = Return (Z.of_nat C) ∧
    ∀ row col, 0 ≤ row < Z.of_nat R → 0 ≤ col < Z.of_nat C →
      ∃ b, data s row col = Return (VBit b).
Proof.
  apply (reads_within_reported_dimensions_are_cells no_draws (store_of blinker)
           (MkOptions (Some 0%nat) None None) (model_of blinker)).
  - apply model_of_constructed.
  - intros a [= <-]. exists blinker. split; [reflexivity |].
    exists 5%nat, 5%nat. split; [lia |]. split; [lia |].
    split; [reflexivity |]. repeat constructor.
  - intros t [=].
  - apply steps_step; [| | done].
    + apply steps_step; [apply steps_refl | exact I | done].
    + simpl. apply list_elem_of_here.
Defined.

(** The callback on buffers of equal dimensions: [tick] returns, both
    counts are read back, and one notification is emitted. *)
Lemma interval_callback_run (draws : nat → Q) (id : Z) (s : system) (R C : nat) :
  id ∈ handle <$> timers s → _tick (this s) = tick draws → (1 ≤ R)%nat →
  shape (sys_heap s) (_data (this s)) = Some (replicate R C) →
  shape (sys_heap s) (_swap (this s)) = Some (replicate R C) →
  ∃ (sw : bool) (st' : store),
    let m1 := if sw
              then with_buffers (this s) (_swap (this s)) (_data (this s))
              else this s in
    tick draws (_swap m1) (_data m1) None (sys_store s) = (Return tt, st') ∧
    same_shape (sys_heap s) (st_heap st') ∧
    interval_callback id s =
    (Return tt,
     System st'
       (map (λ t', if decide (handle t' = id)
                   then Timer (handle t') (delay t') (negb (swap t'))
                   else t') (timers s))
       (next_handle s) m1
       (CellsChanged (Z.of_nat R) (Z.of_nat C) 0 0 :: emitted s)) ∧
    (∀ t, head (filter (λ t, handle t = id) (timers s)) = Some t →
          sw = negb (swap t)).
Proof.
  intros Hid Ht HR Hd Hs.
  assert (Hstep : ∀ s1 : system,
            _tick (this s1) = tick draws →
            shape (sys_heap s1) (_data (this s1)) = Some (replicate R C) →
            shape (sys_heap s1) (_swap (this s1)) = Some (replicate R C) →
            ∃ st', tick draws (_swap (this s1)) (_data (this s1)) None (sys_store s1) =
                   (Return tt, st') ∧
                   same_shape (sys_heap s1) (st_heap st') ∧
                   (let* s2 := get in
                    on_store (_tick (this s2) (_swap (this s2)) (_data (this s2)) None);;
                    let* rs := reads rowCount in
                    let* cs := reads columnCount in
                    emitChanged (CellsChanged rs cs 0 0)) s1 =
                   (Return tt,
                    System st' (timers s1) (next_handle s1) (this s1)
                      (CellsChanged (Z.of_nat R) (Z.of_nat C) 0 0 :: emitted s1))).
  { intros s1 Ht1 Hd1 Hs1.
    destruct (tick_shape draws None (_swap (this s1)) (_data (this s1)) R C
                (sys_heap s1) (st_draws (sys_store s1)) HR Hs1 Hd1)
      as (h' & n' & Hrun & Hsame).
    assert (Hst : Store (sys_heap s1) (st_draws (sys_store s1)) = sys_store s1)
      by (unfold sys_heap; by destruct (sys_store s1)).
    rewrite Hst in Hrun. exists (Store h' n'). split; [done |]. split; [done |].
    unfold bind at 1, get. unfold bind at 1, on_store. rewrite Ht1, Hrun.
    rewrite <- (shape_same _ _ _ Hsame) in Hd1.
    destruct (shape_lengths_of h' (_data (this s1)) R C Hd1 HR) as [Hrows Hcols].
    unfold bind, reads, rowCount, columnCount, sys_heap. simpl.
    by rewrite Hrows, Hcols. }
  unfold interval_callback. unfold bind at 1, toggle_swap.
  destruct (filter (λ t, handle t = id) (timers s)) as [| t ts] eqn:Hf.
  { exfalso. apply list_elem_of_fmap in Hid as (t & -> & Hin).
    assert (t ∈ filter (λ t0, handle t0 = handle t) (timers s))
      by (by apply list_elem_of_filter).
    rewrite Hf in H. by apply elem_of_nil in H. }
  exists (negb (swap t)). unfold bind at 1. set (s0 := set_timers s _).
  destruct (negb (swap t)) eqn:Hsw; unfold ret.
  - destruct (Hstep (set_this s0 (with_buffers (this s0) (_swap (this s0))
                                    (_data (this s0)))) Ht Hs Hd)
      as (st' & Hrun & Hsame & Hcall).
    exists st'. split; [exact Hrun |]. split; [exact Hsame |].
    split; [exact Hcall | by intros t0 [= <-]].
  - destruct (Hstep s0 Ht Hd Hs) as (st' & Hrun & Hsame & Hcall).
    exists st'. split; [exact Hrun |]. split; [exact Hsame |].
    split; [exact Hcall | by intros t0 [= <-]].
Qed.

(** X9. On a model with the default [tick] whose buffers both hold [R]
    rows of [C] cells ([R] at least one), every firing of the interval
    returns normally and emits exactly one notification, for the whole
    grid: row span [R], column span [C], origin [(0, 0)]. The handle
    and the timer stay as they were. *)
Theorem firing_emits_one_full_grid_notification (draws : nat → Q) (id : Z)
    (s : system) (R C : nat) :
  id ∈ handle <$> timers s → _tick (this s) = tick draws → (1 ≤ R)%nat →
  shape (sys_heap s) (_data (this s)) = Some (replicate R C) →
  shape (sys_heap s) (_swap (this s)) = Some (replicate R C) →
  outcome_of (Fire id) s = Return tt ∧
  emitted (exec (Fire id) s) =
    CellsChanged (Z.of_nat R) (Z.of_nat C) 0 0 :: emitted s ∧
  handle <$> timers (exec (Fire id) s) = handle <$> timers s ∧
  _started (this (exec (Fire id) s)) = _started (this s).
Proof.
  intros Hid Ht HR Hd Hs.
  destruct (interval_callback_run draws id s R C Hid Ht HR Hd Hs)
    as (sw & st' & _ & _ & Hcall & _).
  simpl. rewrite Hcall. simpl. rewrite toggle_handles. by destruct sw.
Qed.

Lemma firing_emits_one_full_grid_notification_witness :
  let s := exec Start (model_of blinker) in
  outcome_of (Fire 1) s = Return tt ∧
  emitted (exec (Fire 1) s) = CellsChanged (Z.of_nat 5) (Z.of_nat 5) 0 0 :: emitted s ∧
  handle <$> timers (exec (Fire 1) s) = handle <$> timers s ∧
  _started (this (exec (Fire 1) s)) = _started (this s).
Proof.
  apply (firing_emits_one_full_grid_notification no_draws 1
           (exec Start (model_of blinker)) 5 5).
  - apply list_elem_of_here.
  - reflexivity.
  - lia.
  - reflexivity.
  - reflexivity.
Defined.

Lemma enabled_fire_timer (id : Z) (s : system) :
  id ∈ handle <$> timers s →
  ∃ t ts, filter (λ t, handle t = id) (timers s) = t :: ts.
Proof.
  intros Hid.
  destruct (filter (λ t, handle t = id) (timers s)) as [| t ts] eqn:Hf;
    [| by eexists _, _].
  exfalso. apply list_elem_of_fmap in Hid as (t & -> & Hin).
  assert (t ∈ filter (λ t0, handle t0 = handle t) (timers s))
    by (by apply list_elem_of_filter).
  rewrite Hf in H. by apply elem_of_nil in H.
Qed.

(** The callback, once [swap = !swap] and the exchange are done. *)
Lemma interval_callback_unfold (id : Z) (s : system) (t : timer) (ts : list timer) :
  filter (λ t, handle t = id) (timers s) = t :: ts →
  let s0 := set_timers s
              (map (λ t', if decide (handle t' = id)
                          then Timer (handle t') (delay t') (negb (swap t'))
                          else t') (timers s)) in
  interval_callback id s =
  (let* s2 := get in
   on_store (_tick (this s2) (_swap (this s2)) (_data (this s2)) None);;
   let* rs := reads rowCount in
   let* cs := reads columnCount in
   emitChanged (CellsChanged rs cs 0 0))
    (if negb (swap t)
     then set_this s0 (with_buffers (this s0) (_swap (this s0)) (_data (this s0)))
     else s0).
Proof.
  intros Hf s0. unfold interval_callback. unfold bind at 1, toggle_swap.
  rewrite Hf. unfold bind at 1. by destruct (negb (swap t)).
Qed.

(** X10. A model whose state has no row (the setter accepts [[]]) never
    steps: every firing of its interval throws the [TypeError] of
    [input[0].length] inside [tick], before anything is written, so no
    notification is emitted and the store is as it was; the interval
    stays active and will throw again. *)
Theorem firing_on_empty_state_throws (draws : nat → Q) (id : Z) (s : system) :
  id ∈ handle <$> timers s → _tick (this s) = tick draws →
  h_grids (sys_heap s) !! _data (this s) = Some [] →
  h_grids (sys_heap s) !! _swap (this s) = Some [] →
  outcome_of (Fire id) s = Throw TypeError ∧
  emitted (exec (Fire id) s) = emitted s ∧
  sys_store (exec (Fire id) s) = sys_store s ∧
  handle <$> timers (exec (Fire id) s) = handle <$> timers s ∧
  current (exec (Fire id) s) = Some [].
Proof.
  intros Hid Ht Hd Hs.
  assert (Hstep : ∀ s1 : system,
            _tick (this s1) = tick draws →
            h_grids (sys_heap s1) !! _swap (this s1) = Some [] →
            (let* s2 := get in
             on_store (_tick (this s2) (_swap (this s2)) (_data (this s2)) None);;
             let* rs := reads rowCount in
             let* cs := reads columnCount in
             emitChanged (CellsChanged rs cs 0 0)) s1 = (Throw TypeError, s1)).
  { intros s1 Ht1 Hs1. unfold bind at 1, get. unfold bind at 1, on_store.
    rewrite Ht1. destruct s1 as [[h n] ts nh m1 em]. simpl in *.
    by rewrite (tick_no_row draws None _ _ h n Hs1). }
  assert (Hcur : ∀ a, h_grids (sys_heap s) !! a = Some [] →
            matrix_of (sys_heap s) a = Some []).
  { intros a Ha. unfold matrix_of. by rewrite Ha. }
  destruct (enabled_fire_timer id s Hid) as (t & ts & Hf).
  simpl. rewrite (interval_callback_unfold id s t ts Hf).
  destruct (negb (swap t)).
  - rewrite Hstep by done. simpl. rewrite toggle_handles.
    repeat split. exact (Hcur _ Hs).
  - rewrite Hstep by done. simpl. rewrite toggle_handles.
    repeat split. exact (Hcur _ Hd).
Qed.

Lemma firing_on_empty_state_throws_witness :
  let s := exec Start (model_of []) in
  outcome_of (Fire 1) s = Throw TypeError ∧
  emitted (exec (Fire 1) s) = emitted s ∧
  sys_store (exec (Fire 1) s) = sys_store s ∧
  handle <$> timers (exec (Fire 1) s) = handle <$> timers s ∧
  current (exec (Fire 1) s) = Some [].
Proof.
  apply (firing_on_empty_state_throws no_draws 1 (exec Start (model_of []))).
  - apply list_elem_of_here.
  - reflexivity.
  - reflexivity.
  - reflexivity.
Defined.

(** ** Generations along the firings *)

Lemma separate_sym (h : heap) (a b : loc) : separate h a b → separate h b a.
Proof.
  intros (ra & rb & Ha & Hb & Hna & Hnb & Hd).
  exists rb, ra. repeat split; try done. intros r Hr Hr'. by apply (Hd r).
Qed.

Lemma separate_intro (h : heap) (a b : loc) (ra rb : list loc) :
  h_grids h !! a = Some ra → h_grids h !! b = Some rb →
  NoDup ra → NoDup rb → Forall (λ r, r ∉ rb) ra → separate h a b.
Proof.
  intros Ha Hb Hna Hnb Hd. exists ra, rb. repeat split; try done.
  intros r Hr Hr'. by apply (proj1 (Forall_forall _ _) Hd r Hr).
Qed.

Lemma separate_buffers (h : heap) (a b : loc) (m : list (list Bit)) (R C : nat) :
  separate h a b → matrix_of h a = Some m → rect R C m →
  shape h b = Some (replicate R C) → buffers h a b m R C.
Proof.
  intros (ra & rb & Ha & Hb & Hna & Hnb & Hd) Hm Hrect Hsb.
  split; try done.
  - by apply shape_rect.
  - by exists rb.
  - intros ra' rb' r Ha' Hb' Hr Hr'.
    assert (ra' = ra) as -> by congruence.
    assert (rb' = rb) as -> by congruence. by apply (Hd r).
Qed.

Lemma step_rect (R C : nat) (m : list (list Bit)) : rect R C (step R C m).
Proof.
  split.
  - unfold step. by rewrite length_map, length_seq.
  - apply Forall_forall. intros row (i & -> & _)%list_elem_of_fmap_1.
    by rewrite length_map, length_seq.
Qed.

(** One firing of a model that ticks on separate buffers: it steps from
    the current generation when [swap] was false, exchanging the buffers
    first, and from the scratch generation when it was true. *)
Lemma fire_ticking (draws : nat → Q) (id d : Z) (R C : nat) (sw : bool)
    (s : system) (g : list (list Bit)) :
  ticking_model draws id d R C sw s → (1 ≤ R)%nat →
  matrix_of (sys_heap s) (if sw then _swap (this s) else _data (this s)) = Some g →
  let s' := exec (Fire id) s in
  ticking_model draws id d R C (negb sw) s' ∧
  current s' = Some (step R C g) ∧
  scratch s' = Some g ∧
  _data (this s') = (if sw then _data (this s) else _swap (this s)) ∧
  _swap (this s') = (if sw then _swap (this s) else _data (this s)).
Proof.
  intros (Hts & Ht & Hsep & Hd & Hs) HR Hg s'. subst s'.
  assert (Hid : id ∈ handle <$> timers s) by (rewrite Hts; apply list_elem_of_here).
  destruct (interval_callback_state id s Hid) as (sw' & log & Hstate & Hsw).
  assert (sw' = negb sw) as ->.
  { apply (Hsw (Timer id d sw)). rewrite Hts.
    by rewrite filter_cons_True, filter_nil. }
  simpl. rewrite Hstate. clear Hstate Hsw. rewrite Hts. simpl.
  destruct (decide (id = id)) as [_ |]; [| done].
  unfold ticking_model, current, scratch, sys_heap in *.
  destruct (sys_store s) as [h n]. simpl in *.
  assert (Hrect : rect R C g).
  { destruct sw.
    - apply shape_rect in Hs as (m & Hm & Hr). congruence.
    - apply shape_rect in Hd as (m & Hm & Hr). congruence. }
  assert (Hstep : ∀ a b, separate h a b → matrix_of h a = Some g →
            shape h b = Some (replicate R C) →
            ∃ h' n', tick draws a b None (Store h n) = (Return tt, Store h' n') ∧
                   h_grids h' = h_grids h ∧
                   matrix_of h' a = Some g ∧
                   matrix_of h' b = Some (step R C g)).
  { intros a b Hab Ha Hb.
    destruct (tick_run draws None h n a b g R C
                (separate_buffers h a b g R C Hab Ha Hrect Hb) HR)
      as (h' & Hrun & Hgr & _ & Hin & Hout & _).
    eexists h', _. split; [exact Hrun |]. split; [done |]. split; [done |].
    by rewrite Hout, next_generation_step. }
  assert (Hsep' : ∀ h' a b, h_grids h' = h_grids h → separate h a b →
            separate h' a b).
  { intros h' a b Hgr (ra & rb & ? & ? & ?). exists ra, rb. by rewrite Hgr. }
  destruct sw; simpl in *; rewrite Ht.
  - destruct (Hstep _ _ (separate_sym _ _ _ Hsep) Hg Hd)
      as (h' & n' & -> & Hgr & Hin & Hout).
    simpl. split; [| done]. split; [done |]. split; [done |].
    split; [by apply Hsep' |].
    split; apply shape_rect; eexists; (split; [eassumption |]);
      [apply step_rect | done].
  - destruct (Hstep _ _ Hsep Hg Hs) as (h' & n' & -> & Hgr & Hin & Hout).
    simpl. split; [| done]. split; [done |]. split; [done |].
    split; [by apply Hsep', separate_sym |].
    split; apply shape_rect; eexists; (split; [eassumption |]);
      [apply step_rect | done].
Qed.

(** X11. The first firing after any [start()] advances the model by one
    generation. On a model with the default [tick] and separate buffers
    of [R] rows and [C] columns, it exchanges the buffers and steps from
    the generation that was current: the getter [state] now returns the
    array that was the scratch buffer, holding the successor, and the
    array that was current still holds the former generation, as the new
    scratch buffer. *)
Theorem first_firing_after_start_advances (draws : nat → Q) (s : system)
    (g : list (list Bit)) (R C : nat) :
  timer_inv s → _tick (this s) = tick draws → (1 ≤ R)%nat →
  separate (sys_heap s) (_data (this s)) (_swap (this s)) →
  current s = Some g → rect R C g →
  shape (sys_heap s) (_swap (this s)) = Some (replicate R C) →
  let s' := exec (Fire (next_handle s)) (exec Start s) in
  current s' = Some (step R C g) ∧
  scratch s' = Some g ∧
  get_state s' = _swap (this s) ∧
  _swap (this s') = _data (this s).
Proof.
  intros Hinv Ht HR Hsep Hcur Hrect Hs s'. subst s'.
  destruct (exec_control Start s Hinv I) as (Hts & _ & _).
  assert (Hsame : sys_store (exec Start s) = sys_store s ∧
                  _data (this (exec Start s)) = _data (this s) ∧
                  _swap (this (exec Start s)) = _swap (this s) ∧
                  _tick (this (exec Start s)) = _tick (this s)).
  { simpl. rewrite start_run, stop_run. simpl. by destruct (started (this s)). }
  destruct Hsame as (Hst & Hd' & Hs' & Ht').
  assert (Hmodel : ticking_model draws (next_handle s) (_interval (this s))
                     R C false (exec Start s)).
  { unfold ticking_model, sys_heap. rewrite Hst, Hd', Hs', Ht'.
    split; [done |]. split; [done |]. split; [done |]. split; [| done].
    apply shape_rect. by exists g. }
  destruct (fire_ticking draws _ _ R C false (exec Start s) g Hmodel HR)
    as (_ & Hc & Hsc & Hdata & Hswap).
  { unfold sys_heap. by rewrite Hst, Hd'. }
  unfold get_state. by rewrite Hc, Hsc, Hdata, Hswap, Hs', Hd'.
Qed.

Lemma first_firing_after_start_advances_witness :
  let s := exec (Fire 1) (exec Start (model_of blinker)) in
  let s' := exec (Fire (next_handle s)) (exec Start s) in
  current s' = Some (step 5 5 (step 5 5 blinker)) ∧
  scratch s' = Some (step 5 5 blinker) ∧
  get_state s' = _swap (this s) ∧
  _swap (this s') = _data (this s).
Proof.
  apply (first_firing_after_start_advances no_draws
           (exec (Fire 1) (exec Start (model_of blinker)))
           (step 5 5 blinker) 5 5).
  - split; [vm_compute; reflexivity |]. split; [| reflexivity].
    vm_compute. apply Forall_singleton. split; reflexivity.
  - reflexivity.
  - lia.
  - apply (separate_intro _ _ _ [5; 6; 7; 8; 9]%nat [0; 1; 2; 3; 4]%nat);
      try reflexivity; refine (bool_decide_unpack _ _); vm_compute; exact I.
  - reflexivity.
  - apply step_rect.
  - reflexivity.
Defined.

(** X12. Generations advance on every other firing only. After
    [start()] on separate buffers holding the generation [g], firings
    [2n + 1] and [2n + 2] both leave generation [n + 1] current: the odd
    firings exchange the buffers and step from the current generation,
    the even ones do not exchange and step again from the same input. *)
Theorem generations_advance_every_other_firing (draws : nat → Q) (id d : Z)
    (R C : nat) (s : system) (g : list (list Bit)) :
  ticking_model draws id d R C false s → (1 ≤ R)%nat → current s = Some g →
  ∀ n,
    current (Nat.iter (2 * n + 1) (exec (Fire id)) s) =
      Some (Nat.iter (n + 1) (step R C) g) ∧
    current (Nat.iter (2 * n + 2) (exec (Fire id)) s) =
      Some (Nat.iter (n + 1) (step R C) g).
Proof.
  intros Hmodel HR Hcur n.
  assert (Heven : ticking_model draws id d R C false
                    (Nat.iter (2 * n) (exec (Fire id)) s) ∧
                  current (Nat.iter (2 * n) (exec (Fire id)) s) =
                    Some (Nat.iter n (step R C) g)).
  { induction n as [| n [IHm IHc]]; [done |].
    replace (2 * S n)%nat with (S (S (2 * n))) by lia.
    rewrite !Nat.iter_succ.
    destruct (fire_ticking draws id d R C false _ _ IHm HR IHc)
      as (Hm1 & _ & Hsc1 & _).
    destruct (fire_ticking draws id d R C true _ _ Hm1 HR Hsc1)
      as (Hm2 & Hc2 & _).
    done. }
  destruct Heven as [Hm Hc].
  replace (2 * n + 2)%nat with (S (S (2 * n))) by lia.
  replace (2 * n + 1)%nat with (S (2 * n)) by lia.
  replace (n + 1)%nat with (S n) by lia.
  rewrite !Nat.iter_succ.
  destruct (fire_ticking draws id d R C false _ _ Hm HR Hc)
    as (Hm1 & Hc1 & Hsc1 & _).
  destruct (fire_ticking draws id d R C true _ _ Hm1 HR Hsc1)
    as (_ & Hc2 & _).
  done.
Qed.

Lemma generations_advance_every_other_firing_witness :
  current (Nat.iter (2 * 1 + 1) (exec (Fire 1)) (exec Start (model_of blinker))) =
    Some (Nat.iter (1 + 1) (step 5 5) blinker) ∧
  current (Nat.iter (2 * 1 + 2) (exec (Fire 1)) (exec Start (model_of blinker))) =
    Some (Nat.iter (1 + 1) (step 5 5) blinker).
Proof.
  refine (generations_advance_every_other_firing no_draws 1 250 5 5
            (exec Start (model_of blinker)) blinker _ _ _ 1%nat).
  - split; [reflexivity |]. split; [reflexivity |]. split; [| split; reflexivity].
    apply (separate_intro _ _ _ [0; 1; 2; 3; 4]%nat [5; 6; 7; 8; 9]%nat);
      try reflexivity; refine (bool_decide_unpack _ _); vm_compute; exact I.
  - lia.
  - reflexivity.
Defined.

(** ** The array handed to the setter *)

(** [start()] on a stopped or running model with separate buffers. *)
Lemma start_ticking (draws : nat → Q) (s : system) (R C : nat) :
  timer_inv s → _tick (this s) = tick draws →
  separate (sys_heap s) (_data (this s)) (_swap (this s)) →
  shape (sys_heap s) (_data (this s)) = Some (replicate R C) →
  shape (sys_heap s) (_swap (this s)) = Some (replicate R C) →
  ticking_model draws (next_handle s) (_interval (this s)) R C false (exec Start s) ∧
  sys_store (exec Start s) = sys_store s ∧
  _data (this (exec Start s)) = _data (this s) ∧
  _swap (this (exec Start s)) = _swap (this s).
Proof.
  intros Hinv Ht Hsep Hd Hs.
  destruct (exec_control Start s Hinv I) as (Hts & _ & _).
  assert (Hsame : sys_store (exec Start s) = sys_store s ∧
                  _data (this (exec Start s)) = _data (this s) ∧
                  _swap (this (exec Start s)) = _swap (this s) ∧
                  _tick (this (exec Start s)) = _tick (this s)).
  { simpl. rewrite start_run, stop_run. simpl. by destruct (started (this s)). }
  destruct Hsame as (Hst & Hd' & Hs' & Ht').
  split; [| done].
  unfold ticking_model, sys_heap. by rewrite Hst, Hd', Hs', Ht'.
Qed.

(** The copy that the setter makes is separate from the array it copies,
    when the rows of that array are distinct objects. *)
Lemma set_state_separate (s : system) (a : loc) (ra : list loc)
    (g : list (list Bit)) :
  h_grids (sys_heap s) !! a = Some ra → NoDup ra →
  matrix_of (sys_heap s) a = Some g →
  let s' := exec (SetState a) s in
  separate (sys_heap s') (_data (this s')) (_swap (this s')) ∧
  _data (this s') = a ∧ _swap (this s') ≠ a ∧
  current s' = Some g ∧ scratch s' = Some g ∧
  _tick (this s') = _tick (this s).
Proof.
  intros Ha Hnd Hg s'. subst s'. simpl.
  destruct (set_state_installs s a g Hg)
    as (s' & Hrun & Hd & Hs & Hc & Hsc & Hrows & Ht & _).
  pose proof (set_state_run s a g Hg) as Hrun'.
  rewrite Hrun. simpl.
  assert (Hgr : h_grids (sys_heap s') !! a = Some ra).
  { rewrite Hrun in Hrun'. injection Hrun' as ->. unfold sys_heap. simpl.
    by apply lookup_app_l_Some. }
  split; [| split; [done |]; split; [| done]].
  - apply (separate_intro _ _ _ ra (seq (length (h_rows (sys_heap s))) (length g)));
      try done.
    + by rewrite Hd.
    + apply NoDup_seq.
    + apply Forall_forall. intros r Hr Hr'%elem_of_seq.
      unfold matrix_of in Hg. rewrite Ha in Hg. simpl in Hg.
      apply mapM_Some in Hg.
      apply list_elem_of_lookup in Hr as (k & Hk).
      destruct (Forall2_lookup_l _ _ _ _ _ Hg Hk) as (row & _ & Hrow).
      apply lookup_lt_Some in Hrow. lia.
  - rewrite Hs. apply lookup_lt_Some in Ha. lia.
Qed.

(** X13. The model writes into the array it is given. After
    [model.state = a] and [start()], with the default [tick] and [a] a
    grid of [R] rows and [C] columns made of distinct rows, the getter
    [state] returns [a] itself; the first firing makes the copy current
    and leaves [a] as it was, and the third firing makes [a] current
    again, overwritten with the second generation. *)
Theorem assigned_array_is_overwritten (draws : nat → Q) (s : system) (a : loc)
    (ra : list loc) (g : list (list Bit)) (R C : nat) :
  timer_inv s → _tick (this s) = tick draws → (1 ≤ R)%nat →
  h_grids (sys_heap s) !! a = Some ra → NoDup ra →
  matrix_of (sys_heap s) a = Some g → rect R C g →
  let s0 := exec Start (exec (SetState a) s) in
  let fire := exec (Fire (next_handle s)) in
  get_state s0 = a ∧
  get_state (fire s0) ≠ a ∧
  matrix_of (sys_heap (fire s0)) a = Some g ∧
  get_state (fire (fire (fire s0))) = a ∧
  matrix_of (sys_heap (fire (fire (fire s0)))) a = Some (step R C (step R C g)).
Proof.
  intros Hinv Ht HR Ha Hnd Hg Hrect s0 fire. subst s0 fire.
  assert (Hen : enabled s (SetState a)).
  { simpl. unfold is_grid. by apply lookup_lt_Some in Ha. }
  pose proof (timer_inv_exec (SetState a) s Hinv Hen) as Hinv1.
  destruct (exec_control (SetState a) s Hinv Hen) as (_ & Hnext & _).
  destruct (set_state_separate s a ra g Ha Hnd Hg)
    as (Hsep & Hd1 & Hs1 & Hc1 & Hsc1 & Ht1).
  set (s1 := exec (SetState a) s) in *.
  destruct (start_ticking draws s1 R C Hinv1) as (Hm0 & Hst0 & Hd0 & Hs0);
    try done.
  { by rewrite Ht1. }
  { apply shape_rect. by exists g. }
  { apply shape_rect. by exists g. }
  rewrite Hnext in Hm0.
  set (s0 := exec Start s1) in *.
  assert (Hc0 : matrix_of (sys_heap s0) (_data (this s0)) = Some g).
  { unfold sys_heap. by rewrite Hst0, Hd0. }
  destruct (fire_ticking draws _ _ R C false s0 g Hm0 HR Hc0)
    as (Hm1 & Hcur1 & Hscr1 & Hdata1 & Hswap1).
  set (f1 := exec (Fire (next_handle s)) s0) in *.
  assert (Hin1 : matrix_of (sys_heap f1) (_swap (this f1)) = Some g) by done.
  destruct (fire_ticking draws _ _ R C true f1 g Hm1 HR Hin1)
    as (Hm2 & Hcur2 & Hscr2 & Hdata2 & Hswap2).
  set (f2 := exec (Fire (next_handle s)) f1) in *.
  destruct (fire_ticking draws _ _ R C false f2 _ Hm2 HR Hcur2)
    as (_ & Hcur3 & _ & Hdata3 & _).
  set (f3 := exec (Fire (next_handle s)) f2) in *.
  unfold get_state. simpl in *.
  split; [congruence |].
  split; [congruence |].
  split; [unfold scratch in Hscr1; congruence |].
  split; [congruence |].
  unfold current in Hcur3. congruence.
Qed.

Lemma assigned_array_is_overwritten_witness :
  let s0 := exec Start (exec (SetState 0%nat) (model_of blinker)) in
  let fire := exec (Fire (next_handle (model_of blinker))) in
  get_state s0 = 0%nat ∧
  get_state (fire s0) ≠ 0%nat ∧
  matrix_of (sys_heap (fire s0)) 0%nat = Some blinker ∧
  get_state (fire (fire (fire s0))) = 0%nat ∧
  matrix_of (sys_heap (fire (fire (fire s0)))) 0%nat =
    Some (step 5 5 (step 5 5 blinker)).
Proof.
  apply (assigned_array_is_overwritten no_draws (model_of blinker) 0%nat
           [0; 1; 2; 3; 4]%nat blinker 5 5).
  - split; [vm_compute; reflexivity |]. split; [| reflexivity].
    vm_compute. apply Forall_nil_2.
  - reflexivity.
  - lia.
  - reflexivity.
  - refine (bool_decide_unpack _ _). vm_compute. exact I.
  - reflexivity.
  - split; [reflexivity |]. repeat constructor.
Defined.

(** ** The torus has no origin *)

Lemma shift_dec (a i n : Z) :
  (a + (i - 1) `mod` n) `mod` n = ((a + i) `mod` n - 1) `mod` n.
Proof. rewrite Zplus_mod_idemp_r, Zminus_mod_idemp_l. f_equal. lia. Qed.

Lemma shift_inc (a i n : Z) :
  (a + (i + 1) `mod` n) `mod` n = ((a + i) `mod` n + 1) `mod` n.
Proof. rewrite Zplus_mod_idemp_r, Zplus_mod_idemp_l. f_equal. lia. Qed.

(** The rule looks at a cell through its neighbourhood only: when [m1]
    is [m2] read [a] rows and [b] columns further round the torus, so
    are its cells after the rule. *)
Lemma cell_rule_shift (m1 m2 : list (list Bit)) (R C a b i j : Z) :
  0 ≤ i < R → 0 ≤ j < C →
  (∀ x y, 0 ≤ x < R → 0 ≤ y < C →
     mread m1 x y = mread m2 ((a + x) `mod` R) ((b + y) `mod` C)) →
  cell_rule m1 (R - 1) (C - 1) i j =
  cell_rule m2 (R - 1) (C - 1) ((a + i) `mod` R) ((b + j) `mod` C).
Proof.
  intros Hi Hj Hread.
  pose proof (Z.mod_pos_bound (a + i) R ltac:(lia)) as Hi'.
  pose proof (Z.mod_pos_bound (b + j) C ltac:(lia)) as Hj'.
  pose proof (Z.mod_pos_bound (i - 1) R ltac:(lia)).
  pose proof (Z.mod_pos_bound (i + 1) R ltac:(lia)).
  pose proof (Z.mod_pos_bound (j - 1) C ltac:(lia)).
  pose proof (Z.mod_pos_bound (j + 1) C ltac:(lia)).
  unfold cell_rule. cbv zeta.
  rewrite (dec_wraps i R), (inc_wraps i R), (dec_wraps j C), (inc_wraps j C) by done.
  rewrite (dec_wraps _ R Hi'), (inc_wraps _ R Hi'),
    (dec_wraps _ C Hj'), (inc_wraps _ C Hj').
  rewrite !Hread by done.
  by rewrite !shift_dec, !shift_inc.
Qed.

Lemma rotate_map_seq {A} (f : nat → A) (n k : nat) :
  rotate k (map f (seq 0 n)) = map (λ i, f (rotate_nat_add k i n)) (seq 0 n).
Proof.
  apply list_eq. intros i. destruct (decide (i < n)%nat) as [Hi | Hi].
  - rewrite lookup_rotate_r by (by rewrite length_map, length_seq).
    rewrite length_map, length_seq.
    assert (rotate_nat_add k i n < n)%nat by (apply rotate_nat_add_lt; lia).
    change (map ?g ?l) with (g <$> l).
    rewrite !list_lookup_fmap, !lookup_seq_lt by done. done.
  - rewrite !lookup_ge_None_2; [done | |].
    + rewrite length_map, length_seq. lia.
    + rewrite length_rotate, length_map, length_seq. lia.
Qed.

Lemma mread_rotate (R C k l : nat) (m : list (list Bit)) (x y : Z) :
  rect R C m → 0 ≤ x < Z.of_nat R → 0 ≤ y < Z.of_nat C →
  mread (rotate k (rotate l <$> m)) x y =
  mread m ((Z.of_nat k + x) `mod` Z.of_nat R) ((Z.of_nat l + y) `mod` Z.of_nat C).
Proof.
  intros [Hlen Hrows] Hx Hy.
  pose proof (Z.mod_pos_bound (Z.of_nat k + x) (Z.of_nat R) ltac:(lia)) as Hx'.
  pose proof (Z.mod_pos_bound (Z.of_nat l + y) (Z.of_nat C) ltac:(lia)) as Hy'.
  unfold mread, zlookup.
  destruct (Z.leb_spec 0 x); [| lia]. destruct (Z.leb_spec 0 y); [| lia].
  destruct (Z.leb_spec 0 ((Z.of_nat k + x) `mod` Z.of_nat R)); [| lia].
  destruct (Z.leb_spec 0 ((Z.of_nat l + y) `mod` Z.of_nat C)); [| lia].
  rewrite lookup_rotate_r by (rewrite length_fmap; lia).
  rewrite length_fmap, list_lookup_fmap, Hlen. unfold rotate_nat_add at 1.
  rewrite Z2Nat.id by lia.
  destruct (lookup_lt_is_Some_2 m (Z.to_nat ((Z.of_nat k + x) `mod` Z.of_nat R))
              ltac:(lia)) as [row Hrow].
  rewrite Hrow. simpl.
  assert (Hrl : length row = C).
  { apply (proj1 (Forall_forall _ _) Hrows). by eapply list_elem_of_lookup_2. }
  rewrite lookup_rotate_r by lia. rewrite Hrl. unfold rotate_nat_add.
  by rewrite Z2Nat.id by lia.
Qed.

(** Stepping commutes with turning the torus by [k] rows and [l]
    columns. *)
Lemma step_rotate (R C k l : nat) (m : list (list Bit)) :
  rect R C m →
  step R C (rotate k (rotate l <$> m)) = rotate k (rotate l <$> step R C m).
Proof.
  intros Hrect. unfold step at 2.
  change (rotate l <$> map ?f ?s) with (map (rotate l) (map f s)).
  rewrite map_map, rotate_map_seq. unfold step.
  apply map_ext_in. intros i [_ Hi]%in_seq.
  rewrite rotate_map_seq. apply map_ext_in. intros j [_ Hj]%in_seq.
  rewrite (cell_rule_shift _ m (Z.of_nat R) (Z.of_nat C) (Z.of_nat k) (Z.of_nat l))
    by (lia || intros; by apply mread_rotate).
  unfold rotate_nat_add.
  rewrite !Z2Nat.id; [done | |]; apply Z.mod_pos_bound; lia.
Qed.

(** X14. The torus has no origin: without fluctuation, [tick] commutes
    with turning the grid. If a second input holds the generation of the
    first turned by [k] rows and [l] columns (row [i] of it is row
    [i + k] of the first, wrapping round, and likewise for columns),
    then the second output is the first output turned in the same way. *)
Theorem tick_commutes_with_turning_the_torus (draws : nat → Q)
    (fluctuation : option Q) (R C k l : nat) (m : list (list Bit))
    (h1 h2 : heap) (n1 n2 : nat) (in1 out1 in2 out2 : loc) :
  (default 0 fluctuation == 0)%Q → (1 ≤ R)%nat →
  buffers h1 in1 out1 m R C →
  buffers h2 in2 out2 (rotate k (rotate l <$> m)) R C →
  ∃ h1' h2' m',
    tick draws in1 out1 fluctuation (Store h1 n1) = (Return tt, Store h1' n1) ∧
    tick draws in2 out2 fluctuation (Store h2 n2) = (Return tt, Store h2' n2) ∧
    matrix_of h1' out1 = Some m' ∧
    matrix_of h2' out2 = Some (rotate k (rotate l <$> m')).
Proof.
  intros Hfl%qtruthy_zero HR Hb1 Hb2.
  destruct (tick_run draws fluctuation h1 n1 in1 out1 _ R C Hb1 HR)
    as (h1' & Hrun1 & _ & _ & _ & Hout1 & _).
  destruct (tick_run draws fluctuation h2 n2 in2 out2 _ R C Hb2 HR)
    as (h2' & Hrun2 & _ & _ & _ & Hout2 & _).
  exists h1', h2', (step R C m).
  rewrite Hrun1, Hrun2, Hout1, Hout2. unfold draws_per_cell. rewrite Hfl.
  rewrite !next_generation_step by done.
  rewrite (step_rotate R C k l m) by apply Hb1.
  repeat split; do 2 f_equal; lia.
Qed.

Lemma tick_commutes_with_turning_the_torus_witness :
  ∃ h1' h2' m',
    tick no_draws 0%nat 1%nat None (store_of2 diagonal blank) =
      (Return tt, Store h1' 0) ∧
    tick no_draws 0%nat 1%nat None
      (Store (st_heap (store_of2 (rotate 1 (rotate 2 <$> diagonal)) blank)) 0) =
      (Return tt, Store h2' 0) ∧
    matrix_of h1' 1%nat = Some m' ∧
    matrix_of h2' 1%nat = Some (rotate 1 (rotate 2 <$> m')).
Proof.
  apply (tick_commutes_with_turning_the_torus no_draws None 3 3 1 2 diagonal
           (st_heap (store_of2 diagonal blank))
           (st_heap (store_of2 (rotate 1 (rotate 2 <$> diagonal)) blank))
           0 0 0 1 0 1)%nat.
  - reflexivity.
  - lia.
  - exact sample_buffers.
  - apply (buffers_intro _ 0%nat 1%nat [0; 1; 2]%nat [3; 4; 5]%nat
             (rotate 1 (rotate 2 <$> diagonal)) blank); try reflexivity.
    + refine (bool_decide_unpack _ _). vm_compute. exact I.
    + refine (bool_decide_unpack _ _). vm_compute. exact I.
Defined.

(** ** Noise *)

Lemma qtruthy_nonzero (q : Q) : ¬ (q == 0)%Q → qtruthy q = true.
Proof.
  intros H. unfold qtruthy. destruct (Qeq_bool q 0) eqn:E; [| done].
  by apply Qeq_bool_iff in E.
Qed.

Lemma Qltb_lt (d q : Q) : Qltb d q = true ↔ (d < q)%Q.
Proof.
  split; [| apply Qltb_true_lt].
  unfold Qltb. destruct (Qle_bool q d) eqn:E; [done |]. intros _.
  apply Qnot_le_lt. intros H. apply Qle_bool_iff in H. congruence.
Qed.

Lemma flipped_iff (b : Bit) (c : bool) :
  (if c then flip b else b) ≠ b ↔ c = true.
Proof. by destruct b, c. Qed.

(** X15. Noise, for a fluctuation that is a number other than zero
    (the fluctuation of the model is a rational: [NaN], which is falsy
    and makes [tick] draw nothing, is not among them). [tick] then calls
    [Math.random] exactly once per cell, row by row, and the cell
    [(i, j)] it writes differs from the one it writes without
    fluctuation exactly when draw number [i * columns + j] is below the
    fluctuation. No range is checked: a fluctuation that no draw is
    below (a negative one, draws being in [[0, 1)]) is truthy, so the
    draws are made, and the output is that of the run without
    fluctuation. *)
Theorem tick_noise_draws_once_per_cell (draws : nat → Q) (fl : Q)
    (h : heap) (n0 : nat) (input output : loc) (m : list (list Bit))
    (R C : nat) :
  ¬ (fl == 0)%Q → (1 ≤ R)%nat → buffers h input output m R C →
  ∃ h0 h1,
    tick draws input output None (Store h n0) = (Return tt, Store h0 n0) ∧
    tick draws input output (Some fl) (Store h n0) =
      (Return tt, Store h1 (n0 + R * C)) ∧
    matrix_of h1 input = Some m ∧
    (∀ i j, (i < R)%nat → (j < C)%nat →
       ∃ b b',
         index2 h0 output (Z.of_nat i) (Z.of_nat j) = Return (VBit b) ∧
         index2 h1 output (Z.of_nat i) (Z.of_nat j) = Return (VBit b') ∧
         (b' ≠ b ↔ (draws (n0 + i * C + j)%nat < fl)%Q)) ∧
    ((∀ n, (fl <= draws n)%Q) → matrix_of h1 output = matrix_of h0 output).
Proof.
  intros Hq%qtruthy_nonzero HR Hb.
  destruct (tick_run draws None h n0 input output m R C Hb HR)
    as (h0 & Hrun0 & _ & _ & _ & Hout0 & _).
  destruct (tick_run draws (Some fl) h n0 input output m R C Hb HR)
    as (h1 & Hrun1 & _ & _ & Hin1 & Hout1 & _).
  simpl in *. exists h0, h1.
  assert (Hcell : ∀ i j,
            out_cell draws fl n0 m R C i j =
            (if Qltb (draws (n0 + i * C + j)%nat) fl
             then flip (out_cell draws 0 n0 m R C i j)
             else out_cell draws 0 n0 m R C i j)).
  { intros i j. unfold out_cell, written, draws_per_cell. rewrite Hq.
    change (qtruthy 0) with false. cbv iota.
    by replace (n0 + 1 * (i * C + j))%nat with (n0 + i * C + j)%nat by lia. }
  split; [| split; [| split; [done | split]]].
  - rewrite Hrun0. change (draws_per_cell 0) with 0%nat. do 2 f_equal. lia.
  - rewrite Hrun1. unfold draws_per_cell. rewrite Hq. do 2 f_equal. lia.
  - intros i j Hi Hj.
    exists (out_cell draws 0 n0 m R C i j), (out_cell draws fl n0 m R C i j).
    split; [by apply index2_next_generation |].
    split; [by apply index2_next_generation |].
    rewrite Hcell, flipped_iff. apply Qltb_lt.
  - intros Hd. rewrite Hout0, Hout1. f_equal.
    unfold next_generation, out_row.
    apply map_ext. intros i. apply map_ext. intros j.
    by rewrite Hcell, Qltb_false_le.
Qed.

Lemma tick_noise_draws_once_per_cell_witness :
  ∃ h0 h1,
    tick no_draws 0%nat 1%nat None (store_of2 diagonal blank) =
      (Return tt, Store h0 0) ∧
    tick no_draws 0%nat 1%nat (Some (1 # 2)) (store_of2 diagonal blank) =
      (Return tt, Store h1 (0 + 3 * 3)) ∧
    matrix_of h1 0%nat = Some diagonal ∧
    (∀ i j, (i < 3)%nat → (j < 3)%nat →
       ∃ b b',
         index2 h0 1%nat (Z.of_nat i) (Z.of_nat j) = Return (VBit b) ∧
         index2 h1 1%nat (Z.of_nat i) (Z.of_nat j) = Return (VBit b') ∧
         (b' ≠ b ↔ (no_draws (0 + i * 3 + j)%nat < 1 # 2)%Q)) ∧
    ((∀ n, (1 # 2 <= no_draws n)%Q) → matrix_of h1 1%nat = matrix_of h0 1%nat).
Proof.
  apply (tick_noise_draws_once_per_cell no_draws (1 # 2)
           (st_heap (store_of2 diagonal blank)) 0 0 1 diagonal 3 3)%nat.
  - intros H. discriminate H.
  - lia.
  - exact sample_buffers.
Defined.

(** ** An output with fewer rows than the input *)

Lemma for_from_split {St} (a b : nat) (body : Z → M St unit) (k : Z) (s : St) :
  for_from k (a + b) body s =
  (for_from k a body;; for_from (k + Z.of_nat a) b body) s.
Proof.
  revert k s. induction a as [| a IH]; intros k s.
  - simpl. unfold bind, ret. by rewrite Z.add_0_r.
  - change (S a + b)%nat with (S (a + b)).
    change (for_from k (S (a + b)) body s)
      with ((body k;; for_from (k + 1) (a + b) body) s).
    change (for_from k (S a) body) with (body k;; for_from (k + 1) a body).
    unfold bind. destruct (body k s) as [[[] | e |] s1]; try done.
    rewrite IH. unfold bind.
    by replace (k + 1 + Z.of_nat a) with (k + Z.of_nat (S a)) by lia.
Qed.

Section TickPrefix.

Context (draws : nat → Q) (fl : Q) (n0 : nat).
Context (input output : loc) (rin rout : list loc) (m : list (list Bit)).
Context (R C K : nat).
Hypothesis Hrect : rect R C m.
Hypothesis HKR : (K ≤ R)%nat.
Hypothesis HKout : (K ≤ length rout)%nat.
Hypothesis Hdistinct : NoDup rout.
Hypothesis Hapart : ∀ r, r ∈ rin → r ∈ rout → False.

Local Abbreviation ticking := (ticking input output rin rout m C).
Local Abbreviation dpc := (draws_per_cell fl).
Local Abbreviation body x :=
  (λ j, tick_cell draws input output fl (Z.of_nat R - 1) (Z.of_nat C - 1) x j).

(** The inner loop on a row that the output has. *)
Lemma tick_row_prefix (x : nat) (r : loc) (d : nat) :
  ∀ (k : nat) (h : heap) (cells : list Bit),
  ticking h → (x < K)%nat → rout !! x = Some r →
  h_rows h !! r = Some cells → length cells = C → (k + d = C)%nat →
  ∃ cells',
    for_from (Z.of_nat k) d (body (Z.of_nat x))
      (Store h (n0 + dpc * (x * C + k))) =
    (Return tt,
     Store (set_rows h (<[r := cells']> (h_rows h))) (n0 + dpc * (x * C + C))) ∧
    length cells' = C ∧
    (∀ j, (j < k)%nat → cells' !! j = cells !! j) ∧
    (∀ j, (k ≤ j < C)%nat → cells' !! j = Some (out_cell draws fl n0 m R C x j)).
Proof.
  induction d as [| d IH]; intros k h cells Ht Hx Hr Hc Hl Hk.
  - exists cells. simpl. unfold ret. replace k with C by lia.
    rewrite list_insert_id by done. destruct h.
    repeat split; [done | lia].
  - simpl. unfold bind at 1.
    rewrite (tick_cell_run draws fl input output rin rout m R C Hrect
               h _ x k r cells) by (done || lia).
    set (v := written _ _ _ _).
    set (h1 := set_rows h _).
    assert (Hin : r ∈ rout) by (by eapply list_elem_of_lookup_2).
    assert (Hr1 : h_rows h1 !! r = Some (<[k := v]> cells)).
    { simpl. apply list_lookup_insert_eq. by eapply lookup_lt_Some. }
    destruct (IH (S k) h1 (<[k := v]> cells)) as (cells' & Hrun & Hl' & Hlo & Hhi);
      try done.
    { apply (ticking_insert _ _ _ _ _ _ Hapart); [done .. |].
      by rewrite length_insert. }
    { by rewrite length_insert. }
    { lia. }
    exists cells'. split; [| split; [done | split]].
    + replace (Z.of_nat k + 1) with (Z.of_nat (S k)) by lia.
      replace (n0 + dpc * (x * C + k) + dpc)%nat
        with (n0 + dpc * (x * C + S k))%nat by lia.
      rewrite Hrun. subst h1. unfold set_rows. simpl.
      by rewrite list_insert_insert_eq.
    + intros j Hj. rewrite Hlo by lia. apply list_lookup_insert_ne. lia.
    + intros j Hj. destruct (decide (j = k)) as [-> |].
      * rewrite Hlo by lia. rewrite list_lookup_insert_eq by lia. done.
      * apply Hhi. lia.
Qed.

(** The outer loop over the first [K] rows. *)
Lemma tick_rows_prefix (d : nat) :
  ∀ (i : nat) (h : heap),
  ticking h → (i + d = K)%nat →
  ∃ h',
    for_from (Z.of_nat i) d (λ x, for_lt (Z.of_nat C) (body x))
      (Store h (n0 + dpc * (i * C))) =
    (Return tt, Store h' (n0 + dpc * (K * C))) ∧
    ticking h' ∧
    h_grids h' = h_grids h ∧
    length (h_rows h') = length (h_rows h) ∧
    (∀ r, r ∉ drop i (take K rout) → h_rows h' !! r = h_rows h !! r) ∧
    (∀ x r, (i ≤ x < K)%nat → rout !! x = Some r →
       h_rows h' !! r = Some (out_row draws fl n0 m R C x)).
Proof.
  induction d as [| d IH]; intros i h Ht Hi.
  - exists h. simpl. unfold ret. replace i with K by lia.
    split; [done |]. split; [done |]. repeat split; try done.
    intros x r Hx Hr. lia.
  - simpl. unfold bind at 1.
    destruct (lookup_lt_is_Some_2 rout i) as [r Hr]; [lia |].
    assert (Hin : r ∈ rout) by (by eapply list_elem_of_lookup_2).
    destruct Ht as (Hgi & Hgo & Hf & Hc).
    destruct (proj1 (Forall_forall _ _) Hc r Hin) as (cells & Hcells & Hl).
    destruct (tick_row_prefix i r C 0%nat h cells) as (cells' & Hrun & Hl' & _ & Hnew);
      try done; try lia.
    rewrite for_lt_of_nat. change (Z.of_nat 0) with 0 in Hrun.
    replace (i * C + 0)%nat with (i * C)%nat in Hrun by lia.
    rewrite Hrun. set (h1 := set_rows h _).
    destruct (IH (S i) h1) as (h' & Hrun' & Ht' & Hg' & Hlen' & Hout & Hrows).
    { apply (ticking_insert _ _ _ _ _ _ Hapart); done. }
    { lia. }
    assert (Hcells' : cells' = out_row draws fl n0 m R C i).
    { apply list_eq. intros j. unfold out_row.
      destruct (decide (j < C)%nat).
      - rewrite Hnew by lia. rewrite list_lookup_fmap, lookup_seq_lt by done. done.
      - rewrite !lookup_ge_None_2; [done | |]; rewrite ?length_map, ?length_seq; lia. }
    assert (Hri : take K rout !! i = Some r) by (rewrite lookup_take_lt; [done | lia]).
    assert (Hfresh : r ∉ drop (S i) (take K rout)).
    { intros (j & Hj)%list_elem_of_lookup_1. rewrite lookup_drop in Hj.
      apply lookup_take_Some in Hj as [Hj _].
      pose proof (NoDup_lookup _ _ _ _ Hdistinct Hr Hj). lia. }
    exists h'. split; [| split; [done | split; [done | split; [| split]]]].
    + replace (Z.of_nat i + 1) with (Z.of_nat (S i)) by lia.
      replace (n0 + dpc * (i * C + C))%nat with (n0 + dpc * (S i * C))%nat by lia.
      done.
    + rewrite Hlen'. simpl. by rewrite length_insert.
    + intros r' Hr'. rewrite Hout.
      * simpl. apply list_lookup_insert_ne. intros <-. apply Hr'.
        apply list_elem_of_lookup_2 with 0%nat. rewrite lookup_drop.
        by rewrite Nat.add_0_r.
      * intros Hd. apply Hr'. rewrite (drop_S _ r i Hri). by right.
    + intros x r' Hx Hr'. destruct (decide (x = i)) as [-> |].
      * assert (r' = r) as -> by congruence.
        rewrite Hout by done. simpl. rewrite list_lookup_insert_eq; [by subst |].
        by eapply lookup_lt_Some.
      * apply Hrows; [lia | done].
Qed.

(** A cell of a row that the output does not have: the cell is computed,
    and drawn for, before [output[i][j] = cell] throws. *)
Lemma tick_cell_no_row (h : heap) (n x : nat) (y : Z) :
  ticking h → (x < R)%nat → rout !! x = None →
  tick_cell draws input output fl (Z.of_nat R - 1) (Z.of_nat C - 1)
    (Z.of_nat x) y (Store h n) =
  (Throw TypeError, Store h (n + dpc)).
Proof.
  intros Ht Hx Hr.
  assert (Hread : ∀ x' y', 0 ≤ x' < Z.of_nat R →
            read_heap (λ h0, index2 h0 input x' y') (Store h n) =
            (Return (mread m x' y'), Store h n)).
  { intros. unfold read_heap, reads. simpl.
    by rewrite (ticking_read input output rin rout m R C Hrect). }
  pose proof (dec_range (Z.of_nat x) (Z.of_nat R) ltac:(lia)) as Hd.
  pose proof (inc_range (Z.of_nat x) (Z.of_nat R) ltac:(lia)) as Hi.
  unfold tick_cell. cbv zeta. unfold bind at 1.
  rewrite Hread by lia.
  do 8 (unfold bind at 1; rewrite Hread by (done || lia)).
  unfold bind at 1. rewrite fluctuate_run.
  unfold on_heap, assign2, grid_row. simpl.
  destruct Ht as (_ & -> & _ & _).
  by rewrite zlookup_of_nat, Hr.
Qed.

End TickPrefix.

(** What [tick] does before and around its loops, on an input holding
    a generation of [R] rows and [C] columns. *)
Lemma tick_loops (draws : nat → Q) (fluctuation : option Q) (h : heap) (n0 : nat)
    (input output : loc) (m : list (list Bit)) (R C : nat) :
  matrix_of h input = Some m → rect R C m → (1 ≤ R)%nat →
  tick draws input output fluctuation (Store h n0) =
  for_from 0 R (λ x, for_lt (Z.of_nat C)
    (λ j, tick_cell draws input output (default 0%Q fluctuation)
            (Z.of_nat R - 1) (Z.of_nat C - 1) x j)) (Store h n0).
Proof.
  intros (rin & Hgi & Hfi)%matrix_of_Some Hrect HR.
  unfold tick. unfold bind at 1, read_heap at 1, reads, grid_length.
  simpl. rewrite Hgi.
  unfold bind at 1, read_heap at 1, reads, row_length, grid_row. simpl.
  rewrite Hgi.
  destruct (lookup_lt_is_Some_2 rin 0%nat) as [r0 Hr0].
  { rewrite (Forall2_length _ _ _ Hfi). destruct Hrect as [-> _]. lia. }
  destruct (Forall2_lookup_l _ _ _ _ _ Hfi Hr0) as (row0 & Hrow0 & Hrr0).
  change (zlookup rin 0) with (rin !! 0%nat). rewrite Hr0, Hrr0.
  replace (zlength rin) with (Z.of_nat R).
  2:{ unfold zlength. rewrite (Forall2_length _ _ _ Hfi).
      by destruct Hrect as [-> _]. }
  replace (zlength row0) with (Z.of_nat C).
  2:{ unfold zlength. by rewrite (rect_lookup R C m 0 row0 Hrect Hrow0). }
  by rewrite for_lt_of_nat.
Qed.

Lemma ticking_intro (h : heap) (input output : loc) (rin rout : list loc)
    (m m' : list (list Bit)) (K C : nat) :
  h_grids h !! input = Some rin → h_grids h !! output = Some rout →
  Forall2 (λ r row, h_rows h !! r = Some row) rin m →
  Forall2 (λ r row, h_rows h !! r = Some row) rout m' →
  rect K C m' →
  ticking input output rin rout m C h.
Proof.
  intros Hgi Hgo Hfi Hfo Hrect'. repeat split; try done.
  apply Forall_forall. intros r Hr.
  apply list_elem_of_lookup_1 in Hr as [x Hx].
  destruct (Forall2_lookup_l _ _ _ _ _ Hfo Hx) as (row & Hrow & Hr).
  exists row. split; [done |]. by eapply rect_lookup.
Qed.

(** X16. [tick] can fail midway. It never looks at the dimensions of
    the output; when the output has [K] rows of [C] cells and the input
    more, [tick] fills those [K] rows with the first [K] rows of the next
    generation and then throws the [TypeError] of [output[K][0] = cell],
    after the draw for that cell, if any. The rows written stay
    written. *)
Theorem tick_short_output_throws_midway (draws : nat → Q)
    (fluctuation : option Q) (h : heap) (n0 : nat) (input output : loc)
    (m m' : list (list Bit)) (R C K : nat) :
  let fl := default 0%Q fluctuation in
  separate h input output →
  matrix_of h input = Some m → rect R C m →
  matrix_of h output = Some m' → rect K C m' →
  (K < R)%nat → (1 ≤ C)%nat →
  ∃ h',
    tick draws input output fluctuation (Store h n0) =
      (Throw TypeError, Store h' (n0 + draws_per_cell fl * (K * C + 1))) ∧
    matrix_of h' input = Some m ∧
    matrix_of h' output = Some (take K (next_generation draws fl n0 m R C)).
Proof.
  intros fl (ra & rb & Hga & Hgb & _ & Hnb & Hd) Hin Hrect Hout Hrect' HK HC.
  rewrite (tick_loops draws fluctuation h n0 input output m R C Hin Hrect)
    by lia.
  fold fl.
  apply matrix_of_Some in Hin as (rin & Hgi & Hfi).
  apply matrix_of_Some in Hout as (rout & Hgo & Hfo).
  assert (rin = ra) as -> by congruence.
  assert (rout = rb) as -> by congruence.
  assert (Hlen : length rb = K).
  { rewrite (Forall2_length _ _ _ Hfo). apply Hrect'. }
  pose proof (ticking_intro h input output ra rb m m' K C Hgi Hgo Hfi Hfo Hrect')
    as Ht.
  destruct (tick_rows_prefix draws fl n0 input output ra rb m R C K
              Hrect ltac:(lia) ltac:(lia) Hnb Hd K 0%nat h Ht eq_refl)
    as (h1 & Hrun & Ht1 & Hg & Hl & Hother & Hrows).
  replace (n0 + draws_per_cell fl * (0 * C))%nat with n0 in Hrun by lia.
  exists h1. split; [| split].
  - replace R with (K + S (R - K - 1))%nat at 1 by lia.
    rewrite for_from_split. unfold bind at 1.
    change (Z.of_nat 0) with 0 in Hrun. rewrite Hrun.
    simpl for_from. unfold bind at 1. rewrite for_lt_of_nat.
    destruct C as [| c]; [lia |]. simpl for_from. unfold bind at 1.
    rewrite Z.add_0_l.
    rewrite (tick_cell_no_row draws fl input output ra rb m R (S c) K
               Hrect ltac:(lia) ltac:(lia) h1 _ K 0 Ht1 HK).
    + do 2 f_equal. lia.
    + apply lookup_ge_None_2. lia.
  - by eapply ticking_matrix.
  - apply matrix_of_Some. exists rb. split; [by rewrite Hg |].
    apply Forall2_same_length_lookup_2.
    { rewrite length_take. unfold next_generation.
      rewrite length_map, length_seq. lia. }
    intros x r row Hr [Hrow Hx]%lookup_take_Some.
    rewrite (Hrows x r ltac:(lia) Hr). f_equal.
    unfold next_generation in Hrow. rewrite list_lookup_fmap in Hrow.
    rewrite lookup_seq_lt in Hrow; [by inversion Hrow | lia].
Qed.

Lemma tick_short_output_throws_midway_witness :
  ∃ h',
    tick no_draws 0%nat 1%nat None (store_of2 diagonal (take 2 blank)) =
      (Throw TypeError, Store h' (0 + draws_per_cell 0 * (2 * 3 + 1))) ∧
    matrix_of h' 0%nat = Some diagonal ∧
    matrix_of h' 1%nat = Some (take 2 (next_generation no_draws 0 0 diagonal 3 3)).
Proof.
  apply (tick_short_output_throws_midway no_draws None
           (st_heap (store_of2 diagonal (take 2 blank))) 0 0 1
           diagonal (take 2 blank) 3 3 2)%nat.
  - apply (separate_intro _ _ _ [0; 1; 2]%nat [3; 4]%nat);
      try reflexivity; refine (bool_decide_unpack _ _); vm_compute; exact I.
  - reflexivity.
  - split; [reflexivity |]. repeat constructor.
  - reflexivity.
  - split; [reflexivity |]. repeat constructor.
  - lia.
  - lia.
Defined.

(** X17. When the output has more rows than the input, [tick] returns
    having filled the first [R] rows with the next generation; the rows
    beyond are left as they were, so that the output is not a generation
    of the input's dimensions. *)
Theorem tick_long_output_keeps_extra_rows (draws : nat → Q)
    (fluctuation : option Q) (h : heap) (n0 : nat) (input output : loc)
    (m m' : list (list Bit)) (R C K : nat) :
  let fl := default 0%Q fluctuation in
  separate h input output →
  matrix_of h input = Some m → rect R C m →
  matrix_of h output = Some m' → rect K C m' →
  (1 ≤ R)%nat → (R ≤ K)%nat →
  ∃ h',
    tick draws input output fluctuation (Store h n0) =
      (Return tt, Store h' (n0 + draws_per_cell fl * (R * C))) ∧
    matrix_of h' input = Some m ∧
    matrix_of h' output =
      Some (next_generation draws fl n0 m R C ++ drop R m').
Proof.
  intros fl (ra & rb & Hga & Hgb & _ & Hnb & Hd) Hin Hrect Hout Hrect' HR HK.
  rewrite (tick_loops draws fluctuation h n0 input output m R C Hin Hrect)
    by lia.
  fold fl.
  apply matrix_of_Some in Hin as (rin & Hgi & Hfi).
  apply matrix_of_Some in Hout as (rout & Hgo & Hfo).
  assert (rin = ra) as -> by congruence.
  assert (rout = rb) as -> by congruence.
  assert (Hlen : length rb = K).
  { rewrite (Forall2_length _ _ _ Hfo). apply Hrect'. }
  pose proof (ticking_intro h input output ra rb m m' K C Hgi Hgo Hfi Hfo Hrect')
    as Ht.
  destruct (tick_rows_prefix draws fl n0 input output ra rb m R C R
              Hrect ltac:(lia) ltac:(lia) Hnb Hd R 0%nat h Ht eq_refl)
    as (h1 & Hrun & Ht1 & Hg & Hl & Hother & Hrows).
  replace (n0 + draws_per_cell fl * (0 * C))%nat with n0 in Hrun by lia.
  exists h1. split; [exact Hrun | split].
  - by eapply ticking_matrix.
  - apply matrix_of_Some. exists rb. split; [by rewrite Hg |].
    assert (Hng : length (next_generation draws fl n0 m R C) = R).
    { unfold next_generation. by rewrite length_map, length_seq. }
    apply Forall2_same_length_lookup_2.
    { rewrite length_app, length_drop, Hng. destruct Hrect' as [-> _]. lia. }
    intros x r row Hr Hrow.
    destruct (decide (x < R)%nat) as [Hx | Hx].
    + rewrite lookup_app_l in Hrow by lia.
      rewrite (Hrows x r ltac:(lia) Hr). f_equal.
      unfold next_generation in Hrow. rewrite list_lookup_fmap in Hrow.
      rewrite lookup_seq_lt in Hrow; [by inversion Hrow | lia].
    + rewrite lookup_app_r in Hrow by lia. rewrite Hng, lookup_drop in Hrow.
      replace (R + (x - R))%nat with x in Hrow by lia.
      rewrite Hother.
      * exact (Forall2_lookup_lr _ _ _ _ _ _ Hfo Hr Hrow).
      * rewrite drop_0. intros (j & [Hj Hlt]%lookup_take_Some)%list_elem_of_lookup_1.
        pose proof (NoDup_lookup _ _ _ _ Hnb Hr Hj). lia.
Qed.

Lemma tick_long_output_keeps_extra_rows_witness :
  ∃ h',
    tick no_draws 0%nat 1%nat None (store_of2 (take 2 diagonal) diagonal) =
      (Return tt, Store h' (0 + draws_per_cell 0 * (2 * 3))) ∧
    matrix_of h' 0%nat = Some (take 2 diagonal) ∧
    matrix_of h' 1%nat =
      Some (next_generation no_draws 0 0 (take 2 diagonal) 2 3 ++ drop 2 diagonal).
Proof.
  apply (tick_long_output_keeps_extra_rows no_draws None
           (st_heap (store_of2 (take 2 diagonal) diagonal)) 0 0 1
           (take 2 diagonal) diagonal 2 3 3)%nat.
  - apply (separate_intro _ _ _ [0; 1]%nat [2; 3; 4]%nat);
      try reflexivity; refine (bool_decide_unpack _ _); vm_compute; exact I.
  - reflexivity.
  - split; [reflexivity |]. repeat constructor.
  - reflexivity.
  - split; [reflexivity |]. repeat constructor.
  - lia.
  - lia.
Defined.

(** ** What is fixed at construction *)

Lemma set_state_keeps_tick (s : system) (a : loc) :
  _tick (this (set_state a s).2) = _tick (this s).
Proof.
  destruct (matrix_of (sys_heap s) a) as [m |] eqn:Hm.
  - rewrite (set_state_run s a m Hm). simpl. rewrite stop_run.
    by destruct (started (this s)).
  - rewrite (set_state_stuck s a Hm). simpl. rewrite stop_run.
    by destruct (started (this s)).
Qed.

(** No operation assigns [_interval] or [_tick]. *)
Lemma exec_keeps_config (o : op) (s : system) :
  enabled s o →
  _interval (this (exec o s)) = _interval (this s) ∧
  _tick (this (exec o s)) = _tick (this s).
Proof.
  intros Hen. destruct o as [| | a | id | cells | rows]; simpl.
  - rewrite start_run, stop_run. simpl. by destruct (started (this s)).
  - rewrite stop_run. by destruct (started (this s)).
  - by rewrite set_state_keeps_interval, set_state_keeps_tick.
  - destruct (interval_callback_state id s Hen) as (sw & log & -> & _).
    simpl. by destruct sw.
  - done.
  - done.
Qed.

Lemma exec_delays (o : op) (s : system) (d : Z) :
  timer_inv s → enabled s o → _interval (this s) = d →
  Forall (λ t, delay t = d) (timers s) →
  Forall (λ t, delay t = d) (timers (exec o s)).
Proof.
  intros Hinv Hen Hi Hall. pose proof (exec_control o s Hinv Hen) as Hc.
  destruct o as [| | a | id | cells | rows].
  - destruct Hc as (-> & _). apply Forall_singleton. done.
  - destruct Hc as (-> & _). apply Forall_nil_2.
  - destruct Hc as (-> & _). apply Forall_nil_2.
  - destruct (interval_callback_state id s Hen) as (sw & log & Hs & _).
    simpl. rewrite Hs. simpl. apply Forall_forall.
    intros t (t' & -> & Ht')%list_elem_of_fmap_1.
    pose proof (proj1 (Forall_forall _ _) Hall t' Ht') as Hd.
    by destruct (decide (handle t' = id)).
  - done.
  - done.
Qed.

(** What the constructor leaves. *)
Lemma new_Model_config (draws : nat → Q) (options : IOptions) (st : store) :
  let s0 := (new_Model draws options st).2 in
  timer_inv s0 ∧ timers s0 = [] ∧
  _interval (this s0) = interval_of options ∧
  _tick (this s0) = default (tick draws) (tick_option options) ∧
  st_draws (sys_store s0) =
    (st_draws st + match initial options with Some _ => 0 | None => 1600 end)%nat.
Proof.
  intros s0. subst s0. unfold new_Model. fold (interval_of options).
  unfold bind.
  assert (Hset : ∀ a s n, timers s = [] → next_handle s = 1 →
            _started (this s) = None →
            _interval (this s) = interval_of options →
            _tick (this s) = default (tick draws) (tick_option options) →
            st_draws (sys_store s) = n →
            timer_inv (set_state a s).2 ∧ timers (set_state a s).2 = [] ∧
            _interval (this (set_state a s).2) = interval_of options ∧
            _tick (this (set_state a s).2) =
              default (tick draws) (tick_option options) ∧
            st_draws (sys_store (set_state a s).2) = n).
  { intros a s n Hts Hn Hst Hi Ht Hdr. split; [by apply set_state_fresh |].
    destruct (set_state_control s a) as (-> & _ & _).
    destruct (set_state_frame s a) as (_ & ->).
    rewrite set_state_keeps_interval, set_state_keeps_tick.
    rewrite stop_not_started; [done |]. unfold started. by rewrite Hst. }
  destruct (initial options) as [a |].
  - unfold ret. apply Hset; try done.
  - unfold on_store. cbn [sys_store]. destruct st as [h n0].
    rewrite random_run_spec. by apply Hset.
Qed.

(** X18. The configuration of a model is fixed at construction. In
    every state of a run, [_interval] is [options.interval || 250] and
    [_tick] is [options.tick || Model.tick], and every interval that is
    active was registered with that delay: no operation of the model
    changes the speed or the rule of a model once built. *)
Theorem configuration_is_fixed_at_construction (draws : nat → Q) (st : store)
    (options : IOptions) (s0 s : system) :
  constructed draws st options s0 → steps any_state s0 s →
  _interval (this s) = interval_of options ∧
  _tick (this s) = default (tick draws) (tick_option options) ∧
  Forall (λ t, delay t = interval_of options) (timers s).
Proof.
  intros Hc Hsteps.
  assert (H0 : timer_inv s0 ∧ timers s0 = [] ∧
               _interval (this s0) = interval_of options ∧
               _tick (this s0) = default (tick draws) (tick_option options)).
  { destruct Hc as (_ & _ & ->).
    destruct (new_Model_config draws options st) as (? & ? & ? & ? & _). done. }
  clear Hc. destruct H0 as (Hinv0 & Hts0 & Hi0 & Ht0).
  induction Hsteps as [s0 | s0 s' o Hsteps IH Hen _].
  - rewrite Hts0. by repeat split.
  - specialize (IH Hinv0 Hts0 Hi0 Ht0) as (Hi & Ht & Hall).
    destruct (exec_keeps_config o s' Hen) as (-> & ->).
    repeat split; try done.
    apply exec_delays; try done. by apply (steps_timer_inv _ _ _ Hsteps).
Qed.

Lemma configuration_is_fixed_at_construction_witness :
  let options := MkOptions (Some 0%nat) None None in
  let s := exec (Fire 1) (exec Start (model_of blinker)) in
  _interval (this s) = interval_of options ∧
  _tick (this s) = default (tick no_draws) (tick_option options) ∧
  Forall (λ t, delay t = interval_of options) (timers s).
Proof.
  apply (configuration_is_fixed_at_construction no_draws (store_of blinker)
           (MkOptions (Some 0%nat) None None) (model_of blinker)).
  - apply model_of_constructed.
  - apply steps_step; [apply steps_step; [apply steps_refl | exact I | done] | | done].
    unfold enabled. refine (bool_decide_unpack _ _). vm_compute. exact I.
Defined.

(** ** [Math.random] after construction *)

Lemma tick_quiet (draws : nat → Q) (input output : loc) (fluctuation : option Q) :
  qtruthy (default 0%Q fluctuation) = false →
  quiet (tick draws input output fluctuation).
Proof.
  intros H. unfold tick.
  do 2 (apply quiet_bind; [apply quiet_read_heap | intros ?]).
  unfold for_lt. apply quiet_for_from. intros k.
  apply quiet_for_from. intros k'. by apply tick_cell_quiet.
Qed.

Lemma exec_keeps_draws (draws : nat → Q) (o : op) (s : system) :
  enabled s o → _tick (this s) = tick draws →
  st_draws (sys_store (exec o s)) = st_draws (sys_store s).
Proof.
  intros Hen Ht. destruct o as [| | a | id | cells | rows]; simpl.
  - by rewrite start_run.
  - by rewrite stop_store.
  - by destruct (set_state_frame s a) as (_ & ->).
  - destruct (interval_callback_state id s Hen) as (sw & log & -> & _).
    simpl. destruct sw; simpl; rewrite Ht; by apply tick_quiet.
  - done.
  - done.
Qed.

(** X19. A model built without a [tick] option never calls
    [Math.random] once constructed: the callback passes no fluctuation
    to [tick], so a run of such a model is free of noise. The only draws
    are the [1600] of the random world, made by the constructor when no
    initial state is given. *)
Theorem default_model_draws_at_construction_only (draws : nat → Q) (st : store)
    (options : IOptions) (s0 s : system) :
  constructed draws st options s0 → tick_option options = None →
  steps any_state s0 s →
  st_draws (sys_store s) =
    (st_draws st + match initial options with Some _ => 0 | None => 1600 end)%nat.
Proof.
  intros Hc Hopt Hsteps.
  assert (H0 : _tick (this s0) = tick draws ∧
               st_draws (sys_store s0) =
                 (st_draws st +
                  match initial options with Some _ => 0 | None => 1600 end)%nat).
  { destruct Hc as (_ & _ & ->).
    destruct (new_Model_config draws options st) as (_ & _ & _ & Ht & Hd).
    by rewrite Hopt in Ht. }
  clear Hc. destruct H0 as (Ht0 & Hd0).
  assert (H : _tick (this s) = tick draws ∧
              st_draws (sys_store s) = st_draws (sys_store s0)).
  { clear Hd0. induction Hsteps as [s0 | s0 s' o Hsteps IH Hen _]; [done |].
    destruct (IH Ht0) as (Ht & Hd).
    destruct (exec_keeps_config o s' Hen) as (_ & ->).
    by rewrite (exec_keeps_draws draws o s' Hen Ht). }
  destruct H as (_ & ->). done.
Qed.

Lemma default_model_draws_at_construction_only_witness :
  st_draws (sys_store (exec (Fire 1) (exec Start (model_of blinker)))) =
  (st_draws (store_of blinker) +
   match initial (MkOptions (Some 0%nat) None None) with
   | Some _ => 0
   | None => 1600
   end)%nat.
Proof.
  apply (default_model_draws_at_construction_only no_draws (store_of blinker)
           (MkOptions (Some 0%nat) None None) (model_of blinker)).
  - apply model_of_constructed.
  - reflexivity.
  - apply steps_step; [apply steps_step; [apply steps_refl | exact I | done] | | done].
    unfold enabled. refine (bool_decide_unpack _ _). vm_compute. exact I.
Defined.

(** ** Notifications along the firings *)

Lemma firings_even (draws : nat → Q) (id d : Z) (R C : nat) (s : system)
    (g : list (list Bit)) :
  ticking_model draws id d R C false s → (1 ≤ R)%nat → current s = Some g →
  ∀ n,
    ticking_model draws id d R C false (Nat.iter (2 * n) (exec (Fire id)) s) ∧
    current (Nat.iter (2 * n) (exec (Fire id)) s) = Some (Nat.iter n (step R C) g).
Proof.
  intros Hmodel HR Hcur n.
  induction n as [| n [IHm IHc]]; [done |].
  replace (2 * S n)%nat with (S (S (2 * n))) by lia.
  rewrite !Nat.iter_succ.
  destruct (fire_ticking draws id d R C false _ _ IHm HR IHc)
    as (Hm1 & _ & Hsc1 & _).
  destruct (fire_ticking draws id d R C true _ _ Hm1 HR Hsc1)
    as (Hm2 & Hc2 & _).
  done.
Qed.

Lemma fire_ticking_emits (draws : nat → Q) (id d : Z) (R C : nat) (sw : bool)
    (s : system) :
  ticking_model draws id d R C sw s → (1 ≤ R)%nat →
  ticking_model draws id d R C (negb sw) (exec (Fire id) s) ∧
  emitted (exec (Fire id) s) =
    CellsChanged (Z.of_nat R) (Z.of_nat C) 0 0 :: emitted s.
Proof.
  intros Hmodel HR. pose proof Hmodel as (Hts & Ht & Hsep & Hd & Hs).
  assert (Hid : id ∈ handle <$> timers s) by (rewrite Hts; apply list_elem_of_here).
  split.
  - assert (Hg : ∃ g, matrix_of (sys_heap s)
                        (if sw then _swap (this s) else _data (this s)) = Some g).
    { destruct sw.
      - apply shape_rect in Hs as (g & Hg & _). by exists g.
      - apply shape_rect in Hd as (g & Hg & _). by exists g. }
    destruct Hg as (g & Hg).
    by destruct (fire_ticking draws id d R C sw s g Hmodel HR Hg) as (Hm & _).
  - destruct (interval_callback_run draws id s R C Hid Ht HR Hd Hs)
      as (sw' & st' & _ & _ & Hcall & _).
    simpl. by rewrite Hcall.
Qed.

(** X20. Observers are notified twice per generation. After [start()]
    on separate buffers, every firing emits one notification for the
    whole grid, the even ones included, though these leave the current
    generation as the firing before left it. *)
Theorem observers_are_notified_twice_per_generation (draws : nat → Q)
    (id d : Z) (R C : nat) (s : system) (g : list (list Bit)) :
  ticking_model draws id d R C false s → (1 ≤ R)%nat → current s = Some g →
  (∀ k, emitted (Nat.iter k (exec (Fire id)) s) =
        replicate k (CellsChanged (Z.of_nat R) (Z.of_nat C) 0 0) ++ emitted s) ∧
  (∀ n, current (Nat.iter (2 * n + 2) (exec (Fire id)) s) =
        current (Nat.iter (2 * n + 1) (exec (Fire id)) s)).
Proof.
  intros Hmodel HR Hcur. split.
  - intros k.
    assert (H : ∃ sw,
              ticking_model draws id d R C sw (Nat.iter k (exec (Fire id)) s) ∧
              emitted (Nat.iter k (exec (Fire id)) s) =
                replicate k (CellsChanged (Z.of_nat R) (Z.of_nat C) 0 0) ++
                emitted s).
    { induction k as [| k (sw & IHm & IHe)]; [by exists false |].
      rewrite Nat.iter_succ.
      destruct (fire_ticking_emits draws id d R C sw _ IHm HR) as (Hm & He).
      exists (negb sw). split; [done |]. by rewrite He, IHe. }
    by destruct H as (_ & _ & H).
  - intros n.
    destruct (firings_even draws id d R C s g Hmodel HR Hcur n) as (Hm & Hc).
    replace (2 * n + 2)%nat with (S (S (2 * n))) by lia.
    replace (2 * n + 1)%nat with (S (2 * n)) by lia.
    rewrite !Nat.iter_succ.
    destruct (fire_ticking draws id d R C false _ _ Hm HR Hc)
      as (Hm1 & Hc1 & Hsc1 & _).
    destruct (fire_ticking draws id d R C true _ _ Hm1 HR Hsc1)
      as (_ & Hc2 & _).
    by rewrite Hc1, Hc2.
Qed.

Lemma observers_are_notified_twice_per_generation_witness :
  let s := exec Start (model_of blinker) in
  (∀ k, emitted (Nat.iter k (exec (Fire 1)) s) =
        replicate k (CellsChanged (Z.of_nat 5) (Z.of_nat 5) 0 0) ++ emitted s) ∧
  (∀ n, current (Nat.iter (2 * n + 2) (exec (Fire 1)) s) =
        current (Nat.iter (2 * n + 1) (exec (Fire 1)) s)).
Proof.
  apply (observers_are_notified_twice_per_generation no_draws 1 250 5 5
           (exec Start (model_of blinker)) blinker).
  - split; [reflexivity |]. split; [reflexivity |]. split; [| split; reflexivity].
    apply (separate_intro _ _ _ [0; 1; 2; 3; 4]%nat [5; 6; 7; 8; 9]%nat);
      try reflexivity; refine (bool_decide_unpack _ _); vm_compute; exact I.
  - lia.
  - reflexivity.
Defined.
